(** * HilbertCrypt: the generalized Hilbert curve and the pixel permutation

    A shallow embedding of [src/Cpp/hilbert_encrypt.cpp]:
    - [generate2d], [generate_mapping]: the recursive curve generator;
    - [get_indices], [copy_pixels]: the cyclic shift along the curve;
    - [process_image]: the checks around them, on a decoded [Mat];
    - the progress lines of [copy_pixels] and the tables of image formats
      of [process_image] and [main].

    C++ [int] and [int64_t] values are embedded in [Z]; [/] and [%] are the
    truncating [Z.quot] and [Z.rem]; [abs] is [Z.abs].  Where the program
    can leave the range of its integer types, the wrap-around is written
    out: the [int] product [width * height] ([wrap_int], lines 155, 170 and
    323), the [int64_t] sum [i + offset] ([wrap_int64]) and the conversion
    [static_cast<int>] of [get_indices] (lines 196-200).  Signed overflow is
    undefined in C++; the model follows the two's complement wrap-around of
    the compilers, and no theorem below depends on it except those that
    say how the program fails there.  The arithmetic of [generate2d] is
    embedded as it is: [intermediates_bounded] bounds every integer the
    generator computes by three times the longer side of the image. *)

From Stdlib Require Import ZArith Lia Bool.
From Stdlib Require Import Floats.SpecFloat.
From stdpp Require Import base tactics option list strings.

Local Open Scope Z_scope.

(** ** Points ([cv::Point]) *)

Record Point := mkPoint { pt_x : Z; pt_y : Z }.

#[global] Instance Point_eq_dec : EqDecision Point.
Proof. solve_decision. Defined.

(** ** Machine integers *)

Definition INT_MAX : Z := 2147483647.

(** The values of a 32-bit [int]. *)
Definition int_range (v : Z) : Prop := -2147483648 <= v <= 2147483647.

(** The 32-bit [int] with the bits of [v]: the result of [int] arithmetic
    and of [static_cast<int>] under two's complement wrap-around. *)
Definition wrap_int (v : Z) : Z := (v + 2 ^ 31) mod 2 ^ 32 - 2 ^ 31.

(** The same for [int64_t]. *)
Definition wrap_int64 (v : Z) : Z := (v + 2 ^ 63) mod 2 ^ 64 - 2 ^ 63.

(** ** The curve generator *)

(** [(v == 0 ? 0 : v > 0 ? 1 : -1)], lines 75-78. *)
Definition unit_step (v : Z) : Z :=
  if v =? 0 then 0 else if v >? 0 then 1 else -1.

(** The two base-case loops, lines 82-86 and 92-96:
    [for (i = 0; i < n; ++i) { emplace_back(x, y); x += dx; y += dy; }].
    The loop runs [Z.to_nat n] times (not at all when [n <= 0]). *)
Fixpoint fill_line (n : nat) (x y dx dy : Z) (coordinates : list Point)
  : list Point :=
  match n with
  | O => coordinates
  | S k => fill_line k (x + dx) (y + dy) dx dy (coordinates ++ [mkPoint x y])
  end.

(** [generate2d], lines 71-127.  The output vector is threaded through the
    calls; [fuel] bounds the recursion depth and [None] means that the
    recursion was not finished within [fuel] nested calls. *)
Fixpoint generate2d (fuel : nat) (x y ax ay bx by_ : Z)
    (coordinates : list Point) : option (list Point) :=
  match fuel with
  | O => None
  | S fuel =>
    let w := Z.abs (ax + ay) in
    let h := Z.abs (bx + by_) in
    let dax := unit_step ax in
    let day := unit_step ay in
    let dbx := unit_step bx in
    let dby := unit_step by_ in
    if h =? 1 then Some (fill_line (Z.to_nat w) x y dax day coordinates)
    else if w =? 1 then Some (fill_line (Z.to_nat h) x y dbx dby coordinates)
    else
      let ax2 := Z.quot ax 2 in
      let ay2 := Z.quot ay 2 in
      let bx2 := Z.quot bx 2 in
      let by2 := Z.quot by_ 2 in
      let w2 := Z.abs (ax2 + ay2) in
      let h2 := Z.abs (bx2 + by2) in
      if 2 * w >? 3 * h then
        let odd := negb (Z.rem w2 2 =? 0) && (w >? 2) in
        let ax2 := if odd then ax2 + dax else ax2 in
        let ay2 := if odd then ay2 + day else ay2 in
        c1 ← generate2d fuel x y ax2 ay2 bx by_ coordinates;
        generate2d fuel (x + ax2) (y + ay2) (ax - ax2) (ay - ay2) bx by_ c1
      else
        let odd := negb (Z.rem h2 2 =? 0) && (h >? 2) in
        let bx2 := if odd then bx2 + dbx else bx2 in
        let by2 := if odd then by2 + dby else by2 in
        c1 ← generate2d fuel x y bx2 by2 ax2 ay2 coordinates;
        c2 ← generate2d fuel (x + bx2) (y + by2) ax ay (bx - bx2) (by_ - by2) c1;
        generate2d fuel (x + (ax - dax) + (bx2 - dbx)) (y + (ay - day) + (by2 - dby))
                   (- bx2) (- by2) (- (ax - ax2)) (- (ay - ay2)) c2
  end.

(** What [generate_mapping] writes to [cerr] through [log(..., true)]. *)
Inductive mapping_error :=
  | InvalidSize (width height : Z)          (* line 150 *)
  | CountMismatch (count total : Z).        (* lines 171-175 *)

(** [coordinates.reserve(width * height)], line 155: the [int] product is
    converted to [size_t]; a negative one becomes a size beyond
    [max_size()], and [reserve] throws [std::length_error]. *)
Definition reserve_throws (width height : Z) : bool :=
  wrap_int (width * height) <? 0.

(** [generate_mapping], lines 130-179: the returned vector together with the
    error lines logged.  The informational lines and the timing are left
    out.  [None]: no vector is returned, because [reserve] throws (line
    155) or because the recursion was not finished within [fuel] nested
    calls.  The product [width * height] of lines 155, 170 and 174 is an
    [int]. *)
Definition generate_mapping (fuel : nat) (width height : Z)
  : option (list mapping_error * list Point) :=
  if (width <=? 0) || (height <=? 0) then Some ([InvalidSize width height], [])
  else if reserve_throws width height then None
  else
    coordinates ←
      (if width >=? height
       then generate2d fuel 0 0 width 0 0 height []
       else generate2d fuel 0 0 0 height width 0 []);
    if negb (Z.of_nat (length coordinates) =? wrap_int (width * height))
    then Some ([CountMismatch (Z.of_nat (length coordinates))
                              (wrap_int (width * height))], [])
    else Some ([], coordinates).

(** ** Rectangles and the recursive calls *)

(** The six integers one call of [generate2d] works on. *)
Record Rect := mkRect
  { rx : Z; ry : Z; rax : Z; ray : Z; rbx : Z; rby : Z }.

Definition run2d (fuel : nat) (r : Rect) (coordinates : list Point) :=
  generate2d fuel (rx r) (ry r) (rax r) (ray r) (rbx r) (rby r) coordinates.

(** [w] and [h] of lines 72-73. *)
Definition primary_len (r : Rect) : Z := Z.abs (rax r + ray r).
Definition ortho_len (r : Rect) : Z := Z.abs (rbx r + rby r).

(** The arguments of the recursive calls of lines 100-126, in call order. *)
Definition split2d (r : Rect) : list Rect :=
  let '(mkRect x y ax ay bx by_) := r in
  let w := Z.abs (ax + ay) in
  let h := Z.abs (bx + by_) in
  let dax := unit_step ax in
  let day := unit_step ay in
  let dbx := unit_step bx in
  let dby := unit_step by_ in
  let ax2 := Z.quot ax 2 in
  let ay2 := Z.quot ay 2 in
  let bx2 := Z.quot bx 2 in
  let by2 := Z.quot by_ 2 in
  let w2 := Z.abs (ax2 + ay2) in
  let h2 := Z.abs (bx2 + by2) in
  if 2 * w >? 3 * h then
    let odd := negb (Z.rem w2 2 =? 0) && (w >? 2) in
    let ax2 := if odd then ax2 + dax else ax2 in
    let ay2 := if odd then ay2 + day else ay2 in
    [ mkRect x y ax2 ay2 bx by_;
      mkRect (x + ax2) (y + ay2) (ax - ax2) (ay - ay2) bx by_ ]
  else
    let odd := negb (Z.rem h2 2 =? 0) && (h >? 2) in
    let bx2 := if odd then bx2 + dbx else bx2 in
    let by2 := if odd then by2 + dby else by2 in
    [ mkRect x y bx2 by2 ax2 ay2;
      mkRect (x + bx2) (y + by2) ax ay (bx - bx2) (by_ - by2);
      mkRect (x + (ax - dax) + (bx2 - dbx)) (y + (ay - day) + (by2 - dby))
             (- bx2) (- by2) (- (ax - ax2)) (- (ay - ay2)) ].

(** Running a sequence of calls on the same output vector. *)
Definition run_calls (fuel : nat) (calls : list Rect) (coordinates : list Point)
  : option (list Point) :=
  foldl (fun acc r => acc ≫= run2d fuel r) (Some coordinates) calls.

(** The vectors [a] and [b] are axis-parallel, orthogonal and non-zero:
    what [generate_mapping] passes and what every recursive call keeps. *)
Definition aligned (r : Rect) : Prop :=
  (ray r = 0 ∧ rbx r = 0 ∧ rax r ≠ 0 ∧ rby r ≠ 0) ∨
  (rax r = 0 ∧ rby r = 0 ∧ ray r ≠ 0 ∧ rbx r ≠ 0).

(** The cells of a rectangle: from the origin, [e] cells in the direction of
    the sign of [e], on each axis. *)
Definition span_lo (o e : Z) : Z := if 0 <? e then o else o + e + 1.
Definition span_hi (o e : Z) : Z := if 0 <? e then o + e else o + 1.

Definition in_rect (r : Rect) (p : Point) : Prop :=
  (span_lo (rx r) (rax r + rbx r) <= pt_x p < span_hi (rx r) (rax r + rbx r)) ∧
  (span_lo (ry r) (ray r + rby r) <= pt_y p < span_hi (ry r) (ray r + rby r)).

(** A list of points enumerates a rectangle: the right number of points,
    no point twice, and exactly the cells of the rectangle. *)
Definition enumerates (out : list Point) (r : Rect) : Prop :=
  Z.of_nat (length out) = primary_len r * ortho_len r ∧
  NoDup out ∧
  ∀ p, p ∈ out ↔ in_rect r p.

(** Bookkeeping for one split. *)

Definition area (r : Rect) : Z := primary_len r * ortho_len r.

(** What a recursive call must satisfy with respect to its caller. *)
Definition sub_ok (r r' : Rect) : Prop :=
  aligned r' ∧ 1 <= primary_len r' ∧ 1 <= ortho_len r' ∧
  primary_len r' + ortho_len r' < primary_len r + ortho_len r ∧
  (primary_len r' < primary_len r ∨ ortho_len r' < ortho_len r) ∧
  (∀ p, in_rect r' p → in_rect r p).

Fixpoint disjoint_rects (l : list Rect) : Prop :=
  match l with
  | [] => True
  | r :: l' =>
    Forall (fun r' => ∀ p, in_rect r p → in_rect r' p → False) l' ∧
    disjoint_rects l'
  end.

Definition total_area (l : list Rect) : Z := foldr (fun r s => area r + s) 0 l.

(** The points of a base case. *)
Definition line_points (n : nat) (x y dx dy : Z) : list Point :=
  (fun k : nat => mkPoint (x + Z.of_nat k * dx) (y + Z.of_nat k * dy)) <$> seq 0 n.

(** ** Pixel buffers ([cv::Mat]) *)

(** OpenCV's depth codes ([opencv2/core/hal/interface.h]). *)
Definition CV_8U : Z := 0.
Definition CV_16U : Z := 2.

(** A pixel: its channel values, in channel order. *)
Definition Pixel := list Z.

(** A matrix: [rows], [cols], [channels()], [depth()] and the pixels in
    row-major order. *)
Record Mat := mkMat
  { rows : Z; cols : Z; channels : Z; depth : Z; data : list Pixel }.

(** The position of element [(y, x)]; [at] has no defined result outside
    the matrix. *)
Definition mat_index (m : Mat) (y x : Z) : option nat :=
  if (0 <=? y) && (y <? rows m) && (0 <=? x) && (x <? cols m)
  then Some (Z.to_nat (y * cols m + x)) else None.

(** [m.at<T>(y, x)] read. *)
Definition mat_at (m : Mat) (y x : Z) : option Pixel :=
  i ← mat_index m y x; data m !! i.

(** [m->at<T>(y, x) = v]. *)
Definition mat_set (m : Mat) (y x : Z) (v : Pixel) : option Mat :=
  i ← mat_index m y x;
  if decide (i < length (data m))%nat
  then Some (mkMat (rows m) (cols m) (channels m) (depth m) (<[i:=v]> (data m)))
  else None.

(** [Mat(img.size(), img.type(), Scalar(0))], line 348. *)
Definition zeros_like (img : Mat) : Mat :=
  mkMat (rows img) (cols img) (channels img) (depth img)
        (replicate (Z.to_nat (rows img * cols img))
                   (replicate (Z.to_nat (channels img)) 0)).

(** [curve[idx]]: no defined result outside the vector. *)
Definition curve_at (curve : list Point) (idx : Z) : option Point :=
  if 0 <=? idx then curve !! Z.to_nat idx else None.

(** ** The permutation *)

(** The lambda [get_indices], lines 196-200: [i] is an [int], [i + offset]
    and [% total] are computed in [int64_t], and the result is converted by
    [static_cast<int>] into a [std::pair<int, int>]. *)
Definition get_indices (offset total : Z) (i : Z) (encrypt : bool) : Z * Z :=
  let shifted := wrap_int (Z.rem (wrap_int64 (i + offset)) total) in
  if encrypt then (i, shifted) else (shifted, i).

(** One assignment [dst_img->at<T>(dest_p.y, dest_p.x) = src_img.at<T>(src_p.y, src_p.x)]. *)
Definition assign_pixel (src_img dst_img : Mat) (src_p dest_p : Point) : option Mat :=
  v ← mat_at src_img (pt_y src_p) (pt_x src_p);
  mat_set dst_img (pt_y dest_p) (pt_x dest_p) v.

(** The body of the loop of [copy_pixels], lines 203-233. *)
Definition copy_pixel (src_img dst_img : Mat) (curve : list Point)
    (total offset : Z) (is_encrypt : bool) (channels depth : Z) (i : Z)
  : option Mat :=
  let '(src_idx, dest_idx) := get_indices offset total i is_encrypt in
  src_p ← curve_at curve src_idx;
  dest_p ← curve_at curve dest_idx;
  if depth =? CV_8U then
    if channels =? 1 then assign_pixel src_img dst_img src_p dest_p
    else if channels =? 3 then assign_pixel src_img dst_img src_p dest_p
    else if channels =? 4 then assign_pixel src_img dst_img src_p dest_p
    else Some dst_img
  else if depth =? CV_16U then
    if channels =? 1 then assign_pixel src_img dst_img src_p dest_p
    else if channels =? 3 then assign_pixel src_img dst_img src_p dest_p
    else if channels =? 4 then assign_pixel src_img dst_img src_p dest_p
    else Some dst_img
  else Some dst_img.

(** [for (int i = ...; i < total; ++i) body], over the indices still to do. *)
Fixpoint copy_loop (src_img dst_img : Mat) (curve : list Point)
    (total offset : Z) (is_encrypt : bool) (channels depth : Z)
    (indices : list Z) : option Mat :=
  match indices with
  | [] => Some dst_img
  | i :: rest =>
    dst' ← copy_pixel src_img dst_img curve total offset is_encrypt channels depth i;
    copy_loop src_img dst' curve total offset is_encrypt channels depth rest
  end.

(** [copy_pixels], lines 182-256, without the progress output.  [None]: an
    access outside the curve or outside a matrix (undefined behaviour).
    The counter [i] of line 202 is an [int]: for [total > INT_MAX] it runs
    over after the iteration [INT_MAX] and then indexes the curve below
    zero. *)
Definition copy_pixels (src_img dst_img : Mat) (curve : list Point)
    (total offset : Z) (is_encrypt : bool) (channels depth : Z) : option Mat :=
  if INT_MAX <? total then None
  else copy_loop src_img dst_img curve total offset is_encrypt channels depth
                 (seqZ 0 total).

(** ** The golden-ratio offset, in IEEE-754 binary64 *)

Definition prec : Z := 53.
Definition emax : Z := 1024.

(** Conversion of an integer to [double], round to nearest even. *)
Definition double_of_Z (n : Z) : spec_float := binary_normalize prec emax n 0 false.

(** [round(x)] (halfway cases away from zero) converted to [int64_t]. *)
Definition round_to_Z (f : spec_float) : Z :=
  match f with
  | S754_finite s m e =>
    let mag := if 0 <=? e then Z.pos m * 2 ^ e
               else (Z.pos m + 2 ^ (- e - 1)) / 2 ^ (- e) in
    if s then - mag else mag
  | _ => 0
  end.

(** [double golden_ratio = (sqrt(5) - 1) / 2], line 352. *)
Definition golden_ratio : spec_float :=
  SFdiv prec emax
    (SFsub prec emax (SFsqrt prec emax (double_of_Z 5)) (double_of_Z 1))
    (double_of_Z 2).

(** [int64_t offset = round(golden_ratio * total)], line 353. *)
Definition golden_offset (total : Z) : Z :=
  round_to_Z (SFmul prec emax golden_ratio (double_of_Z total)).


(** ** [process_image] on a decoded image *)

(** What [process_image] writes to [cerr] after the decoding of the file. *)
Inductive image_error :=
  | UnsupportedChannels (channels : Z)      (* line 312 *)
  | UnsupportedDepth (depth : Z)            (* line 318 *)
  | LengthError                             (* line 155, caught in line 396 *)
  | NoCurve                                 (* line 327 *)
  | CurveSizeMismatch (size total : Z)      (* lines 331-335 *)
  | CurveOutOfBounds (p : Point)            (* line 342 *)
  | AllZeroOutput                           (* line 364 *)
  | NotWritable                             (* line 372 *)
  | SaveFailed.                             (* line 387 *)

(** [process_image] returns nothing: it logs an error, or [imwrite] was
    given [output_img] and has returned [true].  What the saved file decodes
    to is a matter of its format and not part of the model. *)
Inductive outcome :=
  | Failed (e : image_error)
  | Written (output_img : Mat).

(** What the file system answers when the result is saved: whether the test
    of lines 369-376 passes (the target does not exist, or it opens for
    appending), and whether [imwrite] returns [true], line 386 (when it
    returns [false] or throws, nothing is saved and an error is logged). *)
Record Target := mkTarget { writable : bool; imwrite_ok : bool }.

(** [cv::sum(m)[c]]: the sum of channel [c] over all pixels. *)
Definition channel_sum (m : Mat) (c : nat) : Z :=
  foldr (fun px s => nth c px 0 + s) 0 (data m).

(** [sum[0] == 0 && sum[1] == 0 && sum[2] == 0 && sum[3] == 0], line 363. *)
Definition sum_is_zero (m : Mat) : bool :=
  (channel_sum m 0 =? 0) && (channel_sum m 1 =? 0) &&
  (channel_sum m 2 =? 0) && (channel_sum m 3 =? 0).

(** [p.x < 0 || p.x >= width || p.y < 0 || p.y >= height], line 341. *)
Definition out_of_bounds (width height : Z) (p : Point) : bool :=
  (pt_x p <? 0) || (pt_x p >=? width) || (pt_y p <? 0) || (pt_y p >=? height).

(** Lines 367-388: the test of the target file and the call of [imwrite]. *)
Definition save_image (target : Target) (output_img : Mat) : outcome :=
  if negb (writable target) then Failed NotWritable
  else if negb (imwrite_ok target) then Failed SaveFailed
  else Written output_img.

(** Lines 323-388: from the generated curve to the saved image.  [total] of
    line 323 is the [int] product [width * height], widened to [int64_t]. *)
Definition permute_image (target : Target) (img : Mat) (curve : list Point)
    (is_encrypt : bool) : option outcome :=
  let width := cols img in
  let height := rows img in
  let total := wrap_int (width * height) in
  if decide (curve = []) then Some (Failed NoCurve)
  else if negb (Z.of_nat (length curve) =? total)
  then Some (Failed (CurveSizeMismatch (Z.of_nat (length curve)) total))
  else
    match List.find (out_of_bounds width height) curve with
    | Some p => Some (Failed (CurveOutOfBounds p))
    | None =>
      let output_img := zeros_like img in
      let offset := golden_offset total in
      output_img ← copy_pixels img output_img curve total offset is_encrypt
                               (channels img) (depth img);
      if sum_is_zero output_img then Some (Failed AllZeroOutput)
      else Some (save_image target output_img)
    end.

(** [process_image], lines 306-400, on the decoded image [img]: reading the
    file and looking up its extension are left to the caller, the answers
    of the file system are given by [target].  A [std::length_error] thrown
    by [generate_mapping] is caught in line 396.  [None]: no defined result
    (curve generation out of fuel, or an access out of bounds). *)
Definition process_image (fuel : nat) (target : Target) (img : Mat)
    (is_encrypt : bool) : option outcome :=
  let width := cols img in
  let height := rows img in
  let channels := channels img in
  let depth := depth img in
  if negb (channels =? 1) && negb (channels =? 3) && negb (channels =? 4)
  then Some (Failed (UnsupportedChannels channels))
  else if negb (depth =? CV_8U) && negb (depth =? CV_16U)
  then Some (Failed (UnsupportedDepth depth))
  else if negb ((width <=? 0) || (height <=? 0)) && reserve_throws width height
  then Some (Failed LengthError)
  else
    '(_, curve) ← generate_mapping fuel width height;
    permute_image target img curve is_encrypt.

(** The error kinds of the specification (section 7) for the error lines of
    the code; [OutsideSpecification] for the failures the specification
    leaves to the caller (allocation and the file system). *)
Inductive spec_error :=
  | InvalidDimensions
  | GenerationInvariantViolation
  | UnsupportedFormat
  | PermutationIntegrityError
  | OutsideSpecification.

Definition mapping_error_kind (e : mapping_error) : spec_error :=
  match e with
  | InvalidSize _ _ => InvalidDimensions
  | CountMismatch _ _ => GenerationInvariantViolation
  end.

Definition image_error_kind (e : image_error) : spec_error :=
  match e with
  | UnsupportedChannels _ | UnsupportedDepth _ => UnsupportedFormat
  | NoCurve | CurveSizeMismatch _ _ => UnsupportedFormat
  | CurveOutOfBounds _ => GenerationInvariantViolation
  | AllZeroOutput => PermutationIntegrityError
  | LengthError | NotWritable | SaveFailed => OutsideSpecification
  end.

(** ** Curves and well-formed images *)

(** The rectangle the top-level call of [generate_mapping] starts from,
    lines 160-164. *)
Definition start_rect (width height : Z) : Rect :=
  if width >=? height
  then mkRect 0 0 width 0 0 height
  else mkRect 0 0 0 height width 0.

Definition in_image (width height : Z) (p : Point) : Prop :=
  0 <= pt_x p < width ∧ 0 <= pt_y p < height.

(** A curve of a [width] x [height] image: [width * height] points, no point
    twice, exactly the cells of the image. *)
Definition valid_curve (width height : Z) (curve : list Point) : Prop :=
  Z.of_nat (length curve) = width * height ∧
  NoDup curve ∧
  ∀ p, p ∈ curve ↔ in_image width height p.

(** The formats [process_image] accepts, lines 311 and 317. *)
Definition supported (channels depth : Z) : Prop :=
  (channels = 1 ∨ channels = 3 ∨ channels = 4) ∧ (depth = CV_8U ∨ depth = CV_16U).

(** A matrix holds [rows * cols] pixels. *)
Definition wf_mat (m : Mat) : Prop :=
  0 <= rows m ∧ 0 <= cols m ∧ Z.of_nat (length (data m)) = rows m * cols m.

Definition same_shape (m1 m2 : Mat) : Prop :=
  rows m1 = rows m2 ∧ cols m1 = cols m2 ∧
  channels m1 = channels m2 ∧ depth m1 = depth m2.

(** The curve of a 3 x 1 image. *)
Definition three_cells : list Point := [mkPoint 0 0; mkPoint 1 0; mkPoint 2 0].

(** The cyclic shift along the curve. *)
Definition shift (offset total i : Z) : Z := (i + offset) mod total.

(** Every channel of every pixel is zero. *)
Definition all_zero (m : Mat) : Prop := Forall (Forall (fun v => v = 0)) (data m).

(** Where iteration [i] of [copy_pixels] reads and writes along the curve,
    and the position of a cell in the row-major data. *)
Definition src_index (offset total : Z) (is_encrypt : bool) (i : Z) : Z :=
  if is_encrypt then i else shift offset total i.
Definition dest_index (offset total : Z) (is_encrypt : bool) (i : Z) : Z :=
  if is_encrypt then shift offset total i else i.
Definition cell_index (m : Mat) (p : Point) : nat :=
  Z.to_nat (pt_y p * cols m + pt_x p).

(** A [double] that is not negative. *)
Definition nonneg_float (f : spec_float) : Prop :=
  match f with
  | S754_zero s | S754_infinity s | S754_finite s _ _ => s = false
  | S754_nan => True
  end.

(** The specification's [round((sqrt 5 - 1) / 2 * total)] over the reals,
    computed with integers: [floor ((sqrt 5 * t - t + 1) / 2)]. *)
Definition exact_offset (total : Z) : Z :=
  (Z.sqrt (5 * total * total) - total + 1) / 2.


(** ** The range of the machine integers *)

(** Every integer one call of [generate2d] computes (lines 72-125, both
    branches, and the last value of the loop variables of the base cases),
    to bound the machine integers. *)
Definition intermediates (r : Rect) : list Z :=
  let '(mkRect x y ax ay bx by_) := r in
  let w := Z.abs (ax + ay) in
  let h := Z.abs (bx + by_) in
  let dax := unit_step ax in
  let day := unit_step ay in
  let dbx := unit_step bx in
  let dby := unit_step by_ in
  let ax2 := Z.quot ax 2 in
  let ay2 := Z.quot ay 2 in
  let bx2 := Z.quot bx 2 in
  let by2 := Z.quot by_ 2 in
  let w2 := Z.abs (ax2 + ay2) in
  let h2 := Z.abs (bx2 + by2) in
  let ax2' := if negb (Z.rem w2 2 =? 0) && (w >? 2) then ax2 + dax else ax2 in
  let ay2' := if negb (Z.rem w2 2 =? 0) && (w >? 2) then ay2 + day else ay2 in
  let bx2' := if negb (Z.rem h2 2 =? 0) && (h >? 2) then bx2 + dbx else bx2 in
  let by2' := if negb (Z.rem h2 2 =? 0) && (h >? 2) then by2 + dby else by2 in
  [ x; y; ax; ay; bx; by_; ax + ay; w; bx + by_; h; dax; day; dbx; dby;
    x + w * dax; y + w * day; x + h * dbx; y + h * dby;
    ax2; ay2; bx2; by2; ax2 + ay2; w2; bx2 + by2; h2; 2 * w; 3 * h;
    Z.rem w2 2; Z.rem h2 2;
    ax2'; ay2'; x + ax2'; y + ay2'; ax - ax2'; ay - ay2';
    bx2'; by2'; x + bx2'; y + by2'; bx - bx2'; by_ - by2';
    ax - dax; ay - day; bx2' - dbx; by2' - dby;
    x + (ax - dax); y + (ay - day);
    x + (ax - dax) + (bx2' - dbx); y + (ay - day) + (by2' - dby);
    - bx2'; - by2'; ax - ax2; ay - ay2; - (ax - ax2); - (ay - ay2) ].

(** A rectangle of calls inside a [width] x [height] image. *)
Definition inside (width height : Z) (r : Rect) : Prop :=
  aligned r ∧ ∀ p, in_rect r p → in_image width height p.


(** Channel values are unsigned. *)
Definition nonneg_pixels (m : Mat) : Prop :=
  Forall (Forall (fun v => 0 <= v)) (data m).

(** The four channels [cv::sum] reports are zero in a pixel. *)
Definition zero_pixel (px : Pixel) : Prop :=
  nth 0 px 0 = 0 ∧ nth 1 px 0 = 0 ∧ nth 2 px 0 = 0 ∧ nth 3 px 0 = 0.


(** ** Progress output and image formats *)

(** [progress_step], lines 192-193. *)
Definition progress_step (total : Z) : Z :=
  let step := Z.quot total 10 in
  if step =? 0 then 1 else step.

(** What [copy_pixels] writes to [cout]: a percentage, or the closing line
    with 100% and the end of the line. *)
Inductive progress_line :=
  | Percent (progress : Z)                  (* lines 236-245 *)
  | Finished.                               (* lines 247-254 *)

(** Lines 236-245 in iteration [i]. *)
Definition percent_at (total i : Z) : list progress_line :=
  if Z.rem i (progress_step total) =? 0
  then [Percent (Z.quot (i * 100) total)]
  else [].

(** Lines 236-254 in iteration [i]. *)
Definition progress_at (total i : Z) : list progress_line :=
  percent_at total i ++ (if i =? total - 1 then [Finished] else []).

(** The lines written by the loop of line 202, for [total] in the range of
    its [int] counter. *)
Definition progress_output (total : Z) : list progress_line :=
  seqZ 0 total ≫= progress_at total.

(** OpenCV's [cv::ImwriteFlags]. *)
Definition IMWRITE_JPEG_QUALITY : Z := 1.
Definition IMWRITE_PNG_COMPRESSION : Z := 16.
Definition IMWRITE_WEBP_QUALITY : Z := 64.

(** [struct ImageFormat], lines 41-44. *)
Record ImageFormat := mkImageFormat
  { extension : string; write_params : list Z }.

(** [SUPPORTED_FORMATS], lines 47-56. *)
Definition SUPPORTED_FORMATS : list ImageFormat :=
  [ mkImageFormat ".png" [IMWRITE_PNG_COMPRESSION; 3];
    mkImageFormat ".jpg" [IMWRITE_JPEG_QUALITY; 95];
    mkImageFormat ".jpeg" [IMWRITE_JPEG_QUALITY; 95];
    mkImageFormat ".bmp" [];
    mkImageFormat ".webp" [IMWRITE_WEBP_QUALITY; 80];
    mkImageFormat ".tiff" [];
    mkImageFormat ".tif" [] ].

(** The search of [process_image], lines 294-300, for the extension of the
    input path in lower case: the first entry with that extension. *)
Definition find_format (input_ext : string) : option ImageFormat :=
  List.find (fun fmt => String.eqb (extension fmt) input_ext) SUPPORTED_FORMATS.

(** [supported_exts] of [main], line 424, and the test of line 428 on the
    extension of a directory entry in lower case. *)
Definition supported_exts : list string :=
  [".png"; ".jpg"; ".jpeg"; ".bmp"; ".webp"; ".tiff"; ".tif"]%string.

Definition is_selected (ext : string) : bool :=
  existsb (fun e => String.eqb e ext) supported_exts.

(** ** The curve as a path *)

(** [p] with its coordinates exchanged. *)
Definition transpose_point (p : Point) : Point := mkPoint (pt_y p) (pt_x p).

(** Two cells that touch, by a side or by a corner. *)
Definition neighbours (p q : Point) : Prop :=
  Z.abs (pt_x q - pt_x p) <= 1 ∧ Z.abs (pt_y q - pt_y p) <= 1.

(** Two cells that share a side. *)
Definition adjacent (p q : Point) : Prop :=
  Z.abs (pt_x q - pt_x p) + Z.abs (pt_y q - pt_y p) = 1.

(** Every point of the list is related to the next one. *)
Fixpoint connected (adj : Point → Point → Prop) (l : list Point) : Prop :=
  match l with
  | p :: (q :: _) as rest => adj p q ∧ connected adj rest
  | _ => True
  end.

(** The cell in which the call on a rectangle starts. *)
Definition entry_point (r : Rect) : Point := mkPoint (rx r) (ry r).

(** The cell in which the call on a [w] x [h] rectangle stops, counted from
    its start along the primary and the orthogonal direction: the far end
    of the primary side, except for a single column, which stops at the far
    end of the column, and for an odd primary side with two rows, which
    stops one cell earlier. *)
Definition exit_cell (w h : Z) : Z * Z :=
  if w =? 1 then (0, h - 1)
  else if negb (Z.rem w 2 =? 0) && (h =? 2) then (w - 2, 0)
  else (w - 1, 0).

Definition exit_point (r : Rect) : Point :=
  let '(i, j) := exit_cell (primary_len r) (ortho_len r) in
  mkPoint (rx r + i * unit_step (rax r) + j * unit_step (rbx r))
          (ry r + i * unit_step (ray r) + j * unit_step (rby r)).

(** Each call of the list stops in a cell related to the cell the following
    call starts in. *)
Fixpoint linked (adj : Point → Point → Prop) (calls : list Rect) : Prop :=
  match calls with
  | r1 :: (r2 :: _) as rest =>
    adj (exit_point r1) (entry_point r2) ∧ linked adj rest
  | _ => True
  end.

(** The sizes whose curve has no diagonal step: all but an odd primary side
    with an even orthogonal side of four or more. *)
Definition straight_size (w h : Z) : Prop :=
  Z.rem w 2 = 0 ∨ Z.rem h 2 ≠ 0 ∨ h = 2 ∨ w = 1.

Definition straight (r : Rect) : Prop :=
  straight_size (primary_len r) (ortho_len r).

(** A rectangle given by its origin, the unit steps of its two directions
    and its two side lengths. *)
Definition frame_rect (x y dax day dbx dby w h : Z) : Rect :=
  mkRect x y (w * dax) (w * day) (h * dbx) (h * dby).

(** The unit steps of an aligned rectangle. *)
Definition axes (dax day dbx dby : Z) : Prop :=
  (day = 0 ∧ dbx = 0 ∧ (dax = 1 ∨ dax = -1) ∧ (dby = 1 ∨ dby = -1)) ∨
  (dax = 0 ∧ dby = 0 ∧ (day = 1 ∨ day = -1) ∧ (dbx = 1 ∨ dbx = -1)).

(** The length of the first part of a side that is split, lines 100-104,
    108-112 and 117-121. *)
Definition half_adj (n : Z) : Z :=
  let k := Z.quot n 2 in
  if negb (Z.rem k 2 =? 0) && (n >? 2) then k + 1 else k.

(** [split2d] in terms of origins, unit steps and lengths. *)
Definition split_frame (x y dax day dbx dby w h : Z) : list Rect :=
  if 2 * w >? 3 * h then
    let w1 := half_adj w in
    [ frame_rect x y dax day dbx dby w1 h;
      frame_rect (x + w1 * dax) (y + w1 * day) dax day dbx dby (w - w1) h ]
  else
    let h1 := half_adj h in
    let wh := Z.quot w 2 in
    [ frame_rect x y dbx dby dax day h1 wh;
      frame_rect (x + h1 * dbx) (y + h1 * dby) dax day dbx dby w (h - h1);
      frame_rect (x + (w - 1) * dax + (h1 - 1) * dbx)
                 (y + (w - 1) * day + (h1 - 1) * dby)
                 (- dbx) (- dby) (- dax) (- day) h1 (w - wh) ].

(** The cell in which the curve of a [width] x [height] image ends: the far
    end of the longer side, on the side of the origin; one cell before it
    when the longer side is odd and the shorter side is 2. *)
Definition curve_end (width height : Z) : Point :=
  let long := Z.max width height in
  let short := Z.min width height in
  let k := if negb (Z.rem long 2 =? 0) && (short =? 2) then long - 2 else long - 1 in
  if width >=? height then mkPoint k 0 else mkPoint 0 k.

(** ** The calls of the generator *)

(** The calls [generate2d] makes, directly or through its recursive calls,
    when called on [r0]: [r0] itself, and the recursive calls (lines 113-114
    and 122-125) of every such call that is not a base case (lines 80 and
    90). *)
Inductive called (r0 : Rect) : Rect → Prop :=
  | called_top : called r0 r0
  | called_sub r r' :
      called r0 r → ortho_len r ≠ 1 → primary_len r ≠ 1 → r' ∈ split2d r →
      called r0 r'.

(** ** Reading an image along a curve *)

(** The pixels of an image read along a curve. *)
Definition along (curve : list Point) (m : Mat) : list (option Pixel) :=
  (fun p => mat_at m (pt_y p) (pt_x p)) <$> curve.

(** * Proofs *)

Ltac zlia := Z.to_euclidean_division_equations; lia.

(** ** The curve generator *)

Example generate_mapping_2x1 :
  generate_mapping 1 2 1 = Some ([], [mkPoint 0 0; mkPoint 1 0]).
Proof. reflexivity. Qed.

Example generate_mapping_3x3 :
  generate_mapping 6 3 3 =
  Some ([], [mkPoint 0 0; mkPoint 0 1; mkPoint 0 2; mkPoint 1 2; mkPoint 2 2;
             mkPoint 2 1; mkPoint 1 1; mkPoint 1 0; mkPoint 2 0]).
Proof. vm_compute. reflexivity. Qed.


Lemma unit_step_sgn v : unit_step v = Z.sgn v.
Proof. unfold unit_step. destruct v; reflexivity. Qed.

Lemma generate2d_unfold fuel r coordinates :
  run2d (S fuel) r coordinates =
  if ortho_len r =? 1
  then Some (fill_line (Z.to_nat (primary_len r)) (rx r) (ry r)
               (unit_step (rax r)) (unit_step (ray r)) coordinates)
  else if primary_len r =? 1
  then Some (fill_line (Z.to_nat (ortho_len r)) (rx r) (ry r)
               (unit_step (rbx r)) (unit_step (rby r)) coordinates)
  else run_calls fuel (split2d r) coordinates.
Proof.
  destruct r as [x y ax ay bx by_].
  unfold run2d, primary_len, ortho_len, split2d, run_calls. cbn [rx ry rax ray rbx rby generate2d].
  destruct (_ =? 1); [reflexivity|].
  destruct (_ =? 1); [reflexivity|].
  destruct (_ >? _); cbn [foldl]; unfold run2d;
    cbn [mbind option_bind rx ry rax ray rbx rby].
  - reflexivity.
  - destruct (generate2d fuel x y _ _ _ _ coordinates) as [c1|]; reflexivity.
Qed.

(** *** Arithmetic of one split *)

Ltac case_bools :=
  repeat match goal with
  | |- context [?a =? ?b] => destruct (Z.eqb_spec a b)
  | |- context [?a <? ?b] => destruct (Z.ltb_spec a b)
  | |- context [?a >? ?b] => rewrite (Z.gtb_ltb a b)
  | H : context [?a <? ?b] |- _ => destruct (Z.ltb_spec a b)
  end.

Ltac open_rect r H :=
  destruct r as [x y ax ay bx by_];
  unfold aligned, primary_len, ortho_len in *; cbn [rx ry rax ray rbx rby] in *;
  destruct H as [(-> & -> & ? & ?)|(-> & -> & ? & ?)].

Ltac split_ands :=
  repeat match goal with
  | |- _ ∧ _ => split
  | |- Forall _ (_ :: _) => apply Forall_cons
  | |- Forall _ [] => apply Forall_nil
  | |- ∀ p : Point, _ => intros [px py]
  | |- _ → _ => intro
  end.

(** Opens [split2d] into its four cases (which branch, parity adjustment),
    keeping from the parity test only what the bounds need. *)
Ltac open_split :=
  unfold split2d; rewrite ?unit_step_sgn;
  match goal with
  | |- context [?a >? ?b] => destruct (Z.gtb_spec a b)
  end;
  match goal with
  | |- context [negb ?c && (?a >? ?b)] =>
    let O := fresh "Hodd" in
    destruct (negb c && (a >? b)) eqn:O;
    [ apply andb_true_iff in O; destruct O as [_ O];
      apply Z.gtb_lt in O
    | clear O ]
  end.

Ltac open_defs :=
  unfold sub_ok, aligned, area, primary_len, ortho_len, in_rect, span_lo, span_hi in *;
  cbn [rx ry rax ray rbx rby pt_x pt_y] in *.

Ltac crunch :=
  split_ands; open_defs; split_ands; open_defs;
  rewrite ?Z.add_0_r, ?Z.add_0_l in *;
  case_bools; try zlia.

Lemma split2d_ok r :
  aligned r → 2 <= primary_len r → 2 <= ortho_len r →
  Forall (sub_ok r) (split2d r).
Proof.
  intros Hal Hw Hh. open_rect r Hal.
  - open_split.
    all: crunch.
  - open_split.
    all: crunch.
Qed.

Lemma split2d_cover r p :
  aligned r → 2 <= primary_len r → 2 <= ortho_len r →
  in_rect r p → Exists (fun r' => in_rect r' p) (split2d r).
Proof.
  intros Hal Hw Hh Hp. destruct p as [px py]. open_rect r Hal.
  - open_split; rewrite !Exists_cons, Exists_nil; crunch.
  - open_split; rewrite !Exists_cons, Exists_nil; crunch.
Qed.

Lemma split2d_disjoint r :
  aligned r → 2 <= primary_len r → 2 <= ortho_len r →
  disjoint_rects (split2d r).
Proof.
  intros Hal Hw Hh. open_rect r Hal.
  - open_split; cbn [disjoint_rects]; crunch.
  - open_split; cbn [disjoint_rects]; crunch.
Qed.

Ltac area_sum :=
  match goal with
  | |- ?p1 * ?h + (?p2 * ?h + 0) = ?w * ?h =>
    assert (p2 = w - p1) as E by zlia;
    revert E; generalize p1 p2 w h; intros ? ? ? ? ->; ring
  | |- ?p1 * ?q1 + (?w * ?q2 + (?p3 * ?q3 + 0)) = ?w * ?h =>
    assert (p3 = p1 ∧ q3 = w - q1 ∧ q2 = h - p1) as E by zlia;
    revert E; generalize p1 q1 q2 p3 q3 w h; intros ? ? ? ? ? ? ? (-> & -> & ->); ring
  end.

Lemma split2d_area r :
  aligned r → 2 <= primary_len r → 2 <= ortho_len r →
  total_area (split2d r) = area r.
Proof.
  intros Hal Hw Hh. open_rect r Hal.
  - open_split; cbn [total_area foldr]; open_defs; area_sum.
  - open_split; cbn [total_area foldr]; open_defs; area_sum.
Qed.

(** *** The base cases: a straight line of cells *)

Lemma line_points_S n x y dx dy :
  line_points (S n) x y dx dy = mkPoint x y :: line_points n (x + dx) (y + dy) dx dy.
Proof.
  unfold line_points. cbn [seq fmap list_fmap]. f_equal.
  - f_equal; lia.
  - rewrite <- fmap_S_seq, <- list_fmap_compose.
    apply list_fmap_ext. intros _ k _. cbn. f_equal; lia.
Qed.

Lemma fill_line_app n : ∀ x y dx dy coordinates,
  fill_line n x y dx dy coordinates = coordinates ++ line_points n x y dx dy.
Proof.
  induction n as [|n IH]; intros x y dx dy coordinates.
  - cbn. by rewrite app_nil_r.
  - cbn [fill_line]. rewrite IH, line_points_S, <- app_assoc. reflexivity.
Qed.

Lemma line_points_length n x y dx dy : length (line_points n x y dx dy) = n.
Proof. unfold line_points. by rewrite length_fmap, length_seq. Qed.

Lemma line_points_elem n x y dx dy p :
  p ∈ line_points n x y dx dy ↔
  ∃ k, 0 <= k < Z.of_nat n ∧ p = mkPoint (x + k * dx) (y + k * dy).
Proof.
  unfold line_points. rewrite list_elem_of_fmap. split.
  - intros (k & -> & Hk). apply elem_of_seq in Hk. exists (Z.of_nat k). split; [lia|done].
  - intros (k & Hk & ->). exists (Z.to_nat k). split.
    + by rewrite Z2Nat.id by lia.
    + apply elem_of_seq. lia.
Qed.

Lemma line_points_NoDup n x y dx dy :
  dx ≠ 0 ∨ dy ≠ 0 → NoDup (line_points n x y dx dy).
Proof.
  intros Hd. unfold line_points. apply NoDup_fmap_2_strong; [|apply NoDup_seq].
  intros i j _ _ [= Hx Hy]. apply Nat2Z.inj.
  destruct Hd; [apply (Z.mul_reg_r _ _ dx)|apply (Z.mul_reg_r _ _ dy)]; lia.
Qed.

Lemma line_primary r :
  aligned r → ortho_len r = 1 →
  enumerates (line_points (Z.to_nat (primary_len r)) (rx r) (ry r)
                (unit_step (rax r)) (unit_step (ray r))) r.
Proof.
  intros Hal Hh. rewrite !unit_step_sgn. split; [|split].
  - rewrite line_points_length, Hh. unfold primary_len. lia.
  - apply line_points_NoDup. open_rect r Hal; lia.
  - intros [px py]. rewrite line_points_elem. open_rect r Hal; open_defs.
    all: rewrite ?Z.add_0_r, ?Z.add_0_l in *; split.
    all: try (intros (k & Hk & [= -> ->]); case_bools; nia).
    all: intros Hp; exists (Z.abs (px - x) + Z.abs (py - y)).
    all: revert Hp; case_bools; intros Hp; (split; [|f_equal]); lia.
Qed.

Lemma line_ortho r :
  aligned r → primary_len r = 1 →
  enumerates (line_points (Z.to_nat (ortho_len r)) (rx r) (ry r)
                (unit_step (rbx r)) (unit_step (rby r))) r.
Proof.
  intros Hal Hw. rewrite !unit_step_sgn. split; [|split].
  - rewrite line_points_length, Hw. unfold ortho_len. lia.
  - apply line_points_NoDup. open_rect r Hal; lia.
  - intros [px py]. rewrite line_points_elem. open_rect r Hal; open_defs.
    all: rewrite ?Z.add_0_r, ?Z.add_0_l in *; split.
    all: try (intros (k & Hk & [= -> ->]); case_bools; nia).
    all: intros Hp; exists (Z.abs (px - x) + Z.abs (py - y)).
    all: revert Hp; case_bools; intros Hp; (split; [|f_equal]); lia.
Qed.

(** *** The recursion *)

Lemma aligned_len r : aligned r → 1 <= primary_len r ∧ 1 <= ortho_len r.
Proof. intros Hal. open_rect r Hal; lia. Qed.

Lemma run_calls_cons fuel r calls coordinates :
  run_calls fuel (r :: calls) coordinates =
  run2d fuel r coordinates ≫= run_calls fuel calls.
Proof.
  unfold run_calls. cbn [foldl mbind option_bind].
  destruct (run2d fuel r coordinates) as [c|]; cbn; [reflexivity|].
  induction calls as [|r' calls IH]; [reflexivity|exact IH].
Qed.

Lemma run_calls_enumerates fuel calls :
  (∀ r coordinates, r ∈ calls →
     ∃ out, run2d fuel r coordinates = Some (coordinates ++ out) ∧ enumerates out r) →
  disjoint_rects calls →
  ∀ coordinates, ∃ out,
    run_calls fuel calls coordinates = Some (coordinates ++ out) ∧
    Z.of_nat (length out) = total_area calls ∧
    NoDup out ∧
    ∀ p, p ∈ out ↔ Exists (fun r => in_rect r p) calls.
Proof.
  induction calls as [|r calls IH]; intros Hrun Hdis coordinates.
  - exists []. rewrite app_nil_r. repeat split; try done.
    + constructor.
    + intros Hp. by apply elem_of_nil in Hp.
    + intros Hp. by apply Exists_nil in Hp.
  - destruct Hdis as [Hhead Hdis].
    destruct (Hrun r coordinates) as (out1 & Hr1 & Hlen1 & Hnd1 & Hin1); [left|].
    destruct (IH (fun r' c H => Hrun r' c (list_elem_of_further _ _ _ H)) Hdis
                 (coordinates ++ out1)) as (out2 & Hr2 & Hlen2 & Hnd2 & Hin2).
    exists (out1 ++ out2). rewrite run_calls_cons, Hr1. cbn [mbind option_bind].
    rewrite Hr2, app_assoc. repeat split.
    + rewrite length_app, Nat2Z.inj_add, Hlen1, Hlen2. reflexivity.
    + apply NoDup_app. repeat split; [done| |done].
      intros p Hp1 Hp2. apply Hin1 in Hp1. apply Hin2 in Hp2.
      rewrite Forall_forall in Hhead. apply Exists_exists in Hp2 as (r' & Hr' & Hp2).
      exact (Hhead r' Hr' p Hp1 Hp2).
    + rewrite elem_of_app, Exists_cons, Hin1, Hin2. tauto.
    + rewrite elem_of_app, Exists_cons, Hin1, Hin2. tauto.
Qed.

(** [generate2d] on an aligned rectangle, given [w + h] units of fuel,
    appends an enumeration of the rectangle. *)
Lemma run2d_enumerates fuel : ∀ r coordinates,
  aligned r → primary_len r + ortho_len r <= Z.of_nat fuel →
  ∃ out, run2d fuel r coordinates = Some (coordinates ++ out) ∧ enumerates out r.
Proof.
  induction fuel as [|fuel IH]; intros r coordinates Hal Hfuel.
  - apply aligned_len in Hal. lia.
  - rewrite generate2d_unfold. pose proof (aligned_len r Hal) as [Hw Hh].
    destruct (Z.eqb_spec (ortho_len r) 1) as [Hh1|Hh1].
    { eexists. rewrite fill_line_app. split; [reflexivity|]. by apply line_primary. }
    destruct (Z.eqb_spec (primary_len r) 1) as [Hw1|Hw1].
    { eexists. rewrite fill_line_app. split; [reflexivity|]. by apply line_ortho. }
    assert (2 <= primary_len r) as Hw2 by lia.
    assert (2 <= ortho_len r) as Hh2 by lia.
    pose proof (split2d_ok r Hal Hw2 Hh2) as Hok. rewrite Forall_forall in Hok.
    destruct (run_calls_enumerates fuel (split2d r)) with (coordinates := coordinates)
      as (out & Hrun & Hlen & Hnd & Hin).
    + intros r' c Hr'. apply Hok in Hr'.
      destruct Hr' as (Hal' & _ & _ & Hlt & _). apply IH; [done|lia].
    + by apply split2d_disjoint.
    + exists out. split; [done|]. split; [|split; [done|]].
      * rewrite Hlen. by apply split2d_area.
      * intros p. rewrite Hin. split.
        -- intros Hex. apply Exists_exists in Hex as (r' & Hr' & Hp).
           apply Hok in Hr'. destruct Hr' as (_ & _ & _ & _ & _ & Hsub). by apply Hsub.
        -- by apply split2d_cover.
Qed.

(** *** More fuel does not change the result *)

Lemma run_calls_mono fuel fuel' calls :
  (∀ r c out, run2d fuel r c = Some out → run2d fuel' r c = Some out) →
  ∀ c out, run_calls fuel calls c = Some out → run_calls fuel' calls c = Some out.
Proof.
  intros Hmono. induction calls as [|r calls IH]; intros c out; [done|].
  rewrite !run_calls_cons.
  destruct (run2d fuel r c) as [c1|] eqn:E1; [|done].
  rewrite (Hmono _ _ _ E1). cbn [mbind option_bind]. apply IH.
Qed.

Lemma run2d_mono fuel : ∀ fuel' r c out,
  (fuel <= fuel')%nat → run2d fuel r c = Some out → run2d fuel' r c = Some out.
Proof.
  induction fuel as [|fuel IH]; intros fuel' r c out Hle; [done|].
  destruct fuel' as [|fuel']; [lia|].
  rewrite !generate2d_unfold.
  destruct (_ =? 1); [done|]. destruct (_ =? 1); [done|].
  apply run_calls_mono. intros r' c' out'. apply IH. lia.
Qed.

(** *** The top-level call *)

Lemma filter_eq_absent {A} `{EqDecision A} (l : list A) (q : A) :
  q ∉ l → filter (fun p => p = q) l = [].
Proof.
  induction l as [|p l IH]; intros Hq; [done|].
  apply not_elem_of_cons in Hq as [Hne Hq].
  rewrite filter_cons_False by (intros ->; done). by apply IH.
Qed.

Lemma filter_eq_once {A} `{EqDecision A} (l : list A) (q : A) :
  NoDup l → q ∈ l → length (filter (fun p => p = q) l) = 1%nat.
Proof.
  induction 1 as [|p l Hp Hnd IH]; intros Hq; [by apply elem_of_nil in Hq|].
  destruct (decide (p = q)) as [->|Hne].
  - rewrite filter_cons_True by done. by rewrite filter_eq_absent.
  - rewrite filter_cons_False by done. apply IH.
    apply elem_of_cons in Hq as [->|Hq]; done.
Qed.

Lemma wrap_int_id v : int_range v → wrap_int v = v.
Proof.
  unfold int_range, wrap_int. intros Hv.
  change (2 ^ 31) with 2147483648. change (2 ^ 32) with 4294967296.
  rewrite Z.mod_small by lia. lia.
Qed.

Lemma wrap_int64_id v :
  -9223372036854775808 <= v <= 9223372036854775807 → wrap_int64 v = v.
Proof.
  unfold wrap_int64. intros Hv.
  change (2 ^ 63) with 9223372036854775808.
  change (2 ^ 64) with 18446744073709551616.
  rewrite Z.mod_small by lia. lia.
Qed.

Lemma wrap_int_range v : int_range (wrap_int v).
Proof.
  unfold int_range, wrap_int.
  change (2 ^ 31) with 2147483648. change (2 ^ 32) with 4294967296.
  pose proof (Z.mod_pos_bound (v + 2147483648) 4294967296 ltac:(lia)). lia.
Qed.

Lemma reserve_fits width height :
  0 <= width * height <= 2147483647 →
  reserve_throws width height = false ∧ wrap_int (width * height) = width * height.
Proof.
  intros H. unfold reserve_throws. rewrite wrap_int_id by (unfold int_range; lia).
  split; [|done]. apply Z.ltb_ge. lia.
Qed.

Lemma generate_mapping_start fuel width height :
  generate_mapping fuel width height =
  if (width <=? 0) || (height <=? 0) then Some ([InvalidSize width height], [])
  else if reserve_throws width height then None
  else
    coordinates ← run2d fuel (start_rect width height) [];
    if negb (Z.of_nat (length coordinates) =? wrap_int (width * height))
    then Some ([CountMismatch (Z.of_nat (length coordinates))
                              (wrap_int (width * height))], [])
    else Some ([], coordinates).
Proof.
  unfold generate_mapping, start_rect, run2d.
  destruct (_ || _); [reflexivity|]. destruct (reserve_throws _ _); [reflexivity|].
  destruct (width >=? height); reflexivity.
Qed.

Lemma start_rect_aligned width height :
  1 <= width → 1 <= height →
  aligned (start_rect width height) ∧
  area (start_rect width height) = width * height ∧
  primary_len (start_rect width height) + ortho_len (start_rect width height)
  = width + height ∧
  ∀ p, in_rect (start_rect width height) p ↔ in_image width height p.
Proof.
  intros Hw Hh. unfold start_rect, in_image.
  destruct (Z.geb_spec width height); open_defs;
    (split; [lia|split; [lia|split; [lia|]]]);
    intros [px py]; cbn [pt_x pt_y]; case_bools; lia.
Qed.

(** C1, as the code has it: for all [width, height >= 1] whose product fits in a 32-bit
    [int] (the type in which lines 155 and 170 compute it), the generator
    returns [width * height] coordinates in which every cell [(x, y)] of the
    image, [0 <= x < width], [0 <= y < height], appears exactly once: no
    error is logged, the curve has no duplicates, holds only cells of the
    image, and every cell occurs in it once. *)
Theorem generate_mapping_valid (fuel : nat) (width height : Z) :
  1 <= width → 1 <= height → width * height <= 2147483647 →
  width + height <= Z.of_nat fuel →
  ∃ curve,
    generate_mapping fuel width height = Some ([], curve) ∧
    Z.of_nat (length curve) = width * height ∧
    NoDup curve ∧
    (∀ p, p ∈ curve → in_image width height p) ∧
    (∀ x y, 0 <= x < width → 0 <= y < height →
            length (filter (fun p => p = mkPoint x y) curve) = 1%nat).
Proof.
  intros Hw Hh Hint Hfuel.
  destruct (start_rect_aligned width height Hw Hh) as (Hal & Harea & Hsum & Hin).
  destruct (run2d_enumerates fuel (start_rect width height) [] Hal)
    as (curve & Hrun & Hlen & Hnd & Hel); [lia|].
  destruct (reserve_fits width height) as [Hres Hwrap]; [nia|].
  exists curve. rewrite generate_mapping_start, Hres, Hwrap, Hrun.
  cbn [app mbind option_bind].
  fold (area (start_rect width height)) in Hlen. rewrite Harea in Hlen.
  split; [|split; [|split; [|split]]].
  - destruct (Z.leb_spec width 0); [lia|]. destruct (Z.leb_spec height 0); [lia|].
    cbn [orb]. rewrite Hlen, Z.eqb_refl. reflexivity.
  - exact Hlen.
  - exact Hnd.
  - intros p Hp. by apply Hin, Hel.
  - intros x y Hx Hy.
    assert (mkPoint x y ∈ curve) as Hp by (apply Hel, Hin; split; assumption).
    by apply filter_eq_once.
Qed.

Lemma generate_mapping_valid_witness :
  ∃ curve,
    generate_mapping 6 3 3 = Some ([], curve) ∧
    Z.of_nat (length curve) = 3 * 3 ∧
    NoDup curve ∧
    (∀ p, p ∈ curve → in_image 3 3 p) ∧
    (∀ x y, 0 <= x < 3 → 0 <= y < 3 →
            length (filter (fun p => p = mkPoint x y) curve) = 1%nat).
Proof. apply (generate_mapping_valid 6 3 3); lia. Defined.

(** C1 as stated fails where the product leaves the range of [int]: for
    [width = height = 46341] the [int] product of line 155 is negative,
    [reserve] throws, and no curve is returned, whatever the recursion
    bound. *)
Lemma generate_mapping_overflow :
  1 <= 46341 ∧ 2147483647 < 46341 * 46341 ∧
  wrap_int (46341 * 46341) = -2147479015 ∧
  reserve_throws 46341 46341 = true ∧
  ∀ fuel, generate_mapping fuel 46341 46341 = None.
Proof.
  split; [lia|]. split; [lia|]. split; [reflexivity|]. split; [reflexivity|].
  intros fuel. rewrite generate_mapping_start. reflexivity.
Qed.

Lemma generate_mapping_valid_curve fuel width height :
  1 <= width → 1 <= height → width * height <= 2147483647 →
  width + height <= Z.of_nat fuel →
  ∃ curve, generate_mapping fuel width height = Some ([], curve) ∧
           valid_curve width height curve.
Proof.
  intros Hw Hh Hint Hfuel.
  destruct (start_rect_aligned width height Hw Hh) as (Hal & Harea & Hsum & Hin).
  destruct (run2d_enumerates fuel (start_rect width height) [] Hal)
    as (curve & Hrun & Hlen & Hnd & Hel); [lia|].
  destruct (reserve_fits width height) as [Hres Hwrap]; [nia|].
  fold (area (start_rect width height)) in Hlen. rewrite Harea in Hlen.
  exists curve. split.
  - rewrite generate_mapping_start, Hres, Hwrap, Hrun. cbn [app mbind option_bind].
    destruct (Z.leb_spec width 0); [lia|]. destruct (Z.leb_spec height 0); [lia|].
    cbn [orb]. rewrite Hlen, Z.eqb_refl. reflexivity.
  - split; [done|]. split; [done|]. intros p. by rewrite Hel, Hin.
Qed.

(** C5: on every rectangle with primary length [w >= 1] and orthogonal
    length [h >= 1] (axis-parallel vectors, as [generate_mapping] passes
    them) [generate2d] terminates: [w + h] nested calls are enough, from
    then on the result is the same for every recursion bound, and it
    appends exactly [w * h] coordinates.  Every recursive call, of the
    two-way and of the three-way split, works on such a rectangle again,
    with a smaller [w] or a smaller [h], and with a smaller [w + h]. *)
Theorem generate2d_terminates (r : Rect) (coordinates : list Point) :
  aligned r →
  (∃ out,
     Z.of_nat (length out) = primary_len r * ortho_len r ∧
     ∀ fuel, primary_len r + ortho_len r <= Z.of_nat fuel →
             run2d fuel r coordinates = Some (coordinates ++ out)) ∧
  (ortho_len r ≠ 1 → primary_len r ≠ 1 →
   Forall (fun r' =>
             aligned r' ∧ 1 <= primary_len r' ∧ 1 <= ortho_len r' ∧
             (primary_len r' < primary_len r ∨ ortho_len r' < ortho_len r) ∧
             primary_len r' + ortho_len r' < primary_len r + ortho_len r)
          (split2d r)).
Proof.
  intros Hal. pose proof (aligned_len r Hal) as [Hw Hh]. split.
  - destruct (run2d_enumerates (Z.to_nat (primary_len r + ortho_len r)) r coordinates Hal)
      as (out & Hrun & Hlen & _); [lia|].
    exists out. split; [exact Hlen|]. intros fuel Hfuel.
    apply (run2d_mono (Z.to_nat (primary_len r + ortho_len r))); [lia|exact Hrun].
  - intros Hh1 Hw1. eapply Forall_impl; [apply split2d_ok; [done|lia|lia]|].
    intros r' (? & ? & ? & ? & ? & _). done.
Qed.

Lemma generate2d_terminates_witness :
  (∃ out,
     Z.of_nat (length out) = 5 * 2 ∧
     ∀ fuel, 5 + 2 <= Z.of_nat fuel →
             run2d fuel (mkRect 0 0 5 0 0 2) [] = Some ([] ++ out)) ∧
  (2 ≠ 1 → 5 ≠ 1 →
   Forall (fun r' =>
             aligned r' ∧ 1 <= primary_len r' ∧ 1 <= ortho_len r' ∧
             (primary_len r' < 5 ∨ ortho_len r' < 2) ∧
             primary_len r' + ortho_len r' < 5 + 2)
          (split2d (mkRect 0 0 5 0 0 2))).
Proof.
  apply (generate2d_terminates (mkRect 0 0 5 0 0 2) []).
  left. cbn. lia.
Defined.

(** C6: when [width <= 0] or [height <= 0], [generate_mapping] logs the
    invalid-size error (the specification's [InvalidDimensions]) and returns
    the empty vector, whatever the recursion bound: no coordinate at all. *)
Theorem generate_mapping_invalid (fuel : nat) (width height : Z) :
  width <= 0 ∨ height <= 0 →
  generate_mapping fuel width height = Some ([InvalidSize width height], []) ∧
  mapping_error_kind (InvalidSize width height) = InvalidDimensions.
Proof.
  intros H. split; [|reflexivity]. unfold generate_mapping.
  destruct (Z.leb_spec width 0), (Z.leb_spec height 0); cbn [orb]; try reflexivity.
  lia.
Qed.

Lemma generate_mapping_invalid_witness :
  generate_mapping 0 0 7 = Some ([InvalidSize 0 7], []) ∧
  mapping_error_kind (InvalidSize 0 7) = InvalidDimensions.
Proof. apply (generate_mapping_invalid 0 0 7). left. lia. Defined.

(** *** No overflow

    All calls work on rectangles inside the image ([inside_start],
    [inside_split]), and inside the image every integer a call computes is
    at most three times the longer side in absolute value: where
    [3 * max width height] and [width * height] fit in an [int], the machine
    integers are the integers of this model. *)

Lemma inside_start width height :
  1 <= width → 1 <= height → inside width height (start_rect width height).
Proof.
  intros Hw Hh. destruct (start_rect_aligned width height Hw Hh) as (Hal & _ & _ & Hin).
  split; [done|]. intros p. apply Hin.
Qed.

Lemma inside_split width height r :
  inside width height r → ortho_len r ≠ 1 → primary_len r ≠ 1 →
  Forall (inside width height) (split2d r).
Proof.
  intros [Hal Hin] Hh Hw. pose proof (aligned_len r Hal) as [? ?].
  eapply Forall_impl; [apply split2d_ok; [done|lia|lia]|].
  intros r' (Hal' & _ & _ & _ & _ & Hsub). split; [done|]. auto.
Qed.

Lemma intermediates_bounded width height r :
  inside width height r →
  Forall (fun v => Z.abs v <= 3 * Z.max width height) (intermediates r).
Proof.
  intros [Hal Hin].
  pose proof (Hin (mkPoint (span_lo (rx r) (rax r + rbx r))
                           (span_lo (ry r) (ray r + rby r)))) as Hlo.
  pose proof (Hin (mkPoint (span_hi (rx r) (rax r + rbx r) - 1)
                           (span_hi (ry r) (ray r + rby r) - 1))) as Hhi.
  clear Hin. unfold in_image in *. open_rect r Hal; open_defs.
  all: rewrite ?Z.add_0_r, ?Z.add_0_l in *.
  all: unfold intermediates; rewrite !unit_step_sgn.
  all: destruct (negb _ && _), (negb _ && _).
  all: repeat (apply Forall_cons; split); try apply Forall_nil.
  all: revert Hlo Hhi; case_bools; intros Hlo Hhi.
  all: try (destruct Hlo as [? ?]; [lia|]; destruct Hhi as [? ?]; [lia|]; zlia).
Qed.

(** The scenarios of the specification: a 3 x 3 image, and the 5 x 2 image
    that takes the elongated branch. *)
Example generate_mapping_5x2 :
  generate_mapping 7 5 2 =
  Some ([], [mkPoint 0 0; mkPoint 0 1; mkPoint 1 1; mkPoint 1 0; mkPoint 2 0;
             mkPoint 2 1; mkPoint 3 1; mkPoint 4 1; mkPoint 4 0; mkPoint 3 0]).
Proof. vm_compute. reflexivity. Qed.

Example split2d_5x2 :
  split2d (start_rect 5 2) = [mkRect 0 0 2 0 0 2; mkRect 2 0 3 0 0 2].
Proof. reflexivity. Qed.

(** ** The permutation *)

(** *** Matrix accesses *)

Lemma mat_index_in m p :
  in_image (cols m) (rows m) p →
  mat_index m (pt_y p) (pt_x p) = Some (Z.to_nat (pt_y p * cols m + pt_x p)).
Proof.
  intros [Hx Hy]. unfold mat_index.
  destruct (Z.leb_spec 0 (pt_y p)), (Z.ltb_spec (pt_y p) (rows m)),
    (Z.leb_spec 0 (pt_x p)), (Z.ltb_spec (pt_x p) (cols m)); try lia.
  reflexivity.
Qed.

Lemma mat_index_Some m y x q :
  mat_index m y x = Some q →
  0 <= y < rows m ∧ 0 <= x < cols m ∧ q = Z.to_nat (y * cols m + x).
Proof.
  unfold mat_index.
  destruct (Z.leb_spec 0 y), (Z.ltb_spec y (rows m)),
    (Z.leb_spec 0 x), (Z.ltb_spec x (cols m)); cbn [andb]; intros [= <-]; lia.
Qed.

Lemma mat_index_lt m y x q :
  wf_mat m → mat_index m y x = Some q → (q < length (data m))%nat.
Proof.
  intros (Hr & Hc & Hlen) Hq. apply mat_index_Some in Hq as (Hy & Hx & ->).
  apply Nat2Z.inj_lt. rewrite Hlen, Z2Nat.id by nia. nia.
Qed.

Lemma mat_index_inj m y x y' x' q :
  mat_index m y x = Some q → mat_index m y' x' = Some q → y = y' ∧ x = x'.
Proof.
  intros H1 H2. apply mat_index_Some in H1 as (Hy & Hx & ->).
  apply mat_index_Some in H2 as (Hy' & Hx' & Heq).
  apply Z2Nat.inj in Heq; [|nia|nia].
  assert (y = y') as -> by (destruct (Z.lt_trichotomy y y') as [?|[?|?]]; nia).
  lia.
Qed.

Lemma mat_index_shape m1 m2 y x :
  same_shape m1 m2 → mat_index m1 y x = mat_index m2 y x.
Proof. intros (Hr & Hc & _). unfold mat_index. by rewrite Hr, Hc. Qed.

Lemma curve_at_Some curve idx p :
  curve_at curve idx = Some p → 0 <= idx < Z.of_nat (length curve) ∧ p ∈ curve.
Proof.
  unfold curve_at. destruct (Z.leb_spec 0 idx); [|done]. intros Hp. split.
  - apply lookup_lt_Some in Hp. lia.
  - by eapply list_elem_of_lookup_2.
Qed.

Lemma curve_at_lt curve idx :
  0 <= idx < Z.of_nat (length curve) → is_Some (curve_at curve idx).
Proof.
  intros H. unfold curve_at. destruct (Z.leb_spec 0 idx); [|lia].
  apply lookup_lt_is_Some. lia.
Qed.

Lemma curve_at_inj curve i j p :
  NoDup curve → curve_at curve i = Some p → curve_at curve j = Some p → i = j.
Proof.
  unfold curve_at. intros Hnd.
  destruct (Z.leb_spec 0 i), (Z.leb_spec 0 j); try done.
  intros Hi Hj. pose proof (NoDup_lookup _ _ _ _ Hnd Hi Hj). lia.
Qed.

(** *** The index mapping *)

Lemma rem_shift offset total i :
  0 <= i → 0 <= offset → 0 < total →
  Z.rem (i + offset) total = shift offset total i.
Proof. intros. unfold shift. apply Z.rem_mod_nonneg; lia. Qed.

Lemma shift_range offset total i : 0 < total → 0 <= shift offset total i < total.
Proof. intros. unfold shift. apply Z.mod_pos_bound. lia. Qed.

Lemma shift_inj offset total i j :
  0 <= i < total → 0 <= j < total →
  shift offset total i = shift offset total j → i = j.
Proof.
  unfold shift. intros Hi Hj Heq.
  assert ((i - j) mod total = 0) as Hdiv.
  { replace (i - j) with ((i + offset) - (j + offset)) by lia.
    rewrite Zminus_mod, Heq, Z.sub_diag. apply Z.mod_0_l. lia. }
  apply Z.mod_divide in Hdiv as [k Hk]; [|lia].
  destruct (Z.lt_trichotomy k 0) as [?|[?|?]]; nia.
Qed.

Lemma shift_surj offset total j :
  0 <= j < total → ∃ i, 0 <= i < total ∧ shift offset total i = j.
Proof.
  intros Hj. exists ((j - offset) mod total). unfold shift. split.
  - apply Z.mod_pos_bound. lia.
  - rewrite Zplus_mod_idemp_l. replace (j - offset + offset) with j by lia.
    apply Z.mod_small. lia.
Qed.

(** Where the sums [i + offset] fit in an [int64_t] and [total] in an [int],
    neither the sum of line 197 nor the [static_cast<int>] changes a value. *)
Lemma get_indices_shift offset total i encrypt :
  0 <= i < total → total <= 2147483647 →
  0 <= offset → offset + (total - 1) <= 9223372036854775807 →
  get_indices offset total i encrypt =
  if encrypt then (i, shift offset total i) else (shift offset total i, i).
Proof.
  intros Hi Hint32 Hoff Hoff64. unfold get_indices.
  rewrite wrap_int64_id by lia. rewrite rem_shift by lia.
  pose proof (shift_range offset total i ltac:(lia)).
  rewrite wrap_int_id by (unfold int_range; lia). reflexivity.
Qed.

(** *** One iteration *)

Lemma copy_pixel_supported src_img dst_img curve total offset is_encrypt channels depth i :
  supported channels depth →
  copy_pixel src_img dst_img curve total offset is_encrypt channels depth i =
  src_p ← curve_at curve (get_indices offset total i is_encrypt).1;
  dest_p ← curve_at curve (get_indices offset total i is_encrypt).2;
  assign_pixel src_img dst_img src_p dest_p.
Proof.
  intros [Hc Hd]. unfold copy_pixel.
  destruct (get_indices offset total i is_encrypt) as [s d]. cbn [fst snd].
  destruct (curve_at curve s) as [ps|]; [|reflexivity].
  destruct (curve_at curve d) as [pd|]; [|reflexivity]. cbn [mbind option_bind].
  destruct Hc as [->|[->| ->]], Hd as [->| ->]; reflexivity.
Qed.

Lemma assign_pixel_spec src_img dst_img ps pd :
  wf_mat src_img → wf_mat dst_img → same_shape src_img dst_img →
  in_image (cols src_img) (rows src_img) ps →
  in_image (cols src_img) (rows src_img) pd →
  ∃ v dst',
    assign_pixel src_img dst_img ps pd = Some dst' ∧
    mat_at src_img (pt_y ps) (pt_x ps) = Some v ∧
    wf_mat dst' ∧ same_shape src_img dst' ∧
    data dst' = <[Z.to_nat (pt_y pd * cols src_img + pt_x pd) := v]> (data dst_img).
Proof.
  intros Hs Hd Hsh Hps Hpd. unfold assign_pixel, mat_at, mat_set.
  rewrite <- (mat_index_shape _ _ _ _ Hsh).
  rewrite !mat_index_in by done. cbn [mbind option_bind].
  pose proof (mat_index_lt _ _ _ _ Hs (mat_index_in _ _ Hps)) as Hlt.
  apply lookup_lt_is_Some in Hlt as [v Hv]. rewrite Hv. cbn [mbind option_bind].
  pose proof (mat_index_lt _ _ _ _ Hs (mat_index_in _ _ Hpd)) as Hlt'.
  assert (length (data src_img) = length (data dst_img)) as Hlen.
  { destruct Hs as (_ & _ & H1), Hd as (_ & _ & H2), Hsh as (Hr & Hc & _).
    apply Nat2Z.inj. rewrite H1, H2, Hr, Hc. reflexivity. }
  rewrite decide_True by lia.
  eexists v, _. split; [reflexivity|]. split; [reflexivity|].
  destruct Hd as (Hr & Hc & Hl), Hsh as (Er & Ec & Ech & Ed).
  split; [|split; [|reflexivity]].
  - unfold wf_mat. cbn. rewrite length_insert. done.
  - unfold same_shape. cbn. done.
Qed.

(** *** The whole loop, for a curve of the image *)

Section copy_pixels_valid.
Variables (src_img : Mat) (curve : list Point).
Variables (total offset channels depth : Z) (is_encrypt : bool).
Hypothesis Hsup : supported channels depth.
Hypothesis Hsrc : wf_mat src_img.
Hypothesis Hcurve : valid_curve (cols src_img) (rows src_img) curve.
Hypothesis Htotal : total = cols src_img * rows src_img.
Hypothesis Hoff : 0 <= offset.
Hypothesis Hint32 : total <= 2147483647.
Hypothesis Hoff64 : offset + (total - 1) <= 9223372036854775807.

Local Abbreviation src_of := (src_index offset total is_encrypt).
Local Abbreviation dest_of := (dest_index offset total is_encrypt).
Local Abbreviation cell_pos := (cell_index src_img).

Lemma curve_cell idx :
  0 <= idx < total →
  ∃ p, curve_at curve idx = Some p ∧ in_image (cols src_img) (rows src_img) p.
Proof using Hcurve Htotal.
  clear Hoff Hint32 Hoff64.
  intros Hidx. destruct Hcurve as (Hlen & Hnd & Hel).
  destruct (curve_at_lt curve idx) as [p Hp]; [lia|].
  exists p. split; [done|]. apply Hel. by apply curve_at_Some in Hp as [_ ?].
Qed.

Lemma src_of_range i : 0 <= i < total → 0 <= src_of i < total.
Proof. intros. unfold src_index. destruct is_encrypt; [lia|apply shift_range; lia]. Qed.

Lemma dest_of_range i : 0 <= i < total → 0 <= dest_of i < total.
Proof. intros. unfold dest_index. destruct is_encrypt; [apply shift_range; lia|lia]. Qed.

Lemma dest_of_inj i j :
  0 <= i < total → 0 <= j < total → dest_of i = dest_of j → i = j.
Proof. unfold dest_index. destruct is_encrypt; [apply shift_inj|done]. Qed.

Lemma src_of_inj i j :
  0 <= i < total → 0 <= j < total → src_of i = src_of j → i = j.
Proof. unfold src_index. destruct is_encrypt; [done|apply shift_inj]. Qed.

Lemma get_indices_of i :
  0 <= i < total →
  get_indices offset total i is_encrypt = (src_of i, dest_of i).
Proof.
  intros Hi. rewrite (get_indices_shift _ _ _ _ Hi Hint32 Hoff Hoff64).
  unfold src_index, dest_index. by destruct is_encrypt.
Qed.

Lemma cell_pos_inj p q :
  in_image (cols src_img) (rows src_img) p →
  in_image (cols src_img) (rows src_img) q →
  cell_pos p = cell_pos q → p = q.
Proof.
  intros Hp Hq Heq. apply mat_index_in in Hp, Hq. fold (cell_pos p) in Hp.
  fold (cell_pos q) in Hq. rewrite Heq in Hp.
  destruct (mat_index_inj _ _ _ _ _ _ Hp Hq) as [Hy Hx].
  destruct p, q; cbn in *; congruence.
Qed.

(** The cells written by two different iterations are different. *)
Lemma dest_cell_inj i j pi pj :
  0 <= i < total → 0 <= j < total →
  curve_at curve (dest_of i) = Some pi → curve_at curve (dest_of j) = Some pj →
  cell_pos pi = cell_pos pj → i = j.
Proof.
  intros Hi Hj Hpi Hpj Heq. destruct Hcurve as (Hlen & Hnd & Hel).
  apply dest_of_inj; [done|done|].
  apply (curve_at_inj curve _ _ pi Hnd Hpi).
  replace pi with pj; [done|]. symmetry. apply cell_pos_inj; [| |done].
  - apply Hel. by apply curve_at_Some in Hpi as [_ ?].
  - apply Hel. by apply curve_at_Some in Hpj as [_ ?].
Qed.

Lemma copy_loop_spec (indices : list Z) : ∀ dst_img,
  wf_mat dst_img → same_shape src_img dst_img →
  Forall (fun i => 0 <= i < total) indices → NoDup indices →
  ∃ out,
    copy_loop src_img dst_img curve total offset is_encrypt channels depth indices
    = Some out ∧
    wf_mat out ∧ same_shape src_img out ∧
    (∀ i ps pd, i ∈ indices →
       curve_at curve (src_of i) = Some ps → curve_at curve (dest_of i) = Some pd →
       data out !! cell_pos pd = data src_img !! cell_pos ps) ∧
    (∀ q, (∀ i pd, i ∈ indices → curve_at curve (dest_of i) = Some pd →
                   cell_pos pd ≠ q) →
          data out !! q = data dst_img !! q).
Proof.
  induction indices as [|i rest IH]; intros dst_img Hdst Hsh Hrange Hnd.
  { exists dst_img. cbn. split; [done|]. split; [done|]. split; [done|]. split; [|done].
    intros i ps pd Hi. by apply elem_of_nil in Hi. }
  apply Forall_cons in Hrange as [Hi Hrange]. apply NoDup_cons in Hnd as [Hni Hnd].
  destruct (curve_cell (src_of i) (src_of_range i Hi)) as (ps & Hps & Hpsin).
  destruct (curve_cell (dest_of i) (dest_of_range i Hi)) as (pd & Hpd & Hpdin).
  destruct (assign_pixel_spec src_img dst_img ps pd Hsrc Hdst Hsh Hpsin Hpdin)
    as (v & d1 & Hassign & Hv & Hd1 & Hsh1 & Hdata1).
  destruct (IH d1 Hd1 Hsh1 Hrange Hnd) as (out & Hloop & Hout & Hsho & Hcopied & Hkept).
  exists out. cbn [copy_loop]. rewrite copy_pixel_supported by done.
  rewrite get_indices_of by done. cbn [fst snd]. rewrite Hps, Hpd.
  cbn [mbind option_bind]. rewrite Hassign. cbn [mbind option_bind].
  split; [done|]. split; [done|]. split; [done|]. split.
  - intros j ps' pd' Hj Hps' Hpd'. apply elem_of_cons in Hj as [->|Hj].
    + rewrite Hps in Hps'. rewrite Hpd in Hpd'.
      injection Hps' as <-. injection Hpd' as <-.
      rewrite Hkept.
      * rewrite Hdata1. fold (cell_pos pd).
        unfold mat_at in Hv. rewrite mat_index_in in Hv by done.
        cbn [mbind option_bind] in Hv. fold (cell_pos ps) in Hv. rewrite Hv.
        apply list_lookup_insert_eq.
        eapply mat_index_lt; [exact Hdst|].
        rewrite <- (mat_index_shape _ _ _ _ Hsh). by apply mat_index_in.
      * intros k pk Hk Hpk Heq. rewrite Forall_forall in Hrange.
        assert (k = i) as -> by (eapply dest_cell_inj; eauto).
        done.
    + by apply Hcopied with j.
  - intros q Hq. rewrite Hkept.
    + rewrite Hdata1. apply list_lookup_insert_ne. fold (cell_pos pd).
      apply (Hq i pd); [left|done].
    + intros k pk Hk. apply Hq. by right.
Qed.

(** Every cell of the image is the cell of one curve index. *)
Lemma cell_of_curve (q : nat) :
  (Z.of_nat q < total) →
  ∃ idx p, 0 <= idx < total ∧ curve_at curve idx = Some p ∧ cell_pos p = q.
Proof using Hsrc Hcurve Htotal.
  clear Hoff Hint32 Hoff64.
  intros Hq. destruct Hcurve as (Hlen & Hnd & Hel), Hsrc as (Hr & Hc & Hdat).
  set (p := mkPoint (Z.of_nat q mod cols src_img) (Z.of_nat q / cols src_img)).
  assert (0 < cols src_img) as Hcpos by nia.
  assert (in_image (cols src_img) (rows src_img) p) as Hp.
  { unfold in_image, p. cbn [pt_x pt_y]. split.
    - apply Z.mod_pos_bound. lia.
    - split; [apply Z.div_pos; lia|]. apply Z.div_lt_upper_bound; lia. }
  pose proof Hp as Hin. apply Hel, list_elem_of_lookup in Hin as [k Hk].
  exists (Z.of_nat k), p. split; [|split].
  - apply lookup_lt_Some in Hk. lia.
  - unfold curve_at. destruct (Z.leb_spec 0 (Z.of_nat k)); [|lia].
    by rewrite Nat2Z.id.
  - unfold cell_index, p. cbn [pt_x pt_y].
    rewrite Z.mul_comm, <- Z.div_mod by lia. apply Nat2Z.id.
Qed.

Lemma copy_pixels_spec dst_img :
  wf_mat dst_img → same_shape src_img dst_img →
  ∃ out,
    copy_pixels src_img dst_img curve total offset is_encrypt channels depth
    = Some out ∧
    wf_mat out ∧ same_shape src_img out ∧
    ∀ i ps pd, 0 <= i < total →
       curve_at curve (src_of i) = Some ps → curve_at curve (dest_of i) = Some pd →
       data out !! cell_pos pd = data src_img !! cell_pos ps.
Proof.
  intros Hdst Hsh.
  destruct (copy_loop_spec (seqZ 0 total) dst_img Hdst Hsh)
    as (out & Hrun & Hout & Hsho & Hcopied & _).
  - apply Forall_forall. intros i Hi. apply elem_of_seqZ in Hi. lia.
  - apply NoDup_seqZ.
  - exists out. split.
    { unfold copy_pixels, INT_MAX. destruct (Z.ltb_spec 2147483647 total); [lia|].
      exact Hrun. } split; [done|]. split; [done|].
    intros i ps pd Hi. apply Hcopied. apply elem_of_seqZ. lia.
Qed.
End copy_pixels_valid.

(** *** Scramble and unscramble *)

Lemma mat_eq (m1 m2 : Mat) :
  same_shape m1 m2 → data m1 = data m2 → m1 = m2.
Proof.
  destruct m1, m2. unfold same_shape. cbn. intros (-> & -> & -> & ->) ->. done.
Qed.

Lemma same_shape_sym m1 m2 : same_shape m1 m2 → same_shape m2 m1.
Proof. unfold same_shape. intros (-> & -> & -> & ->). done. Qed.

Lemma same_shape_trans m1 m2 m3 :
  same_shape m1 m2 → same_shape m2 m3 → same_shape m1 m3.
Proof. unfold same_shape. intros (-> & -> & -> & ->). done. Qed.

Lemma src_dest_negb offset total is_encrypt i :
  src_index offset total (negb is_encrypt) i = dest_index offset total is_encrypt i ∧
  dest_index offset total (negb is_encrypt) i = src_index offset total is_encrypt i.
Proof. by destruct is_encrypt. Qed.

(** One pass followed by the pass in the other direction, with any
    non-negative offset whose sums with the indices fit in an [int64_t], any
    pixel count that fits in an [int], and any pre-allocated destinations. *)
Lemma copy_pixels_inverse (buf dst1 dst2 : Mat) (curve : list Point)
    (offset : Z) (is_encrypt : bool) :
  wf_mat buf → supported (channels buf) (depth buf) →
  valid_curve (cols buf) (rows buf) curve → 0 <= offset →
  cols buf * rows buf <= 2147483647 →
  offset + (cols buf * rows buf - 1) <= 9223372036854775807 →
  wf_mat dst1 → same_shape buf dst1 → wf_mat dst2 → same_shape buf dst2 →
  ∃ mid,
    copy_pixels buf dst1 curve (cols buf * rows buf) offset is_encrypt
                (channels buf) (depth buf) = Some mid ∧
    copy_pixels mid dst2 curve (cols buf * rows buf) offset (negb is_encrypt)
                (channels buf) (depth buf) = Some buf.
Proof.
  intros Hbuf Hsup Hcurve Hoff Hint32 Hoff64 Hd1 Hs1 Hd2 Hs2.
  set (total := cols buf * rows buf) in *.
  destruct (copy_pixels_spec buf curve total offset (channels buf) (depth buf)
              is_encrypt Hsup Hbuf Hcurve eq_refl Hoff Hint32 Hoff64 dst1 Hd1 Hs1)
    as (mid & Hrun1 & Hmid & Hsm & Hcopy1).
  exists mid. split; [exact Hrun1|].
  assert (cols mid = cols buf ∧ rows mid = rows buf) as [Ec Er].
  { destruct Hsm as (-> & -> & _). done. }
  assert (valid_curve (cols mid) (rows mid) curve) as Hcurve' by (by rewrite Ec, Er).
  assert (total = cols mid * rows mid) as Htot' by (by rewrite Ec, Er).
  destruct (copy_pixels_spec mid curve total offset (channels buf) (depth buf)
              (negb is_encrypt) Hsup Hmid Hcurve' Htot' Hoff Hint32 Hoff64 dst2 Hd2
              (same_shape_trans _ _ _ (same_shape_sym _ _ Hsm) Hs2))
    as (out & Hrun2 & Hout & Hso & Hcopy2).
  rewrite Hrun2. f_equal. symmetry. apply mat_eq.
  { eapply same_shape_trans; [exact Hsm|exact Hso]. }
  apply list_eq. intros q.
  destruct (decide (Z.of_nat q < total)) as [Hq|Hq].
  - destruct (cell_of_curve buf curve total Hbuf Hcurve eq_refl q Hq)
      as (idx & p & Hidx & Hp & Hpos).
    (* the iteration of the second pass that writes cell [idx] *)
    assert (∃ i, 0 <= i < total ∧ dest_index offset total (negb is_encrypt) i = idx)
      as (i & Hi & Hdest).
    { destruct is_encrypt; cbn [negb]; unfold dest_index.
      - exists idx. done.
      - apply shift_surj. done. }
    destruct (src_dest_negb offset total is_encrypt i) as [Esrc Edst].
    destruct (curve_cell buf curve total Hcurve eq_refl
                (src_index offset total (negb is_encrypt) i)) as (pm & Hpm & _).
    { apply src_of_range; lia. }
    assert (cell_index mid = cell_index buf) as Ecell.
    { unfold cell_index. by rewrite Ec. }
    pose proof (Hcopy2 i pm p Hi Hpm) as H2. rewrite Hdest in H2.
    specialize (H2 Hp). rewrite Ecell in H2.
    assert (data mid !! cell_index buf pm = data buf !! cell_index buf p) as H1.
    { apply (Hcopy1 i p pm Hi).
      - rewrite <- Edst, Hdest. exact Hp.
      - rewrite <- Esrc. exact Hpm. }
    rewrite <- Hpos, H2, H1. reflexivity.
  - assert (Z.of_nat (length (data buf)) = total) as Hl1.
    { destruct Hbuf as (_ & _ & Hl). rewrite Hl. unfold total. lia. }
    assert (Z.of_nat (length (data out)) = total) as Hl2.
    { destruct Hout as (_ & _ & Hl), Hso as (Hr' & Hc' & _).
      rewrite Hl, <- Hr', <- Hc', Er, Ec. unfold total. lia. }
    rewrite !lookup_ge_None_2; [done|lia|lia].
Qed.

(** ** The offset *)

Lemma golden_ratio_value :
  golden_ratio = S754_finite false 5566755282872656 (-53).
Proof. vm_compute. reflexivity. Qed.

Lemma binary_round_aux_nonneg m e l :
  nonneg_float (binary_round_aux prec emax false m e l).
Proof.
  unfold binary_round_aux.
  destruct (shr_fexp prec emax m e l) as [mrs' e'].
  destruct (shr_fexp prec emax _ e' loc_Exact) as [mrs'' e''].
  destruct (shr_m mrs''); [done| |done].
  destruct (_ <=? _)%Z; done.
Qed.

Lemma double_of_Z_nonneg n : 0 <= n → nonneg_float (double_of_Z n).
Proof.
  intros Hn. unfold double_of_Z, binary_normalize.
  destruct n as [|p|p]; [done| |lia].
  unfold binary_round. destruct (shl_align _ _ _) as [mz ez].
  apply binary_round_aux_nonneg.
Qed.

Lemma round_to_Z_nonneg f : nonneg_float f → 0 <= round_to_Z f.
Proof.
  destruct f as [s|s| |s m e]; cbn; try lia. intros ->.
  destruct (Z.leb_spec 0 e).
  - apply Z.mul_nonneg_nonneg; [lia|]. apply Z.pow_nonneg. lia.
  - apply Z.div_pos; [|apply Z.pow_pos_nonneg; lia].
    pose proof (Z.pow_nonneg 2 (- e - 1)). lia.
Qed.

Lemma golden_offset_nonneg total : 0 <= total → 0 <= golden_offset total.
Proof.
  intros Ht. unfold golden_offset. apply round_to_Z_nonneg.
  rewrite golden_ratio_value. pose proof (double_of_Z_nonneg total Ht) as Hd.
  destruct (double_of_Z total) as [s|s| |s m e]; cbn in Hd |- *; subst; try done.
  apply binary_round_aux_nonneg.
Qed.

Example golden_offset_1 : golden_offset 1 = 1.
Proof. vm_compute. reflexivity. Qed.

Example golden_offset_2 : golden_offset 2 = 1.
Proof. vm_compute. reflexivity. Qed.

Example golden_offset_9 : golden_offset 9 = 6.
Proof. vm_compute. reflexivity. Qed.

(** *** Rounding a product to 53 bits *)

Ltac pow_atoms :=
  repeat match goal with
  | |- context [2 ^ ?e] =>
    let v := fresh "pw" in
    assert (0 < 2 ^ e) by (apply Z.pow_pos_nonneg; lia);
    set (v := 2 ^ e) in *; clearbody v
  | H : context [2 ^ ?e] |- _ =>
    let v := fresh "pw" in
    assert (0 < 2 ^ e) by (apply Z.pow_pos_nonneg; lia);
    set (v := 2 ^ e) in *; clearbody v
  end.

Lemma digits2_pos_bounds p :
  2 ^ (Z.pos (digits2_pos p) - 1) <= Z.pos p < 2 ^ Z.pos (digits2_pos p).
Proof.
  induction p as [p IH|p IH|]; cbn [digits2_pos].
  - rewrite Pos2Z.inj_succ. change (Z.pos p~1) with (2 * Z.pos p + 1).
    replace (Z.succ (Z.pos (digits2_pos p)) - 1) with (Z.succ (Z.pos (digits2_pos p) - 1)) by lia.
    rewrite !Z.pow_succ_r by lia. pow_atoms. lia.
  - rewrite Pos2Z.inj_succ. change (Z.pos p~0) with (2 * Z.pos p).
    replace (Z.succ (Z.pos (digits2_pos p)) - 1) with (Z.succ (Z.pos (digits2_pos p) - 1)) by lia.
    rewrite !Z.pow_succ_r by lia. pow_atoms. lia.
  - cbn. lia.
Qed.

Lemma digits2_pos_le p k : Z.pos p < 2 ^ k → Z.pos (digits2_pos p) <= k.
Proof.
  intros Hp. destruct (digits2_pos_bounds p) as [Hlo _].
  destruct (Z.le_gt_cases (Z.pos (digits2_pos p)) k) as [|Hgt]; [done|].
  assert (2 ^ k <= 2 ^ (Z.pos (digits2_pos p) - 1)); [|lia].
  apply Z.pow_le_mono_r; lia.
Qed.

Lemma iter_xO_value k p : Z.pos (Pos.iter xO p k) = Z.pos p * 2 ^ Z.pos k.
Proof.
  induction k as [|k IH] using Pos.peano_ind.
  - cbn. lia.
  - rewrite Pos.iter_succ. change (Z.pos (Pos.iter xO p k)~0) with (2 * Z.pos (Pos.iter xO p k)).
    rewrite IH, Pos2Z.inj_succ, Z.pow_succ_r by lia. lia.
Qed.

Lemma iter_xO_digits k p :
  digits2_pos (Pos.iter xO p k) = (digits2_pos p + k)%positive.
Proof.
  induction k as [|k IH] using Pos.peano_ind.
  - cbn. lia.
  - rewrite Pos.iter_succ. cbn [digits2_pos]. rewrite IH. lia.
Qed.

Lemma shr_1_m mrs :
  0 <= shr_m mrs → shr_m (shr_1 mrs) = shr_m mrs / 2.
Proof.
  destruct mrs as [m r s]. cbn [shr_m]. intros Hm.
  destruct m as [|[p|p|]|p]; cbn [shr_1 shr_m]; try lia; try reflexivity.
  - change (Z.pos p~1) with (2 * Z.pos p + 1). zlia.
  - change (Z.pos p~0) with (2 * Z.pos p). zlia.
Qed.

Lemma iter_shr_m k : ∀ mrs,
  0 <= shr_m mrs →
  0 <= shr_m (SpecFloat.iter_pos shr_1 k mrs) ∧
  shr_m (SpecFloat.iter_pos shr_1 k mrs) = shr_m mrs / 2 ^ Z.pos k.
Proof.
  assert (∀ a, 0 < 2 ^ Z.pos a) as Hpow by (intros; apply Z.pow_pos_nonneg; lia).
  induction k as [k IH|k IH|]; intros mrs Hm; cbn [SpecFloat.iter_pos].
  - assert (0 <= shr_m (shr_1 mrs)) as H1 by (rewrite shr_1_m by done; apply Z.div_pos; lia).
    destruct (IH _ H1) as [H2 E2]. destruct (IH _ H2) as [H3 E3].
    split; [done|]. rewrite E3, E2, shr_1_m by done.
    pose proof (Hpow k).
    rewrite !Z.div_div by lia. f_equal.
    change (Z.pos k~1) with (2 * Z.pos k + 1).
    replace (2 * Z.pos k + 1) with (Z.succ (Z.pos k + Z.pos k)) by lia.
    rewrite Z.pow_succ_r, Z.pow_add_r by lia. lia.
  - destruct (IH _ Hm) as [H2 E2]. destruct (IH _ H2) as [H3 E3].
    split; [done|]. rewrite E3, E2. pose proof (Hpow k).
    rewrite !Z.div_div by lia. f_equal.
    change (Z.pos k~0) with (2 * Z.pos k). replace (2 * Z.pos k) with (Z.pos k + Z.pos k) by lia.
    rewrite Z.pow_add_r by lia. lia.
  - rewrite shr_1_m by done. split; [apply Z.div_pos; lia|]. reflexivity.
Qed.

Lemma shr_spec mrs e n mrs' e' :
  0 <= shr_m mrs → shr mrs e n = (mrs', e') →
  0 <= shr_m mrs' ∧ e' - e = Z.max 0 n ∧ shr_m mrs' = shr_m mrs / 2 ^ (e' - e).
Proof.
  intros Hm. unfold shr. destruct n as [|k|k]; intros [= <- <-].
  - rewrite Z.sub_diag. cbn. rewrite Z.div_1_r. lia.
  - destruct (iter_shr_m k mrs Hm) as [H1 H2].
    replace (e + Z.pos k - e) with (Z.pos k) by lia. lia.
  - rewrite Z.sub_diag. cbn. rewrite Z.div_1_r. lia.
Qed.

Lemma round_nearest_even_bounds m l :
  m <= round_nearest_even m l <= m + 1.
Proof.
  unfold round_nearest_even. destruct l as [|[| |]]; try lia.
  destruct (Z.even m); lia.
Qed.

Lemma shr_record_of_loc_m m l : shr_m (shr_record_of_loc m l) = m.
Proof. by destruct l as [|[| |]]. Qed.

(** The value of a rounded positive number is at most one unit in the last
    place above the exact value. *)
Lemma binary_round_aux_upper sx p ex s m3 e3 :
  binary_round_aux prec emax sx (Z.pos p) ex loc_Exact = S754_finite s m3 e3 →
  s = sx ∧ ex <= e3 ∧
  Z.pos m3 * 2 ^ (e3 - ex)
  <= Z.pos p + 2 ^ Z.max 0 (fexp prec emax (Z.pos (digits2_pos p) + ex) - ex).
Proof.
  unfold binary_round_aux.
  destruct (shr_fexp prec emax (Z.pos p) ex loc_Exact) as [mrs1 e1] eqn:E1.
  destruct (shr_fexp prec emax _ e1 loc_Exact) as [mrs2 e2] eqn:E2.
  destruct (shr_m mrs2) as [|m|m] eqn:Em; try done.
  destruct (e2 <=? emax - prec); [|done]. intros [= <- <- <-].
  unfold shr_fexp in E1, E2.
  apply shr_spec in E1 as (H1 & D1 & M1); [|cbn; lia].
  cbn [shr_record_of_loc shr_m Zdigits2] in D1, M1.
  set (n1 := Z.max 0 (fexp prec emax (Z.pos (digits2_pos p) + ex) - ex)) in *.
  pose proof (round_nearest_even_bounds (shr_m mrs1) (loc_of_shr_record mrs1)) as Hr.
  set (m2 := round_nearest_even (shr_m mrs1) (loc_of_shr_record mrs1)) in *.
  apply shr_spec in E2 as (H2 & D2 & M2); [|cbn; lia].
  cbn [shr_record_of_loc shr_m] in M2. rewrite Em in M2.
  split; [done|]. split; [lia|].
  replace (e2 - ex) with ((e2 - e1) + n1) by lia.
  rewrite Z.pow_add_r by lia. rewrite D1 in M1.
  assert (0 < 2 ^ (e2 - e1)) as P2 by (apply Z.pow_pos_nonneg; lia).
  assert (0 < 2 ^ n1) as P1 by (apply Z.pow_pos_nonneg; lia).
  pose proof (Z.mul_div_le m2 _ P2) as L2.
  pose proof (Z.mul_div_le (Z.pos p) _ P1) as L1.
  rewrite <- M2 in L2. rewrite <- M1 in L1.
  nia.
Qed.

Lemma binary_round_aux_exact s m e :
  Z.pos (digits2_pos m) = 53 → -1074 <= e <= 971 →
  binary_round_aux prec emax s (Z.pos m) e loc_Exact = S754_finite s m e.
Proof.
  intros Hd He. unfold binary_round_aux, shr_fexp.
  cbn [Zdigits2 shr_record_of_loc]. rewrite Hd.
  assert (fexp prec emax (53 + e) - e = 0) as ->.
  { unfold fexp, emin, prec, emax. lia. }
  cbn [shr shr_m loc_of_shr_record round_nearest_even Zdigits2 shr_record_of_loc].
  rewrite Hd.
  assert (fexp prec emax (53 + e) - e = 0) as ->.
  { unfold fexp, emin, prec, emax. lia. }
  cbn [shr shr_m]. unfold emax, prec.
  destruct (Z.leb_spec e (1024 - 53)); [done|lia].
Qed.

(** Integers below [2^53] are converted exactly, to a normal number. *)
Lemma double_of_Z_normal t :
  1 <= t < 2 ^ 53 →
  ∃ mz ez, double_of_Z t = S754_finite false mz ez ∧
           -52 <= ez <= 0 ∧ Z.pos mz = t * 2 ^ (- ez) ∧
           Z.pos (digits2_pos mz) = 53.
Proof.
  intros Ht. destruct t as [|p|p]; try lia.
  unfold double_of_Z, binary_normalize, binary_round.
  pose proof (digits2_pos_le p 53 ltac:(lia)) as Hd.
  assert (fexp prec emax (Z.pos (digits2_pos p) + 0) = Z.pos (digits2_pos p) - 53) as ->.
  { unfold fexp, emin, prec, emax. lia. }
  unfold shl_align. rewrite Z.sub_0_r.
  destruct (Z.pos (digits2_pos p) - 53) as [|k|k] eqn:Ek; try lia.
  - exists p, 0. rewrite binary_round_aux_exact by lia.
    split; [done|]. split; [lia|]. split; [cbn; lia|lia].
  - exists (Pos.iter xO p k), (Z.neg k).
    assert (Z.pos (digits2_pos (Pos.iter xO p k)) = 53) as Hd'.
    { rewrite iter_xO_digits. lia. }
    rewrite binary_round_aux_exact by lia.
    split; [done|]. split; [lia|]. split; [|done].
    rewrite iter_xO_value. reflexivity.
Qed.

Lemma golden_offset_upper t :
  1 <= t < 2 ^ 53 →
  golden_offset t <= t ∧ (2 <= t → golden_offset t < t).
Proof.
  intros Ht. unfold golden_offset. rewrite golden_ratio_value.
  destruct (double_of_Z_normal t Ht) as (mz & ez & -> & Hez & Hmz & Hd).
  cbn [SFmul xorb].
  destruct (binary_round_aux _ _ _ _ _ _) as [s|s| |s m3 e3] eqn:E;
    cbn [round_to_Z]; try lia.
  apply binary_round_aux_upper in E as (-> & He3 & Hup).
  (* the mantissa of the product has at most 106 bits *)
  destruct (digits2_pos_bounds mz) as [Hlo Hhi]. rewrite Hd in Hlo, Hhi.
  assert (Z.pos (digits2_pos (5566755282872656 * mz)) <= 106) as Hdig.
  { apply digits2_pos_le. rewrite Pos2Z.inj_mul.
    change (2 ^ 106) with (2 ^ 53 * 2 ^ 53).
    change (2 ^ 53) with 9007199254740992 in *. nia. }
  assert (2 ^ Z.max 0 (fexp prec emax
            (Z.pos (digits2_pos (5566755282872656 * mz)) + (-53 + ez)) - (-53 + ez))
          <= 2 ^ 53) as Hulp.
  { apply Z.pow_le_mono_r; [lia|]. unfold fexp, emin, prec, emax. lia. }
  rewrite Pos2Z.inj_mul in Hup.
  set (K := 2 ^ (- ez)) in *.
  assert (1 <= K) as HK by (apply (Z.pow_le_mono_r 2 0); lia).
  set (X := 2 ^ (e3 - (-53 + ez))) in *.
  assert (0 < X) as HX by (apply Z.pow_pos_nonneg; lia).
  change (2 ^ (53 - 1)) with 4503599627370496 in Hlo.
  change (2 ^ 53) with 9007199254740992 in *.
  assert (Z.pos m3 * X <= 5566755282872656 * Z.pos mz + 9007199254740992) as Hup' by lia.
  clear Hup Hulp Hdig.
  destruct (Z.leb_spec 0 e3) as [Hpos|Hneg].
  - (* the product is an integer *)
    assert (X = 2 ^ e3 * (9007199254740992 * K)) as HXe.
    { unfold X, K. change 9007199254740992 with (2 ^ 53).
      rewrite <- !Z.pow_add_r by lia. f_equal. lia. }
    set (V := 2 ^ e3) in *. assert (0 < V) by (apply Z.pow_pos_nonneg; lia).
    assert (Z.pos m3 * V < t); [|lia].
    destruct (Z.lt_ge_cases (Z.pos m3 * V) t) as [|Hge]; [done|exfalso].
    assert (t * (9007199254740992 * K) <= Z.pos m3 * V * (9007199254740992 * K))
      by (apply Z.mul_le_mono_nonneg_r; lia).
    nia.
  - (* the product has a fractional part *)
    set (S := 2 ^ (- e3)). set (H := 2 ^ (- e3 - 1)).
    assert (0 < H) as HH by (apply Z.pow_pos_nonneg; lia).
    assert (S = 2 * H) as HS.
    { unfold S, H. replace (- e3) with (Z.succ (- e3 - 1)) at 1 by lia.
      apply Z.pow_succ_r. lia. }
    assert (X * S = 9007199254740992 * K) as HXS.
    { unfold X, S, K. change 9007199254740992 with (2 ^ 53).
      rewrite <- !Z.pow_add_r by lia. f_equal. lia. }
    split.
    + apply Z.lt_succ_r, Z.div_lt_upper_bound; [lia|].
      destruct (Z.lt_ge_cases (Z.pos m3 + H) (S * Z.succ t)) as [|Hge]; [done|exfalso].
      assert (S * Z.succ t * X <= (Z.pos m3 + H) * X)
        by (apply Z.mul_le_mono_nonneg_r; lia).
      nia.
    + intros Ht2. apply Z.div_lt_upper_bound; [lia|].
      destruct (Z.lt_ge_cases (Z.pos m3 + H) (S * t)) as [|Hge]; [done|exfalso].
      assert (S * t * X <= (Z.pos m3 + H) * X)
        by (apply Z.mul_le_mono_nonneg_r; lia).
      nia.
Qed.

(** For a pixel count that fits in an [int], the offset and every sum
    [i + offset] of line 197 fit in an [int64_t]. *)
Lemma golden_offset_fits total :
  1 <= total → total <= 2147483647 →
  0 <= golden_offset total ∧
  golden_offset total + (total - 1) <= 9223372036854775807.
Proof.
  intros H1 H2. pose proof (golden_offset_nonneg total ltac:(lia)).
  assert (2 ^ 53 = 9007199254740992) as E by reflexivity.
  destruct (golden_offset_upper total) as [Hle _]; [lia|]. lia.
Qed.

(** *** Two-sided bound for a rounded product *)

Lemma digits2_pos_ge p k : 2 ^ (k - 1) <= Z.pos p → k <= Z.pos (digits2_pos p).
Proof.
  intros Hp. destruct (digits2_pos_bounds p) as [_ Hhi].
  destruct (Z.le_gt_cases k (Z.pos (digits2_pos p))) as [|Hgt]; [done|].
  assert (2 ^ Z.pos (digits2_pos p) <= 2 ^ (k - 1)); [|lia].
  apply Z.pow_le_mono_r; lia.
Qed.

Lemma binary_round_aux_bounds sx p ex :
  54 <= Z.pos (digits2_pos p) →
  -1074 <= ex → ex + Z.pos (digits2_pos p) <= 1023 →
  ∃ m3 e3,
    binary_round_aux prec emax sx (Z.pos p) ex loc_Exact = S754_finite sx m3 e3 ∧
    ex <= e3 ∧
    Z.pos p - 2 ^ (Z.pos (digits2_pos p) - 53) < Z.pos m3 * 2 ^ (e3 - ex)
    <= Z.pos p + 2 ^ (Z.pos (digits2_pos p) - 53).
Proof.
  intros Hd Hlo Hhi. set (d := Z.pos (digits2_pos p)) in *.
  unfold binary_round_aux.
  destruct (shr_fexp prec emax (Z.pos p) ex loc_Exact) as [mrs1 e1] eqn:E1.
  destruct (shr_fexp prec emax _ e1 loc_Exact) as [mrs2 e2] eqn:E2.
  unfold shr_fexp in E1, E2.
  apply shr_spec in E1 as (H1 & D1 & M1); [|cbn; lia].
  cbn [shr_record_of_loc shr_m Zdigits2] in D1, M1. fold d in D1.
  assert (fexp prec emax (d + ex) - ex = d - 53) as En1.
  { unfold fexp, emin, prec, emax. lia. }
  rewrite En1 in D1. rewrite D1 in M1. rewrite Z.max_r in * by lia.
  set (n1 := d - 53) in *.
  assert (0 < 2 ^ n1) as P1 by (apply Z.pow_pos_nonneg; lia).
  destruct (digits2_pos_bounds p) as [Hplo Hphi]. fold d in Hplo, Hphi.
  assert (2 ^ 52 <= shr_m mrs1 < 2 ^ 53) as [Hm1lo Hm1hi].
  { rewrite M1. split.
    - apply Z.div_le_lower_bound; [lia|]. rewrite <- Z.pow_add_r by lia.
      replace (n1 + 52) with (d - 1) by lia. lia.
    - apply Z.div_lt_upper_bound; [lia|]. rewrite <- Z.pow_add_r by lia.
      replace (n1 + 53) with d by lia. lia. }
  pose proof (round_nearest_even_bounds (shr_m mrs1) (loc_of_shr_record mrs1)) as Hr.
  set (m2 := round_nearest_even (shr_m mrs1) (loc_of_shr_record mrs1)) in *.
  change (2 ^ 52) with 4503599627370496 in *.
  change (2 ^ 53) with 9007199254740992 in *.
  destruct m2 as [|q|q] eqn:Eq; try lia.
  apply shr_spec in E2 as (H2 & D2 & M2); [|cbn; lia].
  cbn [shr_record_of_loc shr_m Zdigits2] in D2, M2.
  assert (53 <= Z.pos (digits2_pos q) <= 54) as Hdq.
  { split; [apply digits2_pos_ge|apply digits2_pos_le].
    - change (2 ^ (53 - 1)) with 4503599627370496. lia.
    - change (2 ^ 54) with 18014398509481984. lia. }
  assert (fexp prec emax (Z.pos (digits2_pos q) + e1) - e1 = Z.pos (digits2_pos q) - 53)
    as En2.
  { unfold fexp, emin, prec, emax. lia. }
  rewrite En2 in D2.
  (* the second shift is exact *)
  assert (shr_m mrs2 * 2 ^ (e2 - e1) = Z.pos q) as Hexact.
  { rewrite M2. destruct (decide (Z.pos (digits2_pos q) = 53)) as [E53|E54].
    - replace (e2 - e1) with 0 by lia. cbn. rewrite Z.div_1_r. lia.
    - replace (e2 - e1) with 1 by lia.
      destruct (digits2_pos_bounds q) as [Hqlo _].
      replace (Z.pos (digits2_pos q) - 1) with 53 in Hqlo by lia.
      change (2 ^ 53) with 9007199254740992 in Hqlo.
      assert (Z.pos q = 9007199254740992) as -> by lia. reflexivity. }
  assert (0 < 2 ^ (e2 - e1)) as P2 by (apply Z.pow_pos_nonneg; lia).
  destruct (shr_m mrs2) as [|m|m] eqn:Em; try lia.
  unfold emax, prec. destruct (Z.leb_spec e2 (1024 - 53)); [|lia].
  exists m, e2. split; [done|]. split; [lia|].
  replace (e2 - ex) with ((e2 - e1) + n1) by lia.
  rewrite Z.pow_add_r, Z.mul_assoc, Hexact by lia.
  pose proof (Z.mul_div_le (Z.pos p) _ P1) as L1.
  pose proof (Z.mul_succ_div_gt (Z.pos p) _ P1) as L1'.
  rewrite <- M1 in L1, L1'. nia.
Qed.

(** *** [5 t^2] is not a square *)

Lemma square_mod_5 n : (n * n) mod 5 = 0 → n mod 5 = 0.
Proof.
  rewrite Zmult_mod. pose proof (Z.mod_pos_bound n 5 ltac:(lia)) as Hr.
  set (r := n mod 5) in *. intros H.
  assert (r = 0 ∨ r = 1 ∨ r = 2 ∨ r = 3 ∨ r = 4) as [->|[->|[->|[->| ->]]]] by lia;
    first [reflexivity | compute in H; discriminate].
Qed.

Lemma five_not_square t n : 0 <= t → n * n = 5 * (t * t) → t = 0.
Proof.
  intros Ht. generalize Ht. revert n. pattern t. revert t Ht.
  apply Z_lt_induction. intros t IH n Hpos Hn.
  assert (n mod 5 = 0) as Hn5.
  { apply square_mod_5. rewrite Hn, Z.mul_comm. apply Z_mod_mult. }
  apply Z.mod_divide in Hn5 as [m ->]; [|lia].
  assert (t * t = 5 * (m * m)) as Ht by lia.
  assert (t mod 5 = 0) as Ht5.
  { apply square_mod_5. rewrite Ht, Z.mul_comm. apply Z_mod_mult. }
  apply Z.mod_divide in Ht5 as [s Hs]; [|lia].
  destruct (decide (t = 0)) as [|Hne]; [done|exfalso].
  assert (s = 0); [|lia]. apply (IH s) with m; lia.
Qed.

Lemma exact_offset_unique t k :
  0 <= k → 1 <= t →
  (2 * k - 1 + t) * (2 * k - 1 + t) <= 5 * t * t →
  5 * t * t < (2 * k + 1 + t) * (2 * k + 1 + t) →
  exact_offset t = k.
Proof.
  intros Hk Ht Hlo Hhi. unfold exact_offset.
  assert (2 * k - 1 + t <= Z.sqrt (5 * t * t)) as H1.
  { apply Z.sqrt_le_square; [nia|lia|]. replace ((2 * k - 1 + t) ^ 2) with ((2 * k - 1 + t) * (2 * k - 1 + t)) by ring. exact Hlo. }
  assert (Z.sqrt (5 * t * t) < 2 * k + 1 + t) as H2.
  { apply Z.sqrt_lt_square; [nia|lia|]. exact Hhi. }
  zlia.
Qed.

(** *** The double computation against the exact value *)

Lemma golden_offset_scaled t :
  1 <= t < 2 ^ 53 →
  4503599627370496 * (2 * golden_offset t - 1 + t) <= 10070354910243154 * t ∧
  10070354910243150 * t < 4503599627370496 * (2 * golden_offset t + 1 + t).
Proof.
  intros Ht. unfold golden_offset. rewrite golden_ratio_value.
  destruct (double_of_Z_normal t Ht) as (mz & ez & -> & Hez & Hmz & Hd).
  cbn [SFmul xorb].
  destruct (digits2_pos_bounds mz) as [Hlo Hhi]. rewrite Hd in Hlo, Hhi.
  change (2 ^ (53 - 1)) with 4503599627370496 in Hlo.
  change (2 ^ 53) with 9007199254740992 in Hhi.
  assert (105 <= Z.pos (digits2_pos (5566755282872656 * mz)) <= 106) as Hdig.
  { split; [apply digits2_pos_ge|apply digits2_pos_le]; rewrite Pos2Z.inj_mul.
    - change (2 ^ (105 - 1)) with (4503599627370496 * 4503599627370496). nia.
    - change (2 ^ 106) with (9007199254740992 * 9007199254740992). nia. }
  destruct (binary_round_aux_bounds false (5566755282872656 * mz) (-53 + ez))
    as (m3 & e3 & -> & He3 & Hbl & Hbu); [lia|lia|lia|].
  assert (2 ^ (Z.pos (digits2_pos (5566755282872656 * mz)) - 53) <= 9007199254740992)
    as Hulp.
  { change 9007199254740992 with (2 ^ 53). apply Z.pow_le_mono_r; lia. }
  rewrite Pos2Z.inj_mul in Hbl, Hbu.
  set (K := 2 ^ (- ez)) in *.
  assert (1 <= K) as HK by (apply (Z.pow_le_mono_r 2 0); lia).
  set (X := 2 ^ (e3 - (-53 + ez))) in *.
  assert (0 < X) as HX by (apply Z.pow_pos_nonneg; lia).
  assert (5566755282872656 * Z.pos mz - 9007199254740992 < Z.pos m3 * X
          <= 5566755282872656 * Z.pos mz + 9007199254740992) as [Hl Hu] by lia.
  clear Hbl Hbu Hulp Hdig. cbn [round_to_Z].
  (* in units of [2^-53 / K]: twice the rounded value, minus and plus one *)
  assert (∀ k, 9007199254740992 * K * k - 4503599627370496 * K <= Z.pos m3 * X
               < 9007199254740992 * K * k + 4503599627370496 * K →
          4503599627370496 * (2 * k - 1 + t) <= 10070354910243154 * t ∧
          10070354910243150 * t < 4503599627370496 * (2 * k + 1 + t)) as Hfin.
  { intros k [Hk1 Hk2]. split.
    - apply (Z.mul_le_mono_pos_r _ _ K); [lia|]. nia.
    - apply (Z.mul_lt_mono_pos_r K); [lia|]. nia. }
  apply Hfin. clear Hfin.
  destruct (Z.leb_spec 0 e3) as [Hpos|Hneg].
  - assert (X = 2 ^ e3 * (9007199254740992 * K)) as HXe.
    { unfold X, K. change 9007199254740992 with (2 ^ 53).
      rewrite <- !Z.pow_add_r by lia. f_equal. lia. }
    rewrite HXe. nia.
  - set (S := 2 ^ (- e3)). set (H := 2 ^ (- e3 - 1)).
    assert (0 < H) as HH by (apply Z.pow_pos_nonneg; lia).
    assert (S = 2 * H) as HS.
    { unfold S, H. replace (- e3) with (Z.succ (- e3 - 1)) at 1 by lia.
      apply Z.pow_succ_r. lia. }
    assert (X * S = 9007199254740992 * K) as HXS.
    { unfold X, S, K. change 9007199254740992 with (2 ^ 53).
      rewrite <- !Z.pow_add_r by lia. f_equal. lia. }
    assert (0 < S) as HSpos by lia.
    pose proof (Z.mul_div_le (Z.pos m3 + H) S HSpos) as D1.
    pose proof (Z.mul_succ_div_gt (Z.pos m3 + H) S HSpos) as D2.
    set (k := (Z.pos m3 + H) / S) in *.
    assert (S * k * X <= (Z.pos m3 + H) * X) by (apply Z.mul_le_mono_nonneg_r; lia).
    assert ((Z.pos m3 + H) * X < S * Z.succ k * X) by (apply Z.mul_lt_mono_pos_r; lia).
    nia.
Qed.

(** Up to [2^24] pixels the offset computed with doubles is the exactly
    rounded value. *)
Lemma golden_offset_exact t :
  1 <= t <= 2 ^ 24 → golden_offset t = exact_offset t.
Proof.
  intros Ht. change (2 ^ 24) with 16777216 in Ht. symmetry.
  destruct (golden_offset_scaled t) as [H1 H2].
  { change (2 ^ 53) with 9007199254740992. lia. }
  pose proof (golden_offset_nonneg t ltac:(lia)) as Hk.
  set (k := golden_offset t) in *.
  assert (t * t <= 281474976710656) as Ht2 by nia.
  apply exact_offset_unique; [done|lia| |].
  - set (N := 2 * k - 1 + t) in *.
    destruct (Z.le_gt_cases (N * N) (5 * t * t)) as [|Hgt]; [done|exfalso].
    assert ((4503599627370496 * N) * (4503599627370496 * N)
            <= (10070354910243154 * t) * (10070354910243154 * t))
      by (apply Z.mul_le_mono_nonneg; lia).
    nia.
  - set (N := 2 * k + 1 + t) in *.
    destruct (Z.le_gt_cases (N * N) (5 * t * t)) as [Hle|]; [exfalso|lia].
    assert (N * N ≠ 5 * (t * t)) as Hne.
    { intros Heq. apply five_not_square in Heq; lia. }
    assert ((10070354910243150 * t) * (10070354910243150 * t)
            < (4503599627370496 * N) * (4503599627370496 * N))
      by (apply Z.mul_lt_mono_nonneg; lia).
    nia.
Qed.

Lemma exact_offset_spec t :
  1 <= t →
  (2 * exact_offset t - 1 + t) * (2 * exact_offset t - 1 + t) <= 5 * t * t
  < (2 * exact_offset t + 1 + t) * (2 * exact_offset t + 1 + t).
Proof.
  intros Ht. unfold exact_offset.
  destruct (Z.sqrt_spec (5 * t * t)) as [Hlo Hhi]; [nia|].
  assert (2 * t <= Z.sqrt (5 * t * t)) as H2t.
  { apply Z.sqrt_le_square; [nia|lia|nia]. }
  set (s := Z.sqrt (5 * t * t)) in *.
  assert (2 * ((s - t + 1) / 2) <= s - t + 1 <= 2 * ((s - t + 1) / 2) + 1) as Hk by zlia.
  set (k := (s - t + 1) / 2) in *. nia.
Qed.

(** C3, as the code has it: for every [total] from 1 up to [2^53] (the
    [int] product of line 323 is in this range) the offset is
    [round(golden_ratio * total)] in binary64 arithmetic, not reduced modulo
    [total]: it is a non-negative integer, at most [total], and below [total]
    as soon as [total >= 2]; up to [2^24] pixels it is exactly the rounded
    real [(sqrt 5 - 1) / 2 * total].  The reduction modulo [total] happens
    where the indices are formed, [(i + offset) % total], which lies in
    [[0, total)] and is the shift by [offset mod total].  The offset is a
    function of [total] alone: two images of the same size get the same
    offset. *)
Theorem golden_offset_range (total : Z) :
  1 <= total < 2 ^ 53 →
  0 <= golden_offset total <= total ∧
  (2 <= total → golden_offset total < total) ∧
  (total <= 2 ^ 24 → golden_offset total = exact_offset total) ∧
  (∀ i, 0 <= i < total →
     0 <= Z.rem (i + golden_offset total) total < total ∧
     Z.rem (i + golden_offset total) total
     = (i + golden_offset total mod total) mod total) ∧
  (∀ img img', cols img = cols img' → rows img = rows img' →
     golden_offset (cols img * rows img) = golden_offset (cols img' * rows img')).
Proof.
  intros Ht. pose proof (golden_offset_nonneg total ltac:(lia)) as Hnn.
  destruct (golden_offset_upper total Ht) as [Hle Hlt].
  split; [lia|]. split; [exact Hlt|]. split; [|split].
  - intros Hsmall. apply golden_offset_exact. lia.
  - intros i Hi. rewrite Z.rem_mod_nonneg by lia. split.
    + apply Z.mod_pos_bound. lia.
    + by rewrite Zplus_mod_idemp_r.
  - intros img img' -> ->. reflexivity.
Qed.

Lemma golden_offset_range_witness :
  0 <= golden_offset 9 <= 9 ∧
  (2 <= 9 → golden_offset 9 < 9) ∧
  (9 <= 2 ^ 24 → golden_offset 9 = exact_offset 9) ∧
  (∀ i, 0 <= i < 9 →
     0 <= Z.rem (i + golden_offset 9) 9 < 9 ∧
     Z.rem (i + golden_offset 9) 9 = (i + golden_offset 9 mod 9) mod 9) ∧
  (∀ img img', cols img = cols img' → rows img = rows img' →
     golden_offset (cols img * rows img) = golden_offset (cols img' * rows img')).
Proof. apply (golden_offset_range 9). lia. Defined.

(** For [total = 1] the offset is [1]: it is not in [[0, total)] and it is
    not the rounded value reduced modulo [total], which is [0]. *)
Lemma golden_offset_one_out_of_range :
  1 <= 1 ∧ golden_offset 1 = 1 ∧ exact_offset 1 mod 1 = 0 ∧
  ¬ (0 <= golden_offset 1 < 1).
Proof.
  split; [lia|]. split; [exact golden_offset_1|]. split; [reflexivity|].
  rewrite golden_offset_1. lia.
Qed.

(** ** Properties of the permutation engine *)

Lemma zeros_like_wf img :
  0 <= rows img → 0 <= cols img →
  wf_mat (zeros_like img) ∧ same_shape img (zeros_like img).
Proof.
  intros Hr Hc. unfold wf_mat, same_shape, zeros_like. cbn.
  rewrite length_replicate. repeat split; try done. nia.
Qed.

Lemma valid_curve_2x1 : valid_curve 2 1 [mkPoint 0 0; mkPoint 1 0].
Proof.
  split; [reflexivity|]. split.
  - apply NoDup_cons. split; [|apply NoDup_singleton].
    intros H. apply list_elem_of_singleton in H. discriminate.
  - intros [x y]. unfold in_image. cbn [pt_x pt_y].
    rewrite !elem_of_cons, elem_of_nil. split.
    + intros [[= -> ->]|[[= -> ->]|[]]]; lia.
    + intros [Hx Hy]. assert (y = 0) as -> by lia.
      destruct (decide (x = 0)) as [->|]; [by left|].
      assert (x = 1) as -> by lia. right. by left.
Qed.

(** C2: for a buffer of a supported format whose pixel count
    [total = width * height] fits in an [int], a curve of its image and the
    offset computed from [total], one pass of [copy_pixels] into a fresh zero
    image followed by the pass in the other direction gives back the original
    buffer, every channel of every pixel; [is_encrypt = true] is scramble
    then unscramble, [false] the reverse. *)
Theorem scramble_unscramble_identity (buf : Mat) (curve : list Point)
    (is_encrypt : bool) :
  1 <= cols buf → 1 <= rows buf → cols buf * rows buf <= 2147483647 →
  wf_mat buf →
  supported (channels buf) (depth buf) →
  valid_curve (cols buf) (rows buf) curve →
  ∃ mid,
    copy_pixels buf (zeros_like buf) curve (cols buf * rows buf)
                (golden_offset (cols buf * rows buf)) is_encrypt
                (channels buf) (depth buf) = Some mid ∧
    copy_pixels mid (zeros_like mid) curve (cols buf * rows buf)
                (golden_offset (cols buf * rows buf)) (negb is_encrypt)
                (channels buf) (depth buf) = Some buf.
Proof.
  intros Hc Hr Hint32 Hbuf Hsup Hcurve.
  destruct (zeros_like_wf buf) as [Hz Hsz]; [lia|lia|].
  destruct (golden_offset_fits (cols buf * rows buf)) as [Hoff Hoff64]; [nia|lia|].
  destruct (copy_pixels_spec buf curve _ _ _ _ is_encrypt Hsup Hbuf Hcurve eq_refl Hoff
              Hint32 Hoff64 (zeros_like buf) Hz Hsz) as (mid & Hrun & Hmid & Hsm & _).
  destruct (zeros_like_wf mid) as [Hz' Hsz'].
  { destruct Hsm as (<- & _). lia. }
  { destruct Hsm as (_ & <- & _). lia. }
  destruct (copy_pixels_inverse buf (zeros_like buf) (zeros_like mid) curve
              (golden_offset (cols buf * rows buf)) is_encrypt
              Hbuf Hsup Hcurve Hoff Hint32 Hoff64 Hz Hsz Hz'
              (same_shape_trans _ _ _ Hsm Hsz'))
    as (mid' & Hrun' & Hback).
  rewrite Hrun in Hrun'. injection Hrun' as <-. exists mid. done.
Qed.

Lemma scramble_unscramble_identity_witness :
  ∃ mid,
    copy_pixels (mkMat 1 2 3 CV_8U [[10; 20; 30]; [40; 50; 60]])
                (zeros_like (mkMat 1 2 3 CV_8U [[10; 20; 30]; [40; 50; 60]]))
                [mkPoint 0 0; mkPoint 1 0] (2 * 1) (golden_offset (2 * 1)) true
                3 CV_8U = Some mid ∧
    copy_pixels mid (zeros_like mid) [mkPoint 0 0; mkPoint 1 0] (2 * 1)
                (golden_offset (2 * 1)) (negb true) 3 CV_8U
    = Some (mkMat 1 2 3 CV_8U [[10; 20; 30]; [40; 50; 60]]).
Proof.
  apply (scramble_unscramble_identity
           (mkMat 1 2 3 CV_8U [[10; 20; 30]; [40; 50; 60]])
           [mkPoint 0 0; mkPoint 1 0] true).
  - cbn. lia.
  - cbn. lia.
  - cbn. lia.
  - unfold wf_mat. cbn. lia.
  - unfold supported. cbn. auto.
  - exact valid_curve_2x1.
Defined.

Lemma mat_at_cell m p :
  in_image (cols m) (rows m) p →
  mat_at m (pt_y p) (pt_x p) = data m !! cell_index m p.
Proof. intros Hp. unfold mat_at. by rewrite mat_index_in. Qed.

(** C4: in iteration [i] of the loop, [0 <= i < total = curve.size()], with
    [total] in the range of [int] and the sums [i + offset] in the range of
    [int64_t], the whole pixel (all its channel values) at [curve[i]] of the source is
    stored at [curve[(i + offset) mod total]] of the destination when
    scrambling, and the pixel at [curve[(i + offset) mod total]] of the
    source at [curve[i]] of the destination when unscrambling; the shape and
    depth of the destination stay as they are, and the pixel is still there
    when the loop has finished. *)
Theorem copy_pixel_moves (src_img dst_img : Mat) (curve : list Point)
    (total offset i : Z) (is_encrypt : bool) :
  wf_mat src_img → supported (channels src_img) (depth src_img) →
  valid_curve (cols src_img) (rows src_img) curve →
  total = Z.of_nat (length curve) → total <= 2147483647 →
  0 <= offset → offset + (total - 1) <= 9223372036854775807 →
  0 <= i < total →
  wf_mat dst_img → same_shape src_img dst_img →
  ∃ src_p dest_p pixel dst' out,
    get_indices offset total i is_encrypt =
      (if is_encrypt then (i, (i + offset) mod total)
       else ((i + offset) mod total, i)) ∧
    curve_at curve (if is_encrypt then i else (i + offset) mod total) = Some src_p ∧
    curve_at curve (if is_encrypt then (i + offset) mod total else i) = Some dest_p ∧
    mat_at src_img (pt_y src_p) (pt_x src_p) = Some pixel ∧
    copy_pixel src_img dst_img curve total offset is_encrypt
               (channels src_img) (depth src_img) i = Some dst' ∧
    mat_at dst' (pt_y dest_p) (pt_x dest_p) = Some pixel ∧
    same_shape dst_img dst' ∧
    copy_pixels src_img dst_img curve total offset is_encrypt
                (channels src_img) (depth src_img) = Some out ∧
    mat_at out (pt_y dest_p) (pt_x dest_p) = Some pixel.
Proof.
  intros Hsrc Hsup Hcurve Hlen Hint32 Hoff Hoff64 Hi Hdst Hsh.
  assert (total = cols src_img * rows src_img) as Htot.
  { destruct Hcurve as (Hl & _). lia. }
  destruct (curve_cell src_img curve total Hcurve Htot
              (src_index offset total is_encrypt i)) as (ps & Hps & Hpsin).
  { apply src_of_range; done. }
  destruct (curve_cell src_img curve total Hcurve Htot
              (dest_index offset total is_encrypt i)) as (pd & Hpd & Hpdin).
  { apply dest_of_range; done. }
  destruct (assign_pixel_spec src_img dst_img ps pd Hsrc Hdst Hsh Hpsin Hpdin)
    as (v & d1 & Hassign & Hv & Hd1 & Hsh1 & Hdata1).
  destruct (copy_pixels_spec src_img curve total offset _ _ is_encrypt
              Hsup Hsrc Hcurve Htot Hoff Hint32 Hoff64 dst_img Hdst Hsh)
    as (out & Hrun & Hout & Hsho & Hcopied).
  assert (in_image (cols d1) (rows d1) pd) as Hpd1.
  { destruct Hsh1 as (<- & <- & _). done. }
  assert (in_image (cols out) (rows out) pd) as Hpdo.
  { destruct Hsho as (<- & <- & _). done. }
  assert (cell_index d1 pd = cell_index src_img pd) as Ec1.
  { unfold cell_index. destruct Hsh1 as (_ & <- & _). done. }
  assert (cell_index out pd = cell_index src_img pd) as Eco.
  { unfold cell_index. destruct Hsho as (_ & <- & _). done. }
  exists ps, pd, v, d1, out.
  split. { rewrite get_indices_shift by done. reflexivity. }
  split. { revert Hps. unfold src_index, shift. by destruct is_encrypt. }
  split. { revert Hpd. unfold dest_index, shift. by destruct is_encrypt. }
  split; [exact Hv|]. split.
  { rewrite copy_pixel_supported by done.
    rewrite (get_indices_of total offset is_encrypt Hoff Hint32 Hoff64 i Hi).
    cbn [fst snd].
    rewrite Hps, Hpd. exact Hassign. }
  split.
  { rewrite mat_at_cell, Ec1, Hdata1 by done. apply list_lookup_insert_eq.
    eapply mat_index_lt; [exact Hdst|].
    rewrite <- (mat_index_shape _ _ _ _ Hsh). by apply mat_index_in. }
  split. { eapply same_shape_trans; [apply same_shape_sym, Hsh|exact Hsh1]. }
  split; [exact Hrun|].
  rewrite mat_at_cell, Eco by done. rewrite (Hcopied i ps pd Hi Hps Hpd).
  rewrite <- mat_at_cell by done. exact Hv.
Qed.

Lemma copy_pixel_moves_witness :
  ∃ src_p dest_p pixel dst' out,
    get_indices 1 2 0 true = (if true then (0, (0 + 1) mod 2) else ((0 + 1) mod 2, 0)) ∧
    curve_at [mkPoint 0 0; mkPoint 1 0] (if true then 0 else (0 + 1) mod 2) = Some src_p ∧
    curve_at [mkPoint 0 0; mkPoint 1 0] (if true then (0 + 1) mod 2 else 0) = Some dest_p ∧
    mat_at (mkMat 1 2 1 CV_16U [[7]; [9]]) (pt_y src_p) (pt_x src_p) = Some pixel ∧
    copy_pixel (mkMat 1 2 1 CV_16U [[7]; [9]]) (mkMat 1 2 1 CV_16U [[0]; [0]])
               [mkPoint 0 0; mkPoint 1 0] 2 1 true 1 CV_16U 0 = Some dst' ∧
    mat_at dst' (pt_y dest_p) (pt_x dest_p) = Some pixel ∧
    same_shape (mkMat 1 2 1 CV_16U [[0]; [0]]) dst' ∧
    copy_pixels (mkMat 1 2 1 CV_16U [[7]; [9]]) (mkMat 1 2 1 CV_16U [[0]; [0]])
                [mkPoint 0 0; mkPoint 1 0] 2 1 true 1 CV_16U = Some out ∧
    mat_at out (pt_y dest_p) (pt_x dest_p) = Some pixel.
Proof.
  apply (copy_pixel_moves (mkMat 1 2 1 CV_16U [[7]; [9]])
           (mkMat 1 2 1 CV_16U [[0]; [0]]) [mkPoint 0 0; mkPoint 1 0] 2 1 0 true).
  - unfold wf_mat. cbn. lia.
  - unfold supported. cbn. auto.
  - exact valid_curve_2x1.
  - reflexivity.
  - lia.
  - lia.
  - lia.
  - lia.
  - unfold wf_mat. cbn. lia.
  - unfold same_shape. cbn. auto.
Defined.

(** *** The index mapping is a bijection *)

Lemma shift_permutation offset total :
  0 < total → shift offset total <$> seqZ 0 total ≡ₚ seqZ 0 total.
Proof.
  intros Ht. apply NoDup_Permutation.
  - apply NoDup_fmap_2_strong; [|apply NoDup_seqZ].
    intros i j Hi Hj. apply elem_of_seqZ in Hi, Hj. apply shift_inj; lia.
  - apply NoDup_seqZ.
  - intros j. rewrite list_elem_of_fmap, elem_of_seqZ. split.
    + intros (i & -> & _). pose proof (shift_range offset total i Ht). lia.
    + intros Hj. destruct (shift_surj offset total j) as (i & Hi & <-); [lia|].
      exists i. split; [done|]. apply elem_of_seqZ. lia.
Qed.

Lemma curve_at_seqZ curve :
  curve_at curve <$> seqZ 0 (Z.of_nat (length curve)) = Some <$> curve.
Proof.
  apply list_eq. intros k. rewrite !list_lookup_fmap.
  destruct (decide (k < length curve)%nat) as [Hk|Hk].
  - rewrite lookup_seqZ_lt by lia. cbn. unfold curve_at.
    destruct (Z.leb_spec 0 (0 + Z.of_nat k)); [|lia].
    replace (Z.to_nat (0 + Z.of_nat k)) with k by lia.
    apply lookup_lt_is_Some in Hk as [p Hp]. by rewrite Hp.
  - rewrite lookup_seqZ_ge by lia. rewrite lookup_ge_None_2 by lia. done.
Qed.

(** The destination index of some iteration is any given index. *)
Lemma dest_index_surj offset total is_encrypt idx :
  0 <= idx < total →
  ∃ i, 0 <= i < total ∧ dest_index offset total is_encrypt i = idx.
Proof.
  intros Hidx. unfold dest_index. destruct is_encrypt.
  - by apply shift_surj.
  - by exists idx.
Qed.

(** C9, as the code has it: for a curve of length [total],
    [1 <= total <= INT_MAX], a
    non-negative offset whose sums [i + offset] with the loop indices fit in
    an [int64_t], and either direction, both indices of every iteration [i]
    in [[0, total)] lie in [[0, total)], so both accesses to the curve are in
    bounds; the destination indices of the loop are a rearrangement of
    [0 .. total-1], the destination cells a rearrangement of the curve, and
    when the curve has no duplicates each of its cells is written exactly
    once.  For images of a supported format and a curve of the image,
    [copy_pixels] finishes without an access out of bounds, and every cell
    of the destination, whatever it held, is the destination of exactly one
    iteration and holds the source pixel of that iteration at the end. *)
Theorem copy_indices_in_bounds (src_img dst_img : Mat) (curve : list Point)
    (total offset : Z) (is_encrypt : bool) :
  total = Z.of_nat (length curve) → 1 <= total → total <= 2147483647 →
  0 <= offset → offset + (total - 1) <= 9223372036854775807 →
  (∀ i, 0 <= i < total →
     0 <= (get_indices offset total i is_encrypt).1 < total ∧
     0 <= (get_indices offset total i is_encrypt).2 < total ∧
     is_Some (curve_at curve (get_indices offset total i is_encrypt).1) ∧
     is_Some (curve_at curve (get_indices offset total i is_encrypt).2)) ∧
  (fun i => (get_indices offset total i is_encrypt).2) <$> seqZ 0 total
    ≡ₚ seqZ 0 total ∧
  (fun i => curve_at curve (get_indices offset total i is_encrypt).2) <$> seqZ 0 total
    ≡ₚ Some <$> curve ∧
  (NoDup curve → ∀ p, p ∈ curve →
     length (filter (fun d => d = Some p)
               ((fun i => curve_at curve (get_indices offset total i is_encrypt).2)
                  <$> seqZ 0 total)) = 1%nat) ∧
  (wf_mat src_img → supported (channels src_img) (depth src_img) →
   valid_curve (cols src_img) (rows src_img) curve →
   wf_mat dst_img → same_shape src_img dst_img →
   ∃ out,
     copy_pixels src_img dst_img curve total offset is_encrypt
                 (channels src_img) (depth src_img) = Some out ∧
     ∀ p, in_image (cols src_img) (rows src_img) p →
       ∃ i src_p,
         0 <= i < total ∧
         curve_at curve (get_indices offset total i is_encrypt).1 = Some src_p ∧
         curve_at curve (get_indices offset total i is_encrypt).2 = Some p ∧
         (∀ j, 0 <= j < total →
            curve_at curve (get_indices offset total j is_encrypt).2 = Some p →
            j = i) ∧
         is_Some (mat_at out (pt_y p) (pt_x p)) ∧
         mat_at out (pt_y p) (pt_x p) =
         mat_at src_img (pt_y src_p) (pt_x src_p)).
Proof.
  intros Hlen Htot Hint32 Hoff Hoff64.
  assert ((fun i => (get_indices offset total i is_encrypt).2) <$> seqZ 0 total
          ≡ₚ seqZ 0 total) as Hperm.
  { destruct is_encrypt.
    - rewrite (list_fmap_ext _ (shift offset total) (seqZ 0 total));
        [apply shift_permutation; lia|].
      intros k i Hi. apply list_elem_of_lookup_2, elem_of_seqZ in Hi.
      by rewrite get_indices_shift by lia.
    - rewrite (list_fmap_ext _ id (seqZ 0 total)); [by rewrite list_fmap_id|].
      intros k i Hi. apply list_elem_of_lookup_2, elem_of_seqZ in Hi.
      by rewrite get_indices_shift by lia. }
  assert ((fun i => curve_at curve (get_indices offset total i is_encrypt).2)
            <$> seqZ 0 total ≡ₚ Some <$> curve) as Hcells.
  { transitivity (curve_at curve <$>
       ((fun i => (get_indices offset total i is_encrypt).2) <$> seqZ 0 total)).
    - by rewrite <- list_fmap_compose.
    - rewrite Hperm, Hlen. by rewrite curve_at_seqZ. }
  split; [|split; [exact Hperm|split; [exact Hcells|split]]].
  - intros i Hi. rewrite get_indices_shift by lia.
    pose proof (shift_range offset total i ltac:(lia)) as Hs.
    destruct is_encrypt; cbn [fst snd];
      (split; [lia|split; [lia|split; apply curve_at_lt; lia]]).
  - intros Hnd p Hp. rewrite Hcells. apply filter_eq_once.
    + apply (NoDup_fmap_2 Some), Hnd.
    + apply list_elem_of_fmap. by exists p.
  - intros Hsrc Hsup Hcurve Hdst Hsh.
    assert (total = cols src_img * rows src_img) as Htot'.
    { destruct Hcurve as (Hl & _). lia. }
    destruct (copy_pixels_spec src_img curve total offset _ _ is_encrypt
                Hsup Hsrc Hcurve Htot' Hoff Hint32 Hoff64 dst_img Hdst Hsh)
      as (out & Hrun & Hout & Hsho & Hcopied).
    exists out. split; [exact Hrun|]. intros p Hp.
    pose proof Hcurve as (Hl & Hnd & Hel).
    pose proof Hp as Hpc. apply Hel, list_elem_of_lookup in Hpc as [k Hk].
    assert (0 <= Z.of_nat k < total) as Hkr.
    { apply lookup_lt_Some in Hk. lia. }
    assert (curve_at curve (Z.of_nat k) = Some p) as Hat.
    { unfold curve_at. destruct (Z.leb_spec 0 (Z.of_nat k)); [|lia].
      by rewrite Nat2Z.id. }
    destruct (dest_index_surj offset total is_encrypt (Z.of_nat k) Hkr)
      as (i & Hi & Hdest).
    destruct (curve_cell src_img curve total Hcurve Htot'
                (src_index offset total is_encrypt i)) as (ps & Hps & Hpsin).
    { apply src_of_range; done. }
    exists i, ps.
    rewrite (get_indices_of total offset is_encrypt Hoff Hint32 Hoff64 i Hi).
    cbn [fst snd]. rewrite Hdest.
    split; [done|]. split; [done|]. split; [done|]. split.
    { intros j Hj.
      rewrite (get_indices_of total offset is_encrypt Hoff Hint32 Hoff64 j Hj).
      cbn [fst snd]. intros Hpj.
      apply (dest_of_inj total offset is_encrypt); [done|done|].
      rewrite Hdest. by apply (curve_at_inj curve _ _ p Hnd). }
    assert (in_image (cols out) (rows out) p) as Hpo.
    { destruct Hsho as (<- & <- & _). done. }
    assert (cell_index out p = cell_index src_img p) as Eco.
    { unfold cell_index. destruct Hsho as (_ & <- & _). done. }
    assert (mat_at out (pt_y p) (pt_x p) = mat_at src_img (pt_y ps) (pt_x ps)) as E.
    { rewrite !mat_at_cell by done. rewrite Eco. apply (Hcopied i ps p Hi Hps).
      by rewrite Hdest. }
    split; [|exact E]. rewrite E, mat_at_cell by done.
    apply lookup_lt_is_Some. eapply mat_index_lt; [exact Hsrc|].
    by apply mat_index_in.
Qed.

Lemma valid_curve_three_cells : valid_curve 3 1 three_cells.
Proof.
  split; [reflexivity|]. split.
  - unfold three_cells. repeat (apply NoDup_cons; split); try apply NoDup_nil_2;
      rewrite ?elem_of_cons, ?elem_of_nil; intros H;
      repeat (destruct H as [H|H]; try discriminate H); done.
  - intros [x y]. unfold in_image, three_cells. cbn [pt_x pt_y].
    rewrite !elem_of_cons, elem_of_nil. split.
    + intros [[= -> ->]|[[= -> ->]|[[= -> ->]|[]]]]; lia.
    + intros [Hx Hy]. assert (y = 0) as -> by lia.
      destruct (decide (x = 0)) as [->|]; [by left|].
      destruct (decide (x = 1)) as [->|]; [right; by left|].
      assert (x = 2) as -> by lia. right. right. by left.
Qed.

Lemma copy_indices_in_bounds_witness :
  (∀ i, 0 <= i < 3 →
     0 <= (get_indices 2 3 i true).1 < 3 ∧
     0 <= (get_indices 2 3 i true).2 < 3 ∧
     is_Some (curve_at three_cells (get_indices 2 3 i true).1) ∧
     is_Some (curve_at three_cells (get_indices 2 3 i true).2)) ∧
  (fun i => (get_indices 2 3 i true).2) <$> seqZ 0 3 ≡ₚ seqZ 0 3 ∧
  (fun i => curve_at three_cells (get_indices 2 3 i true).2) <$> seqZ 0 3
    ≡ₚ Some <$> three_cells ∧
  (∀ p, p ∈ three_cells →
     length (filter (fun d => d = Some p)
               ((fun i => curve_at three_cells (get_indices 2 3 i true).2)
                  <$> seqZ 0 3)) = 1%nat) ∧
  (∃ out,
     copy_pixels (mkMat 1 3 1 CV_8U [[7]; [8]; [9]]) (mkMat 1 3 1 CV_8U [[1]; [1]; [1]])
                 three_cells 3 2 true 1 CV_8U = Some out ∧
     ∀ p, in_image 3 1 p →
       ∃ i src_p,
         0 <= i < 3 ∧
         curve_at three_cells (get_indices 2 3 i true).1 = Some src_p ∧
         curve_at three_cells (get_indices 2 3 i true).2 = Some p ∧
         (∀ j, 0 <= j < 3 →
            curve_at three_cells (get_indices 2 3 j true).2 = Some p → j = i) ∧
         is_Some (mat_at out (pt_y p) (pt_x p)) ∧
         mat_at out (pt_y p) (pt_x p) =
         mat_at (mkMat 1 3 1 CV_8U [[7]; [8]; [9]]) (pt_y src_p) (pt_x src_p)).
Proof.
  destruct (copy_indices_in_bounds (mkMat 1 3 1 CV_8U [[7]; [8]; [9]])
              (mkMat 1 3 1 CV_8U [[1]; [1]; [1]]) three_cells 3 2 true)
    as (Hidx & Hperm & Hcells & Honce & Hcopy).
  - reflexivity.
  - lia.
  - lia.
  - lia.
  - lia.
  - split; [exact Hidx|]. split; [exact Hperm|]. split; [exact Hcells|]. split.
    + apply Honce. apply valid_curve_three_cells.
    + apply Hcopy.
      * unfold wf_mat. cbn. lia.
      * unfold supported. cbn. auto.
      * exact valid_curve_three_cells.
      * unfold wf_mat. cbn. lia.
      * unfold same_shape. cbn. auto.
Defined.

(** C9 as stated fails for large offsets: with [total = 3] and the
    non-negative offset [INT64_MAX], the sum [1 + offset] of line 197 leaves
    the range of [int64_t]; on a machine that wraps it around, the
    destination index of iteration [1] is [-2], not in [[0, 3)], the curve
    is read out of bounds and the loop has no defined result. *)
Lemma copy_indices_out_of_bounds :
  3 = Z.of_nat (length three_cells) ∧ 1 <= 3 ∧ 0 <= 9223372036854775807 ∧
  0 <= 1 < 3 ∧
  get_indices 9223372036854775807 3 1 true = (1, -2) ∧
  ¬ (0 <= (get_indices 9223372036854775807 3 1 true).2 < 3) ∧
  curve_at three_cells (get_indices 9223372036854775807 3 1 true).2 = None ∧
  copy_pixels (mkMat 1 3 1 CV_8U [[7]; [8]; [9]]) (mkMat 1 3 1 CV_8U [[0]; [0]; [0]])
              three_cells 3 9223372036854775807 true 1 CV_8U = None.
Proof.
  split; [reflexivity|]. split; [lia|]. split; [lia|]. split; [lia|].
  assert (get_indices 9223372036854775807 3 1 true = (1, -2)) as E by reflexivity.
  split; [exact E|]. rewrite E. cbn [snd]. split; [lia|]. split; reflexivity.
Qed.

(** The [static_cast<int>] of line 198 changes an index above [INT_MAX]. *)
Example get_indices_truncates :
  get_indices 2147483648 4294967296 0 true = (0, -2147483648).
Proof. reflexivity. Qed.

(** C8: for [width = 2], [height = 1] the curve is [(0,0), (1,0)],
    [total = 2], the offset is [1], scrambling takes index [0] to index [1]
    and index [1] to index [0], and the two pixels of a buffer of a
    supported format are swapped. *)
Theorem two_by_one_swap (fuel : nat) (channels depth : Z) (p0 p1 : Pixel) :
  (1 <= fuel)%nat → supported channels depth →
  generate_mapping fuel 2 1 = Some ([], [mkPoint 0 0; mkPoint 1 0]) ∧
  golden_offset (2 * 1) = 1 ∧
  get_indices 1 2 0 true = (0, 1) ∧
  get_indices 1 2 1 true = (1, 0) ∧
  copy_pixels (mkMat 1 2 channels depth [p0; p1])
              (zeros_like (mkMat 1 2 channels depth [p0; p1]))
              [mkPoint 0 0; mkPoint 1 0] 2 (golden_offset 2) true channels depth
  = Some (mkMat 1 2 channels depth [p1; p0]).
Proof.
  intros Hfuel Hsup. split; [|split; [|split; [|split]]].
  - destruct fuel as [|fuel]; [lia|]. reflexivity.
  - vm_compute. reflexivity.
  - reflexivity.
  - reflexivity.
  - rewrite golden_offset_2.
    destruct Hsup as [[->|[->| ->]] [->| ->]]; reflexivity.
Qed.

Lemma two_by_one_swap_witness :
  generate_mapping 1 2 1 = Some ([], [mkPoint 0 0; mkPoint 1 0]) ∧
  golden_offset (2 * 1) = 1 ∧
  get_indices 1 2 0 true = (0, 1) ∧
  get_indices 1 2 1 true = (1, 0) ∧
  copy_pixels (mkMat 1 2 3 CV_8U [[1; 2; 3]; [4; 5; 6]])
              (zeros_like (mkMat 1 2 3 CV_8U [[1; 2; 3]; [4; 5; 6]]))
              [mkPoint 0 0; mkPoint 1 0] 2 (golden_offset 2) true 3 CV_8U
  = Some (mkMat 1 2 3 CV_8U [[4; 5; 6]; [1; 2; 3]]).
Proof.
  apply (two_by_one_swap 1 3 CV_8U [1; 2; 3] [4; 5; 6]).
  - lia.
  - unfold supported. cbn. auto.
Defined.

(** ** [process_image] *)

Lemma find_out_of_bounds width height curve :
  (∀ p, p ∈ curve → in_image width height p) →
  List.find (out_of_bounds width height) curve = None.
Proof.
  induction curve as [|p curve IH]; intros Hin; [done|]. cbn [List.find].
  destruct (Hin p) as [Hx Hy]; [left|].
  unfold out_of_bounds at 1.
  destruct (Z.ltb_spec (pt_x p) 0), (Z.geb_spec (pt_x p) width),
    (Z.ltb_spec (pt_y p) 0), (Z.geb_spec (pt_y p) height); try lia.
  cbn [orb]. apply IH. intros q Hq. apply Hin. by right.
Qed.

Lemma supported_checks channels depth :
  supported channels depth →
  negb (channels =? 1) && negb (channels =? 3) && negb (channels =? 4) = false ∧
  negb (depth =? CV_8U) && negb (depth =? CV_16U) = false.
Proof. intros [[->|[->| ->]] [->| ->]]; done. Qed.

(** C7: an image whose channel count is not 1, 3 or 4, or whose depth is
    neither [CV_8U] nor [CV_16U], is rejected by [process_image] with the
    unsupported-channels or unsupported-depth error before the curve is even
    generated; and a curve whose length is not [width * height] (the [int]
    product of line 323; the product itself where it fits in an [int]) is
    rejected by the checks that precede the copy.  All these errors are of
    the specification's kind [UnsupportedFormat], and no output is produced,
    whatever the state of the target file. *)
Theorem unsupported_rejected (fuel : nat) (target : Target) (img : Mat)
    (curve : list Point) (is_encrypt : bool) :
  (channels img ≠ 1 ∧ channels img ≠ 3 ∧ channels img ≠ 4 →
   process_image fuel target img is_encrypt
   = Some (Failed (UnsupportedChannels (channels img)))) ∧
  (depth img ≠ CV_8U ∧ depth img ≠ CV_16U →
   ∃ e, process_image fuel target img is_encrypt = Some (Failed e) ∧
        (e = UnsupportedChannels (channels img) ∨ e = UnsupportedDepth (depth img))) ∧
  (0 <= cols img * rows img <= 2147483647 →
   Z.of_nat (length curve) ≠ cols img * rows img →
   ∃ e, permute_image target img curve is_encrypt = Some (Failed e) ∧
        (e = NoCurve ∨
         e = CurveSizeMismatch (Z.of_nat (length curve)) (cols img * rows img))) ∧
  (Z.of_nat (length curve) ≠ wrap_int (cols img * rows img) →
   ∃ e, permute_image target img curve is_encrypt = Some (Failed e) ∧
        (e = NoCurve ∨
         e = CurveSizeMismatch (Z.of_nat (length curve))
                               (wrap_int (cols img * rows img)))) ∧
  image_error_kind (UnsupportedChannels (channels img)) = UnsupportedFormat ∧
  image_error_kind (UnsupportedDepth (depth img)) = UnsupportedFormat ∧
  image_error_kind NoCurve = UnsupportedFormat ∧
  (∀ total, image_error_kind (CurveSizeMismatch (Z.of_nat (length curve)) total)
            = UnsupportedFormat).
Proof.
  assert (Z.of_nat (length curve) ≠ wrap_int (cols img * rows img) →
   ∃ e, permute_image target img curve is_encrypt = Some (Failed e) ∧
        (e = NoCurve ∨
         e = CurveSizeMismatch (Z.of_nat (length curve))
                               (wrap_int (cols img * rows img)))) as Hwrapped.
  { intros Hlen. unfold permute_image.
    destruct (decide (curve = [])); [eauto|].
    destruct (Z.eqb_spec (Z.of_nat (length curve)) (wrap_int (cols img * rows img)));
      [done|].
    cbn [negb]. eauto. }
  split; [|split; [|split; [|split; [exact Hwrapped|done]]]].
  - intros (H1 & H3 & H4). unfold process_image.
    destruct (Z.eqb_spec (channels img) 1), (Z.eqb_spec (channels img) 3),
      (Z.eqb_spec (channels img) 4); try done.
  - intros (H8 & H16). unfold process_image.
    destruct (negb (channels img =? 1) && _ && _); [eauto|].
    destruct (Z.eqb_spec (depth img) CV_8U), (Z.eqb_spec (depth img) CV_16U);
      try done. cbn [negb andb]. eauto.
  - intros Hint32 Hlen. revert Hwrapped.
    rewrite wrap_int_id by (unfold int_range; lia). auto.
Qed.

Lemma unsupported_rejected_witness :
  process_image 0 (mkTarget true true) (mkMat 1 1 2 CV_8U [[1; 2]]) true
  = Some (Failed (UnsupportedChannels 2)) ∧
  (∃ e, process_image 0 (mkTarget true true) (mkMat 1 1 3 5 [[1; 2; 3]]) true
        = Some (Failed e) ∧
        (e = UnsupportedChannels 3 ∨ e = UnsupportedDepth 5)) ∧
  (∃ e, permute_image (mkTarget true true) (mkMat 1 2 1 CV_8U [[1]; [2]])
                      [mkPoint 0 0] true
        = Some (Failed e) ∧
        (e = NoCurve ∨ e = CurveSizeMismatch 1 2)) ∧
  (∃ e, permute_image (mkTarget true true) (mkMat 65536 65537 1 CV_8U [])
                      [mkPoint 0 0] true
        = Some (Failed e) ∧
        (e = NoCurve ∨ e = CurveSizeMismatch 1 65536)).
Proof.
  split; [|split; [|split]].
  - apply (unsupported_rejected 0 (mkTarget true true) (mkMat 1 1 2 CV_8U [[1; 2]])
             [] true).
    cbn. lia.
  - apply (unsupported_rejected 0 (mkTarget true true) (mkMat 1 1 3 5 [[1; 2; 3]])
             [] true).
    cbn. unfold CV_8U, CV_16U. lia.
  - apply (proj1 (proj2 (proj2
             (unsupported_rejected 0 (mkTarget true true)
                (mkMat 1 2 1 CV_8U [[1]; [2]]) [mkPoint 0 0] true)))).
    + cbn. lia.
    + cbn. lia.
  - apply (proj1 (proj2 (proj2 (proj2
             (unsupported_rejected 0 (mkTarget true true)
                (mkMat 65536 65537 1 CV_8U []) [mkPoint 0 0] true))))).
    vm_compute. discriminate.
Defined.

(** *** From [process_image] to the copy *)

Lemma process_image_supported fuel target img is_encrypt curve :
  supported (channels img) (depth img) →
  0 <= cols img * rows img <= 2147483647 →
  generate_mapping fuel (cols img) (rows img) = Some ([], curve) →
  process_image fuel target img is_encrypt
  = permute_image target img curve is_encrypt.
Proof.
  intros Hsup Hint32 Hgen. unfold process_image.
  destruct (supported_checks _ _ Hsup) as [-> ->].
  destruct (reserve_fits (cols img) (rows img) Hint32) as [-> _].
  rewrite andb_false_r, Hgen. reflexivity.
Qed.

Lemma permute_image_copy target img curve is_encrypt out :
  0 <= cols img * rows img <= 2147483647 →
  curve ≠ [] → Z.of_nat (length curve) = cols img * rows img →
  (∀ p, p ∈ curve → in_image (cols img) (rows img) p) →
  copy_pixels img (zeros_like img) curve (cols img * rows img)
              (golden_offset (cols img * rows img)) is_encrypt
              (channels img) (depth img) = Some out →
  permute_image target img curve is_encrypt
  = Some (if sum_is_zero out then Failed AllZeroOutput else save_image target out).
Proof.
  intros Hint32 Hne Hlen Hin Hrun. unfold permute_image.
  rewrite wrap_int_id by (unfold int_range; lia).
  rewrite decide_False by done. rewrite Hlen, Z.eqb_refl. cbn [negb].
  rewrite find_out_of_bounds by done. rewrite Hrun. cbn [mbind option_bind].
  by destruct (sum_is_zero out).
Qed.

(** *** The all-zero check *)

Lemma copy_loop_Forall (P : Pixel → Prop) src_img curve total offset is_encrypt
    channels depth indices : ∀ dst_img out,
  Forall P (data src_img) → Forall P (data dst_img) →
  copy_loop src_img dst_img curve total offset is_encrypt channels depth indices
  = Some out →
  Forall P (data out).
Proof.
  induction indices as [|i rest IH]; intros dst_img out Hs Hd; cbn [copy_loop].
  { by intros [= <-]. }
  destruct (copy_pixel _ _ _ _ _ _ _ _ i) as [d1|] eqn:Hstep; [|done].
  cbn [mbind option_bind]. apply IH; [done|].
  assert (∀ ps pd, assign_pixel src_img dst_img ps pd = Some d1 → Forall P (data d1))
    as Hassign.
  { intros ps pd. unfold assign_pixel, mat_at, mat_set.
    destruct (mat_index src_img _ _) as [qs|]; [|done]. cbn [mbind option_bind].
    destruct (data src_img !! qs) as [v|] eqn:Hv; [|done]. cbn [mbind option_bind].
    destruct (mat_index dst_img _ _) as [qd|]; [|done]. cbn [mbind option_bind].
    destruct (decide _); [|done]. intros [= <-]. cbn [data].
    apply Forall_insert; [done|].
    rewrite Forall_forall in Hs. apply Hs. by eapply list_elem_of_lookup_2. }
  revert Hstep. unfold copy_pixel. destruct (get_indices _ _ _ _) as [s d].
  destruct (curve_at curve s) as [ps|]; [|done].
  destruct (curve_at curve d) as [pd|]; [|done]. cbn [mbind option_bind].
  repeat match goal with
  | |- context [if ?c then _ else _] => destruct c
  end; try apply Hassign; by intros [= <-].
Qed.

Lemma channel_sum_zero m c : all_zero m → channel_sum m c = 0.
Proof.
  unfold all_zero, channel_sum. induction 1 as [|px l Hpx _ IH]; [done|].
  cbn [foldr]. rewrite IH, Z.add_0_r.
  destruct (nth_in_or_default c px 0) as [Hin|Hd]; [|done].
  rewrite Forall_forall in Hpx. apply Hpx. by apply list_elem_of_In.
Qed.

Lemma zeros_like_all_zero img : all_zero (zeros_like img).
Proof.
  unfold all_zero, zeros_like. cbn [data].
  apply Forall_replicate, Forall_replicate. done.
Qed.

(** C10: the check after the copy looks at the output image only: whenever
    the copied image has zero channel sums, [process_image] logs the
    all-zero error (the specification's [PermutationIntegrityError]) and
    writes no output, whatever the state of the target file.  So for an
    image of a supported format, with a pixel count in the range of [int],
    whose pixels are all zero: the curve is generated, the copy succeeds and
    gives an all-zero image again, and the call fails with that error. *)
Theorem zero_image_rejected (fuel : nat) (target : Target) (img : Mat)
    (is_encrypt : bool) :
  1 <= cols img → 1 <= rows img → cols img * rows img <= 2147483647 →
  cols img + rows img <= Z.of_nat fuel →
  wf_mat img → supported (channels img) (depth img) →
  (∀ curve out,
     generate_mapping fuel (cols img) (rows img) = Some ([], curve) →
     copy_pixels img (zeros_like img) curve (cols img * rows img)
                 (golden_offset (cols img * rows img)) is_encrypt
                 (channels img) (depth img) = Some out →
     sum_is_zero out = true →
     process_image fuel target img is_encrypt = Some (Failed AllZeroOutput)) ∧
  (all_zero img →
   process_image fuel target img is_encrypt = Some (Failed AllZeroOutput) ∧
   ∃ curve out,
     generate_mapping fuel (cols img) (rows img) = Some ([], curve) ∧
     copy_pixels img (zeros_like img) curve (cols img * rows img)
                 (golden_offset (cols img * rows img)) is_encrypt
                 (channels img) (depth img) = Some out ∧
     all_zero out ∧ sum_is_zero out = true) ∧
  image_error_kind AllZeroOutput = PermutationIntegrityError.
Proof.
  intros Hc Hr Hint32 Hfuel Hwf Hsup.
  destruct (generate_mapping_valid_curve fuel (cols img) (rows img) Hc Hr Hint32 Hfuel)
    as (curve & Hgen & Hcurve).
  assert (0 <= cols img * rows img <= 2147483647) as Hrange by nia.
  assert (∀ out,
     copy_pixels img (zeros_like img) curve (cols img * rows img)
                 (golden_offset (cols img * rows img)) is_encrypt
                 (channels img) (depth img) = Some out →
     sum_is_zero out = true →
     process_image fuel target img is_encrypt = Some (Failed AllZeroOutput)) as Hcheck.
  { intros out Hrun Hsum.
    rewrite (process_image_supported _ _ _ _ curve Hsup Hrange Hgen).
    destruct Hcurve as (Hlen & Hnd & Hel).
    rewrite (permute_image_copy target img curve is_encrypt out Hrange); try done.
    - by rewrite Hsum.
    - intros ->. cbn in Hlen. nia.
    - intros p Hp. by apply Hel. }
  split; [|split; [|done]].
  - intros curve' out Hgen'. rewrite Hgen in Hgen'. injection Hgen' as <-.
    apply Hcheck.
  - intros Hzero.
    destruct (zeros_like_wf img) as [Hz Hsz]; [lia|lia|].
    destruct (golden_offset_fits (cols img * rows img)) as [Hoff Hoff64]; [nia|lia|].
    destruct (copy_pixels_spec img curve (cols img * rows img)
                (golden_offset (cols img * rows img)) _ _ is_encrypt
                Hsup Hwf Hcurve eq_refl Hoff Hint32 Hoff64 (zeros_like img) Hz Hsz)
      as (out & Hrun & _).
    assert (all_zero out) as Hout.
    { pose proof Hrun as Hloop. unfold copy_pixels in Hloop.
      destruct (INT_MAX <? cols img * rows img); [done|].
      eapply (copy_loop_Forall _ _ _ _ _ _ _ _ _ _ _ Hzero (zeros_like_all_zero img) Hloop). }
    assert (sum_is_zero out = true) as Hsum.
    { unfold sum_is_zero. by rewrite !channel_sum_zero. }
    split; [by apply (Hcheck out)|by exists curve, out].
Qed.

Lemma zero_image_rejected_witness :
  process_image 5 (mkTarget true true) (mkMat 2 3 3 CV_8U (replicate 6 [0; 0; 0])) true
  = Some (Failed AllZeroOutput) ∧
  ∃ curve out,
    generate_mapping 5 3 2 = Some ([], curve) ∧
    copy_pixels (mkMat 2 3 3 CV_8U (replicate 6 [0; 0; 0]))
                (zeros_like (mkMat 2 3 3 CV_8U (replicate 6 [0; 0; 0]))) curve (3 * 2)
                (golden_offset (3 * 2)) true 3 CV_8U = Some out ∧
    all_zero out ∧ sum_is_zero out = true.
Proof.
  apply (zero_image_rejected 5 (mkTarget true true)
           (mkMat 2 3 3 CV_8U (replicate 6 [0; 0; 0])) true).
  - cbn. lia.
  - cbn. lia.
  - cbn. lia.
  - cbn. lia.
  - unfold wf_mat. cbn. lia.
  - unfold supported. cbn. auto.
  - unfold all_zero. cbn. repeat constructor.
Defined.

(** The 3 x 3 scenario of the specification: [total = 9], offset [6],
    distinct pixel values, scramble and unscramble through [process_image]. *)
Example process_image_3x3 :
  process_image 6 (mkTarget true true)
    (mkMat 3 3 1 CV_8U [[1]; [2]; [3]; [4]; [5]; [6]; [7]; [8]; [9]]) true
  = Some (Written (mkMat 3 3 1 CV_8U [[8]; [4]; [7]; [9]; [1]; [3]; [6]; [5]; [2]])) ∧
  process_image 6 (mkTarget true true)
    (mkMat 3 3 1 CV_8U [[8]; [4]; [7]; [9]; [1]; [3]; [6]; [5]; [2]]) false
  = Some (Written (mkMat 3 3 1 CV_8U [[1]; [2]; [3]; [4]; [5]; [6]; [7]; [8]; [9]])) ∧
  process_image 6 (mkTarget false true)
    (mkMat 3 3 1 CV_8U [[1]; [2]; [3]; [4]; [5]; [6]; [7]; [8]; [9]]) true
  = Some (Failed NotWritable) ∧
  process_image 6 (mkTarget true false)
    (mkMat 3 3 1 CV_8U [[1]; [2]; [3]; [4]; [5]; [6]; [7]; [8]; [9]]) true
  = Some (Failed SaveFailed) ∧
  process_image 0 (mkTarget true true) (mkMat 46341 46341 1 CV_8U []) true
  = Some (Failed LengthError).
Proof. repeat split; vm_compute; reflexivity. Qed.

(** *** Scramble and unscramble through [process_image] *)

Lemma nth_nonneg c px : Forall (fun v => 0 <= v) px → 0 <= nth c px 0.
Proof.
  intros Hpx. destruct (nth_in_or_default c px 0) as [Hin|Hd]; [|lia].
  rewrite Forall_forall in Hpx. apply Hpx. by apply list_elem_of_In.
Qed.

Lemma channel_sum_zero_iff m c :
  nonneg_pixels m →
  channel_sum m c = 0 ↔ Forall (fun px => nth c px 0 = 0) (data m).
Proof.
  unfold nonneg_pixels, channel_sum. induction 1 as [|px l Hpx Hl IH]; cbn [foldr].
  { split; [constructor|done]. }
  assert (0 <= foldr (fun px s => nth c px 0 + s) 0 l) as Hs.
  { clear IH. induction Hl as [|px' l' Hpx' _ IH']; cbn [foldr]; [lia|].
    pose proof (nth_nonneg c px' Hpx'). lia. }
  pose proof (nth_nonneg c px Hpx) as Hn. rewrite Forall_cons, <- IH. lia.
Qed.

Lemma sum_is_zero_iff m :
  nonneg_pixels m → sum_is_zero m = true ↔ Forall zero_pixel (data m).
Proof.
  intros Hm. unfold sum_is_zero. rewrite !andb_true_iff, !Z.eqb_eq.
  rewrite !channel_sum_zero_iff by done. unfold zero_pixel.
  rewrite !Forall_forall. split.
  - intros (((H0 & H1) & H2) & H3) px Hpx. auto.
  - intros Hall. repeat split; intros px Hpx; apply (Hall px Hpx).
Qed.

Lemma zeros_like_zero_pixel img : Forall zero_pixel (data (zeros_like img)).
Proof.
  unfold zeros_like. cbn [data]. apply Forall_replicate.
  assert (∀ c n, nth c (replicate n 0) 0 = 0) as Hnth.
  { intros c n. revert c. induction n as [|n IH]; intros [|c]; cbn; auto. }
  unfold zero_pixel. by rewrite !Hnth.
Qed.

Lemma zeros_like_nonneg img : nonneg_pixels (zeros_like img).
Proof.
  unfold nonneg_pixels, zeros_like. cbn [data].
  apply Forall_replicate, Forall_replicate. lia.
Qed.

(** X14: for an image of a supported format with a non-zero channel sum and
    a pixel count in the range of [int], [process_image] computes an image
    [mid] and hands it to the saving step; run in the other direction on an
    image equal to [mid], it computes the original image and hands it to the
    saving step.  What the saving step does with it depends on the target
    file: [save_image].  With writable targets and successful [imwrite]s the
    first call saves [mid] and the second call, given [mid], saves the
    original.  Whether the image decoded from the saved file equals [mid] is
    a matter of the file format. *)
Lemma process_image_roundtrip (fuel : nat) (img : Mat) (is_encrypt : bool) :
  1 <= cols img → 1 <= rows img → cols img * rows img <= 2147483647 →
  cols img + rows img <= Z.of_nat fuel →
  wf_mat img → supported (channels img) (depth img) →
  nonneg_pixels img → sum_is_zero img = false →
  ∃ mid,
    (∀ target, process_image fuel target img is_encrypt
               = Some (save_image target mid)) ∧
    (∀ target, process_image fuel target mid (negb is_encrypt)
               = Some (save_image target img)) ∧
    (∀ target, writable target = true → imwrite_ok target = true →
               process_image fuel target img is_encrypt = Some (Written mid) ∧
               process_image fuel target mid (negb is_encrypt) = Some (Written img)).
Proof.
  intros Hc Hr Hint32 Hfuel Hwf Hsup Hnn Hsum.
  destruct (generate_mapping_valid_curve fuel (cols img) (rows img) Hc Hr Hint32 Hfuel)
    as (curve & Hgen & Hcurve).
  assert (0 <= cols img * rows img <= 2147483647) as Hrange by nia.
  destruct (zeros_like_wf img) as [Hz Hsz]; [lia|lia|].
  destruct (golden_offset_fits (cols img * rows img)) as [Hoff Hoff64]; [nia|lia|].
  destruct (copy_pixels_spec img curve _ _ _ _ is_encrypt Hsup Hwf Hcurve eq_refl Hoff
              Hint32 Hoff64 (zeros_like img) Hz Hsz) as (mid & Hrun & Hmid & Hsm & _).
  pose proof Hsm as (Er & Ec & Ech & Ed).
  destruct (zeros_like_wf mid) as [Hz' Hsz']; [lia|lia|].
  destruct (copy_pixels_inverse img (zeros_like img) (zeros_like mid) curve
              (golden_offset (cols img * rows img)) is_encrypt
              Hwf Hsup Hcurve Hoff Hint32 Hoff64 Hz Hsz Hz'
              (same_shape_trans _ _ _ Hsm Hsz'))
    as (mid' & Hrun' & Hback).
  rewrite Hrun in Hrun'. injection Hrun' as <-. clear Hsm.
  assert (∀ src dst enc out, 
            copy_pixels src dst curve (cols img * rows img)
              (golden_offset (cols img * rows img)) enc (channels img) (depth img)
            = Some out →
            copy_loop src dst curve (cols img * rows img)
              (golden_offset (cols img * rows img)) enc (channels img) (depth img)
              (seqZ 0 (cols img * rows img)) = Some out) as Hloop.
  { intros src dst enc out. unfold copy_pixels.
    by destruct (INT_MAX <? cols img * rows img). }
  assert (nonneg_pixels mid) as Hnnm.
  { eapply (copy_loop_Forall _ _ _ _ _ _ _ _ _ _ _ Hnn (zeros_like_nonneg img)
              (Hloop _ _ _ _ Hrun)). }
  assert (sum_is_zero mid = false) as Hsumm.
  { destruct (sum_is_zero mid) eqn:E; [|done]. rewrite <- Hsum. symmetry.
    apply sum_is_zero_iff; [done|]. apply sum_is_zero_iff in E; [|done].
    eapply (copy_loop_Forall _ _ _ _ _ _ _ _ _ _ _ E (zeros_like_zero_pixel mid)
              (Hloop _ _ _ _ Hback)). }
  assert (curve ≠ []) as Hne.
  { destruct Hcurve as (Hlen & _). intros ->. cbn in Hlen. nia. }
  assert (∀ p, p ∈ curve → in_image (cols img) (rows img) p) as Hin.
  { destruct Hcurve as (_ & _ & Hel). intros p. apply Hel. }
  assert (Z.of_nat (length curve) = cols img * rows img) as Hlen.
  { by destruct Hcurve as (? & _). }
  assert (∀ target, process_image fuel target img is_encrypt
                    = Some (save_image target mid)) as Hfirst.
  { intros target.
    rewrite (process_image_supported _ _ _ _ curve Hsup Hrange Hgen).
    rewrite (permute_image_copy target img curve is_encrypt mid Hrange Hne Hlen Hin Hrun).
    by rewrite Hsumm. }
  assert (∀ target, process_image fuel target mid (negb is_encrypt)
                    = Some (save_image target img)) as Hsecond.
  { intros target.
    rewrite (process_image_supported _ _ _ _ curve).
    - rewrite (permute_image_copy target mid curve (negb is_encrypt) img).
      + by rewrite Hsum.
      + by rewrite <- Ec, <- Er.
      + done.
      + by rewrite <- Ec, <- Er.
      + by rewrite <- Ec, <- Er.
      + by rewrite <- Ec, <- Er, <- Ech, <- Ed.
    - by rewrite <- Ech, <- Ed.
    - by rewrite <- Ec, <- Er.
    - by rewrite <- Ec, <- Er. }
  exists mid. split; [exact Hfirst|]. split; [exact Hsecond|].
  intros target Hw Hi. rewrite Hfirst, Hsecond. unfold save_image.
  by rewrite Hw, Hi.
Qed.
(** ** More about the curve generator *)

(** Whatever the recursion bound, a finished call has appended an
    enumeration of its rectangle. *)
Lemma run2d_Some_enumerates fuel r coordinates c :
  aligned r → run2d fuel r coordinates = Some c →
  ∃ out, c = coordinates ++ out ∧ enumerates out r.
Proof.
  intros Hal Hrun.
  set (big := (fuel + Z.to_nat (primary_len r + ortho_len r))%nat).
  destruct (run2d_enumerates big r coordinates Hal) as (out & Hbig & Hen).
  { unfold big. pose proof (aligned_len r Hal). lia. }
  apply (run2d_mono fuel big) in Hrun; [|unfold big; lia].
  rewrite Hrun in Hbig. injection Hbig as ->. by exists out.
Qed.

(** X1: the four outcomes of [generate_mapping], for sides of at most
    715827882 pixels (where the generator's own arithmetic stays in the
    range of [int]), a sufficient recursion bound and enough memory.  A size
    with a side below 1 is rejected with the empty vector.  When the [int]
    product [width * height] of line 155 is negative, [reserve] throws and
    nothing is returned.  When the product fits in an [int], the count check
    of lines 170-177 passes and a curve of the image is returned.  When the
    product is too large for an [int] but wraps to a non-negative number,
    all the cells are generated, the count check fails and the empty vector
    is returned. *)
Theorem generate_mapping_outcomes (fuel : nat) (width height : Z) :
  width <= 715827882 → height <= 715827882 →
  (1 <= width → 1 <= height → width + height <= Z.of_nat fuel) →
  ((width <= 0 ∨ height <= 0) ∧
   generate_mapping fuel width height = Some ([InvalidSize width height], [])) ∨
  (1 <= width ∧ 1 <= height ∧ wrap_int (width * height) < 0 ∧
   reserve_throws width height = true ∧
   generate_mapping fuel width height = None) ∨
  (1 <= width ∧ 1 <= height ∧ width * height <= 2147483647 ∧
   ∃ curve, generate_mapping fuel width height = Some ([], curve) ∧
            valid_curve width height curve) ∨
  (1 <= width ∧ 1 <= height ∧ 2147483647 < width * height ∧
   0 <= wrap_int (width * height) ∧
   generate_mapping fuel width height
   = Some ([CountMismatch (width * height) (wrap_int (width * height))], [])).
Proof.
  intros _ _ Hfuel. rewrite generate_mapping_start.
  destruct (Z.leb_spec width 0) as [Hw|Hw]; cbn [orb]; [left; auto|].
  destruct (Z.leb_spec height 0) as [Hh|Hh]; [left; auto|]. right.
  destruct (reserve_throws width height) eqn:Hres.
  { left. unfold reserve_throws in Hres. apply Z.ltb_lt in Hres.
    repeat split; try done; lia. }
  right. unfold reserve_throws in Hres. apply Z.ltb_ge in Hres.
  destruct (start_rect_aligned width height) as (Hal & Harea & Hsum & Hin); [lia|lia|].
  specialize (Hfuel ltac:(lia) ltac:(lia)).
  destruct (run2d_enumerates fuel (start_rect width height) [] Hal)
    as (curve & Hrun & Hlen & Hnd & Hel); [lia|].
  rewrite Hrun. cbn [app mbind option_bind].
  fold (area (start_rect width height)) in Hlen. rewrite Harea in Hlen.
  rewrite Hlen.
  destruct (Z.le_gt_cases (width * height) 2147483647) as [Hfit|Hbig].
  - left. rewrite wrap_int_id by (unfold int_range; nia).
    rewrite Z.eqb_refl. cbn [negb].
    split; [lia|]. split; [lia|]. split; [done|]. exists curve. split; [done|].
    split; [done|]. split; [done|]. intros p. by rewrite Hel, Hin.
  - right. pose proof (wrap_int_range (width * height)) as [_ Hup].
    destruct (Z.eqb_spec (width * height) (wrap_int (width * height))); [lia|].
    cbn [negb]. repeat split; try done; lia.
Qed.

Lemma generate_mapping_outcomes_witness :
  ((3 <= 0 ∨ 2 <= 0) ∧
   generate_mapping 5 3 2 = Some ([InvalidSize 3 2], [])) ∨
  (1 <= 3 ∧ 1 <= 2 ∧ wrap_int (3 * 2) < 0 ∧
   reserve_throws 3 2 = true ∧
   generate_mapping 5 3 2 = None) ∨
  (1 <= 3 ∧ 1 <= 2 ∧ 3 * 2 <= 2147483647 ∧
   ∃ curve, generate_mapping 5 3 2 = Some ([], curve) ∧ valid_curve 3 2 curve) ∨
  (1 <= 3 ∧ 1 <= 2 ∧ 2147483647 < 3 * 2 ∧
   0 <= wrap_int (3 * 2) ∧
   generate_mapping 5 3 2
   = Some ([CountMismatch (3 * 2) (wrap_int (3 * 2))], [])).
Proof. apply (generate_mapping_outcomes 5 3 2); [lia|lia|intros; lia]. Defined.

(** *** Exchanging the axes *)

Lemma fill_line_transpose n : ∀ x y dx dy (coordinates : list Point),
  fill_line n y x dy dx (transpose_point <$> coordinates)
  = transpose_point <$> fill_line n x y dx dy coordinates.
Proof.
  induction n as [|n IH]; intros x y dx dy coordinates; [done|].
  cbn [fill_line]. rewrite <- IH, fmap_app. reflexivity.
Qed.

(** [generate2d] treats the two axes alike: exchanging [x] and [y] in all
    arguments exchanges them in all points. *)
Lemma generate2d_transpose fuel : ∀ x y ax ay bx by_ (coordinates : list Point),
  generate2d fuel y x ay ax by_ bx (transpose_point <$> coordinates)
  = (fun c : list Point => transpose_point <$> c)
      <$> generate2d fuel x y ax ay bx by_ coordinates.
Proof.
  induction fuel as [|fuel IH]; intros x y ax ay bx by_ coordinates; [done|].
  cbn [generate2d].
  rewrite (Z.add_comm ay ax), (Z.add_comm by_ bx),
    (Z.add_comm (Z.quot ay 2) (Z.quot ax 2)), (Z.add_comm (Z.quot by_ 2) (Z.quot bx 2)).
  destruct (_ =? 1). { cbn. by rewrite fill_line_transpose. }
  destruct (_ =? 1). { cbn. by rewrite fill_line_transpose. }
  destruct (_ >? _).
  - rewrite IH. destruct (generate2d fuel x y _ _ bx by_ coordinates) as [c1|];
      cbn [fmap option_fmap option_map mbind option_bind]; [|done].
    apply IH.
  - rewrite IH. destruct (generate2d fuel x y _ _ _ _ coordinates) as [c1|];
      cbn [fmap option_fmap option_map mbind option_bind]; [|done].
    rewrite IH. destruct (generate2d fuel _ _ ax ay _ _ c1) as [c2|];
      cbn [fmap option_fmap option_map mbind option_bind]; [|done].
    apply IH.
Qed.

(** X5: a portrait image gets the curve of the landscape image of the same two
    sides, with [x] and [y] exchanged. *)
Theorem generate_mapping_transpose (fuel : nat) (width height : Z)
    (curve : list Point) :
  1 <= width < height →
  generate_mapping fuel height width = Some ([], curve) →
  generate_mapping fuel width height = Some ([], transpose_point <$> curve).
Proof.
  intros Hwh. unfold generate_mapping.
  destruct (Z.leb_spec height 0); [lia|]. destruct (Z.leb_spec width 0); [lia|].
  cbn [orb].
  replace (reserve_throws width height) with (reserve_throws height width)
    by (unfold reserve_throws; by rewrite Z.mul_comm).
  destruct (reserve_throws height width); [done|].
  destruct (Z.geb_spec height width); [|lia]. destruct (Z.geb_spec width height); [lia|].
  pose proof (generate2d_transpose fuel 0 0 height 0 0 width []) as Ht.
  cbn [fmap list_fmap] in Ht. rewrite Ht.
  destruct (generate2d fuel 0 0 height 0 0 width []) as [c|];
    cbn [fmap option_fmap option_map mbind option_bind]; [|done].
  rewrite length_fmap, (Z.mul_comm width height).
  destruct (negb _); [done|]. by intros [= <-].
Qed.

Lemma generate_mapping_transpose_witness :
  generate_mapping 5 2 3
  = Some ([], transpose_point <$>
     [mkPoint 0 0; mkPoint 0 1; mkPoint 1 1; mkPoint 2 1; mkPoint 2 0; mkPoint 1 0]).
Proof. apply (generate_mapping_transpose 5 2 3); [lia|]. vm_compute. reflexivity. Defined.

(** *** Rectangles by origin, unit steps and lengths *)

Ltac open_axes H :=
  destruct H as [(-> & -> & [->| ->] & [->| ->])|(-> & -> & [->| ->] & [->| ->])].

Lemma aligned_frame r :
  aligned r →
  axes (unit_step (rax r)) (unit_step (ray r)) (unit_step (rbx r)) (unit_step (rby r)) ∧
  r = frame_rect (rx r) (ry r) (unit_step (rax r)) (unit_step (ray r))
        (unit_step (rbx r)) (unit_step (rby r)) (primary_len r) (ortho_len r).
Proof.
  intros Hal. rewrite !unit_step_sgn. unfold axes, frame_rect.
  open_rect r Hal; (split; [|f_equal]); lia.
Qed.

Lemma frame_lens x y dax day dbx dby w h :
  axes dax day dbx dby → 1 <= w → 1 <= h →
  primary_len (frame_rect x y dax day dbx dby w h) = w ∧
  ortho_len (frame_rect x y dax day dbx dby w h) = h ∧
  unit_step (w * dax) = dax ∧ unit_step (w * day) = day ∧
  unit_step (h * dbx) = dbx ∧ unit_step (h * dby) = dby.
Proof.
  intros Hax Hw Hh. rewrite !unit_step_sgn. unfold primary_len, ortho_len, frame_rect.
  cbn [rax ray rbx rby]. open_axes Hax; lia.
Qed.

Lemma frame_aligned x y dax day dbx dby w h :
  axes dax day dbx dby → 1 <= w → 1 <= h →
  aligned (frame_rect x y dax day dbx dby w h).
Proof.
  intros Hax Hw Hh. unfold aligned, frame_rect. cbn [rax ray rbx rby].
  open_axes Hax; lia.
Qed.

Lemma axes_swap dax day dbx dby : axes dax day dbx dby → axes dbx dby dax day.
Proof. unfold axes. lia. Qed.

Lemma axes_opp dax day dbx dby :
  axes dax day dbx dby → axes (- dbx) (- dby) (- dax) (- day).
Proof. unfold axes. lia. Qed.

Lemma exit_point_frame x y dax day dbx dby w h :
  axes dax day dbx dby → 1 <= w → 1 <= h →
  exit_point (frame_rect x y dax day dbx dby w h)
  = mkPoint (x + fst (exit_cell w h) * dax + snd (exit_cell w h) * dbx)
            (y + fst (exit_cell w h) * day + snd (exit_cell w h) * dby).
Proof.
  intros Hax Hw Hh.
  destruct (frame_lens x y dax day dbx dby w h Hax Hw Hh) as (E1 & E2 & E3 & E4 & E5 & E6).
  unfold exit_point. rewrite E1, E2. destruct (exit_cell w h) as [i j].
  unfold frame_rect. cbn [rx ry rax ray rbx rby fst snd].
  by rewrite E3, E4, E5, E6.
Qed.

Lemma axes_abs dax day dbx dby n :
  axes dax day dbx dby → 0 <= n →
  Z.abs (n * dax + n * day) = n ∧ Z.abs (n * dbx + n * dby) = n.
Proof. intros Hax Hn. open_axes Hax; lia. Qed.

Lemma axes_quot dax day dbx dby n :
  axes dax day dbx dby →
  Z.quot (n * dax) 2 = Z.quot n 2 * dax ∧ Z.quot (n * day) 2 = Z.quot n 2 * day ∧
  Z.quot (n * dbx) 2 = Z.quot n 2 * dbx ∧ Z.quot (n * dby) 2 = Z.quot n 2 * dby.
Proof. intros Hax. open_axes Hax; zlia. Qed.

Lemma axes_sgn dax day dbx dby n :
  axes dax day dbx dby → 1 <= n →
  Z.sgn (n * dax) = dax ∧ Z.sgn (n * day) = day ∧
  Z.sgn (n * dbx) = dbx ∧ Z.sgn (n * dby) = dby.
Proof. intros Hax Hn. open_axes Hax; lia. Qed.

Lemma split2d_frame x y dax day dbx dby w h :
  axes dax day dbx dby → 2 <= w → 2 <= h →
  split2d (frame_rect x y dax day dbx dby w h)
  = split_frame x y dax day dbx dby w h.
Proof.
  intros Hax Hw Hh. unfold split2d, split_frame, frame_rect, half_adj.
  rewrite !unit_step_sgn.
  destruct (axes_abs dax day dbx dby w Hax) as [-> _]; [lia|].
  destruct (axes_abs dax day dbx dby h Hax) as [_ ->]; [lia|].
  destruct (axes_quot dax day dbx dby w Hax) as (-> & -> & _ & _).
  destruct (axes_quot dax day dbx dby h Hax) as (_ & _ & -> & ->).
  destruct (axes_sgn dax day dbx dby w Hax) as (-> & -> & _ & _); [lia|].
  destruct (axes_sgn dax day dbx dby h Hax) as (_ & _ & -> & ->); [lia|].
  destruct (axes_abs dax day dbx dby (Z.quot w 2) Hax) as [-> _]; [zlia|].
  destruct (axes_abs dax day dbx dby (Z.quot h 2) Hax) as [_ ->]; [zlia|].
  destruct (_ >? _).
  - destruct (negb _ && _); repeat f_equal; ring.
  - destruct (negb _ && _); repeat f_equal; ring.
Qed.

(** *** Lengths and exit cells of the parts of a split *)

Lemma half_adj_spec n :
  2 <= n →
  (n = 2 ∧ half_adj n = 1) ∨
  (3 <= n ∧ Z.rem (half_adj n) 2 = 0 ∧ 2 <= half_adj n ∧
   2 * half_adj n <= n + 2 ∧ n <= 2 * half_adj n + 1).
Proof.
  intros Hn. unfold half_adj.
  destruct (Z.eqb_spec (Z.rem (Z.quot n 2) 2) 0); cbn [negb andb];
    [|destruct (Z.gtb_spec n 2)]; zlia.
Qed.

Ltac open_cells :=
  unfold exit_cell, straight_size;
  repeat match goal with
  | |- context [if ?a =? ?b then _ else _] =>
    destruct (Z.eqb_spec a b); cbn [negb andb fst snd]
  | |- context [if negb (?a =? ?b) && _ then _ else _] =>
    destruct (Z.eqb_spec a b); cbn [negb andb fst snd]
  end.

Lemma chain_wide w h :
  2 <= h → 3 * h < 2 * w →
  1 <= half_adj w ∧ 1 <= w - half_adj w ∧
  exit_cell (half_adj w) h = (half_adj w - 1, 0) ∧
  exit_cell w h = (half_adj w + fst (exit_cell (w - half_adj w) h),
                   snd (exit_cell (w - half_adj w) h)) ∧
  (straight_size w h →
   straight_size (half_adj w) h ∧ straight_size (w - half_adj w) h).
Proof.
  intros Hh Hwide.
  destruct (half_adj_spec w) as [[? ?]|(? & Hev & ? & ? & ?)]; [lia|lia|].
  generalize dependent (half_adj w). intros w1 Hev ? ? ?.
  split; [lia|]. split; [lia|]. split; [|split].
  - open_cells; try (f_equal; zlia); zlia.
  - open_cells; try (f_equal; zlia); zlia.
  - unfold straight_size. zlia.
Qed.

Lemma chain_tall w h :
  2 <= w → 2 <= h → 2 * w <= 3 * h →
  1 <= half_adj h ∧ 1 <= h - half_adj h ∧ 1 <= Z.quot w 2 ∧ 1 <= w - Z.quot w 2 ∧
  exit_cell (half_adj h) (Z.quot w 2) = (half_adj h - 1, 0) ∧
  snd (exit_cell w (h - half_adj h)) = 0 ∧
  w - 2 <= fst (exit_cell w (h - half_adj h)) <= w - 1 ∧
  (straight_size w h → fst (exit_cell w (h - half_adj h)) = w - 1) ∧
  fst (exit_cell (half_adj h) (w - Z.quot w 2)) = half_adj h - 1 ∧
  exit_cell w h = (w - 1 - snd (exit_cell (half_adj h) (w - Z.quot w 2)), 0) ∧
  (straight_size w h →
   straight_size (half_adj h) (Z.quot w 2) ∧ straight_size w (h - half_adj h) ∧
   straight_size (half_adj h) (w - Z.quot w 2)).
Proof.
  intros Hw Hh Htall.
  assert (2 * Z.quot w 2 <= w <= 2 * Z.quot w 2 + 1) as Hq by zlia.
  generalize dependent (Z.quot w 2). intros wh Hq.
  destruct (half_adj_spec h) as [[? E]|(? & Hev & ? & ? & ?)]; [lia| |].
  - rewrite E. subst h. assert (wh = 1) as -> by lia.
    repeat split; try lia; intros; unfold straight_size in *; open_cells;
      try (f_equal; zlia); try zlia.
  - generalize dependent (half_adj h). intros h1 Hev ? ? ?.
    repeat split; try lia; intros; unfold straight_size in *; open_cells;
      try (f_equal; zlia); try zlia.
Qed.

(** *** The recursive calls form a chain *)

Ltac frame_exits Hax :=
  rewrite ?exit_point_frame
    by first [exact Hax | apply axes_swap, Hax | apply axes_opp, Hax | lia].

(** The first recursive call starts where its caller starts, the last one
    stops where its caller is to stop, and each one stops next to the start
    of the following one; beside it, when the caller has no diagonal step,
    and then no recursive call has one. *)
Lemma split2d_chain r :
  aligned r → 2 <= primary_len r → 2 <= ortho_len r →
  entry_point <$> head (split2d r) = Some (entry_point r) ∧
  exit_point <$> last (split2d r) = Some (exit_point r) ∧
  linked neighbours (split2d r) ∧
  (straight r → Forall straight (split2d r) ∧ linked adjacent (split2d r)).
Proof.
  intros Hal Hw Hh. destruct (aligned_frame r Hal) as [Hax Hr].
  unfold straight. revert Hw Hh.
  generalize dependent (primary_len r). generalize dependent (ortho_len r).
  generalize dependent (unit_step (rax r)). generalize dependent (unit_step (ray r)).
  generalize dependent (unit_step (rbx r)). generalize dependent (unit_step (rby r)).
  intros dby dbx day dax Hax h w -> Hw Hh. clear Hal.
  generalize (rx r) (ry r). clear r. intros x y.
  rewrite split2d_frame by done. unfold split_frame.
  destruct (Z.gtb_spec (2 * w) (3 * h)) as [Hwide|Htall].
  - destruct (chain_wide w h Hh Hwide) as (H1 & H2 & E1 & E & Hst).
    cbn [head last linked fmap option_fmap option_map].
    split; [done|]. split; [|split].
    + f_equal. frame_exits Hax. rewrite E. cbn [fst snd]. f_equal; ring.
    + split; [|done]. frame_exits Hax. rewrite E1.
      unfold neighbours, entry_point, frame_rect. cbn [fst snd pt_x pt_y rx ry].
      open_axes Hax; lia.
    + intros Hs. destruct (Hst Hs) as [Hs1 Hs2]. split.
      * repeat (apply Forall_cons; split); try done.
        -- destruct (frame_lens x y dax day dbx dby (half_adj w) h Hax)
             as (-> & -> & _); [lia|lia|done].
        -- destruct (frame_lens (x + half_adj w * dax) (y + half_adj w * day)
                       dax day dbx dby (w - half_adj w) h Hax)
             as (-> & -> & _); [lia|lia|done].
      * split; [|done]. frame_exits Hax. rewrite E1.
        unfold adjacent, entry_point, frame_rect. cbn [fst snd pt_x pt_y rx ry].
        open_axes Hax; lia.
  - destruct (chain_tall w h Hw Hh) as (H1 & H2 & H3 & H4 & E1 & E2 & E2' & E2s & E3 & E & Hst);
      [lia|].
    cbn [head last linked fmap option_fmap option_map].
    split; [done|]. split; [|split].
    + f_equal. frame_exits Hax. rewrite E, E3. cbn [fst snd]. f_equal; ring.
    + split; [|split; [|done]].
      * frame_exits Hax. rewrite E1.
        unfold neighbours, entry_point, frame_rect. cbn [fst snd pt_x pt_y rx ry].
        open_axes Hax; lia.
      * frame_exits Hax. rewrite E2.
        unfold neighbours, entry_point, frame_rect. cbn [fst snd pt_x pt_y rx ry].
        open_axes Hax; lia.
    + intros Hs. destruct (Hst Hs) as (Hs1 & Hs2 & Hs3). split.
      * repeat (apply Forall_cons; split); try done.
        -- destruct (frame_lens x y dbx dby dax day (half_adj h) (Z.quot w 2))
             as (-> & -> & _); [by apply axes_swap|lia|lia|done].
        -- destruct (frame_lens (x + half_adj h * dbx) (y + half_adj h * dby)
                       dax day dbx dby w (h - half_adj h) Hax)
             as (-> & -> & _); [lia|lia|done].
        -- destruct (frame_lens (x + (w - 1) * dax + (half_adj h - 1) * dbx)
                       (y + (w - 1) * day + (half_adj h - 1) * dby)
                       (- dbx) (- dby) (- dax) (- day) (half_adj h) (w - Z.quot w 2))
             as (-> & -> & _); [by apply axes_opp|lia|lia|done].
      * split; [|split; [|done]].
        -- frame_exits Hax. rewrite E1.
           unfold adjacent, entry_point, frame_rect. cbn [fst snd pt_x pt_y rx ry].
           open_axes Hax; lia.
        -- frame_exits Hax. rewrite E2, (E2s Hs).
           unfold adjacent, entry_point, frame_rect. cbn [fst snd pt_x pt_y rx ry].
           open_axes Hax; lia.
Qed.

(** *** Paths *)

Lemma adjacent_neighbours p q : adjacent p q → neighbours p q.
Proof. unfold adjacent, neighbours. lia. Qed.

Lemma connected_app adj l1 l2 :
  connected adj l1 → connected adj l2 →
  (∀ p q, last l1 = Some p → head l2 = Some q → adj p q) →
  connected adj (l1 ++ l2).
Proof.
  induction l1 as [|p [|p' l1] IH]; intros H1 H2 Hlink; [done| |].
  - destruct l2 as [|q l2]; [done|]. split; [by apply Hlink|done].
  - destruct H1 as [Hpp' H1]. split; [done|]. apply IH; [done|done|].
    intros a b Ha Hb. apply Hlink; [|done]. by rewrite last_cons_cons.
Qed.

Lemma connected_lookup adj l i p q :
  connected adj l → l !! i = Some p → l !! S i = Some q → adj p q.
Proof.
  revert i. induction l as [|a [|b l] IH]; intros i Hl Hp Hq; [done| |].
  - destruct i; done.
  - destruct Hl as [Hab Hl]. destruct i as [|i].
    + injection Hp as <-. injection Hq as <-. done.
    + by apply (IH i).
Qed.

Lemma line_points_connected n x y dx dy :
  Z.abs dx + Z.abs dy = 1 → connected adjacent (line_points n x y dx dy).
Proof.
  intros Hd. revert x y. induction n as [|n IH]; intros x y; [done|].
  rewrite line_points_S. specialize (IH (x + dx) (y + dy)).
  destruct n as [|n]; [done|]. rewrite line_points_S in IH |- *.
  split; [|done]. unfold adjacent. cbn. lia.
Qed.

Lemma line_points_head n x y dx dy :
  (0 < n)%nat → head (line_points n x y dx dy) = Some (mkPoint x y).
Proof. destruct n; [lia|]. by rewrite line_points_S. Qed.

Lemma line_points_last n x y dx dy :
  (0 < n)%nat →
  last (line_points n x y dx dy)
  = Some (mkPoint (x + (Z.of_nat n - 1) * dx) (y + (Z.of_nat n - 1) * dy)).
Proof.
  intros Hn. unfold line_points. rewrite fmap_last.
  destruct n as [|n]; [lia|]. rewrite seq_S, last_snoc. cbn [fmap option_fmap option_map].
  do 2 f_equal; lia.
Qed.

(** A sequence of linked calls, each of which walks a connected path from
    its entry to its exit, walks a connected path from the first entry to
    the last exit. *)
Lemma run_calls_path adj fuel calls :
  (∀ r coordinates, r ∈ calls →
     ∃ out, run2d fuel r coordinates = Some (coordinates ++ out) ∧
            connected adj out ∧ head out = Some (entry_point r) ∧
            last out = Some (exit_point r)) →
  linked adj calls → calls ≠ [] →
  ∀ coordinates, ∃ out,
    run_calls fuel calls coordinates = Some (coordinates ++ out) ∧
    connected adj out ∧
    head out = entry_point <$> head calls ∧
    last out = exit_point <$> last calls.
Proof.
  induction calls as [|r calls IH]; intros Hrun Hlink Hne coordinates; [done|].
  destruct (Hrun r coordinates) as (out1 & Hr1 & Hc1 & Hh1 & Hl1); [left|].
  rewrite run_calls_cons, Hr1. cbn [mbind option_bind].
  destruct calls as [|r2 calls].
  { exists out1. unfold run_calls. cbn. done. }
  destruct Hlink as [Hn Hlink].
  destruct (IH (fun r' c H => Hrun r' c (list_elem_of_further _ _ _ H)) Hlink
               ltac:(done) (coordinates ++ out1)) as (out2 & Hr2 & Hc2 & Hh2 & Hl2).
  exists (out1 ++ out2). rewrite Hr2, app_assoc. split; [done|].
  cbn [head fmap option_fmap option_map] in Hh2.
  assert (out1 ≠ []) as Hne1 by (intros ->; discriminate Hh1).
  assert (out2 ≠ []) as Hne2 by (intros ->; discriminate Hh2).
  split; [|split].
  - apply connected_app; [done|done|]. intros p q Hp Hq.
    rewrite Hl1 in Hp. rewrite Hh2 in Hq. injection Hp as <-. injection Hq as <-. done.
  - destruct out1; [done|]. done.
  - rewrite last_app, last_cons_cons, <- Hl2.
    destruct (last out2) eqn:E; [done|]. by apply last_None in E.
Qed.

Section path.
Variable adj : Point → Point → Prop.
Variable good : Rect → Prop.
Hypothesis adj_side : ∀ p q, adjacent p q → adj p q.
Hypothesis good_split : ∀ r,
  aligned r → 2 <= primary_len r → 2 <= ortho_len r → good r →
  Forall good (split2d r) ∧ linked adj (split2d r).

Lemma connected_side l : connected adjacent l → connected adj l.
Proof.
  induction l as [|p [|q l] IH]; [done|done|]. intros [Hpq Hl]. split; auto.
Qed.

(** [generate2d] on an aligned rectangle walks from the origin of the
    rectangle to its exit cell, every point related to the one before. *)
Lemma run2d_path_gen fuel : ∀ r coordinates,
  aligned r → good r → primary_len r + ortho_len r <= Z.of_nat fuel →
  ∃ out, run2d fuel r coordinates = Some (coordinates ++ out) ∧
         connected adj out ∧ head out = Some (entry_point r) ∧
         last out = Some (exit_point r).
Proof.
  induction fuel as [|fuel IH]; intros r coordinates Hal Hgood Hfuel.
  - apply aligned_len in Hal. lia.
  - rewrite generate2d_unfold. pose proof (aligned_len r Hal) as [Hw Hh].
    destruct (Z.eqb_spec (ortho_len r) 1) as [Hh1|Hh1].
    { eexists. rewrite fill_line_app. split; [reflexivity|].
      rewrite line_points_head, line_points_last by lia.
      split; [|split; [done|]].
      - apply connected_side, line_points_connected. rewrite !unit_step_sgn.
        clear -Hal. open_rect r Hal; lia.
      - unfold exit_point, exit_cell. rewrite Hh1. cbn [Z.eqb]. rewrite andb_false_r.
        rewrite Z2Nat.id by lia.
        destruct (Z.eqb_spec (primary_len r) 1) as [->|_]; do 2 f_equal; lia. }
    destruct (Z.eqb_spec (primary_len r) 1) as [Hw1|Hw1].
    { eexists. rewrite fill_line_app. split; [reflexivity|].
      rewrite line_points_head, line_points_last by lia.
      split; [|split; [done|]].
      - apply connected_side, line_points_connected. rewrite !unit_step_sgn.
        clear -Hal. open_rect r Hal; lia.
      - unfold exit_point, exit_cell. rewrite Hw1. cbn [Z.eqb].
        rewrite Z2Nat.id by lia. do 2 f_equal; lia. }
    assert (2 <= primary_len r) as Hw2 by lia.
    assert (2 <= ortho_len r) as Hh2 by lia.
    pose proof (split2d_ok r Hal Hw2 Hh2) as Hok. rewrite Forall_forall in Hok.
    destruct (split2d_chain r Hal Hw2 Hh2) as (Hhead & Hlast & _).
    destruct (good_split r Hal Hw2 Hh2 Hgood) as [Hgoods Hlink].
    rewrite Forall_forall in Hgoods.
    destruct (run_calls_path adj fuel (split2d r)) with (coordinates := coordinates)
      as (out & Hrun & Hc & Hh' & Hl').
    + intros r' c Hr'. pose proof (Hgoods r' Hr') as Hg'. apply Hok in Hr'.
      destruct Hr' as (Hal' & _ & _ & Hlt & _). apply IH; [done|done|lia].
    + done.
    + intros E. rewrite E in Hhead. done.
    + exists out. rewrite Hh', Hl'. done.
Qed.
End path.

(** Every point of the path of a call touches the one before. *)
Lemma run2d_path fuel r coordinates :
  aligned r → primary_len r + ortho_len r <= Z.of_nat fuel →
  ∃ out, run2d fuel r coordinates = Some (coordinates ++ out) ∧
         connected neighbours out ∧ head out = Some (entry_point r) ∧
         last out = Some (exit_point r).
Proof.
  intros Hal Hfuel.
  apply (run2d_path_gen neighbours (fun _ => True)); try done.
  - apply adjacent_neighbours.
  - intros r' Hal' Hw Hh _. split; [by apply Forall_true|].
    by apply split2d_chain.
Qed.

(** With no odd primary side next to an even orthogonal side of four or
    more, every point of the path shares a side with the one before. *)
Lemma run2d_path_straight fuel r coordinates :
  aligned r → straight r → primary_len r + ortho_len r <= Z.of_nat fuel →
  ∃ out, run2d fuel r coordinates = Some (coordinates ++ out) ∧
         connected adjacent out.
Proof.
  intros Hal Hst Hfuel.
  destruct (run2d_path_gen adjacent straight) with (fuel := fuel) (r := r)
    (coordinates := coordinates) as (out & Hrun & Hc & _); try done.
  - intros r' Hal' Hw Hh Hs. by apply split2d_chain.
  - by exists out.
Qed.

(** *** The curve as a path through the image *)

Lemma generate_mapping_path fuel width height :
  1 <= width → 1 <= height → width * height <= 2147483647 →
  width + height <= Z.of_nat fuel →
  ∃ curve,
    generate_mapping fuel width height = Some ([], curve) ∧
    run2d fuel (start_rect width height) [] = Some curve ∧
    NoDup curve.
Proof.
  intros Hw Hh Hint32 Hfuel.
  destruct (generate_mapping_valid_curve fuel width height Hw Hh Hint32 Hfuel)
    as (curve & Hgen & Hvalid).
  exists curve. split; [done|]. split; [|by destruct Hvalid as (_ & ? & _)].
  rewrite generate_mapping_start in Hgen.
  destruct (Z.leb_spec width 0); [lia|]. destruct (Z.leb_spec height 0); [lia|].
  cbn [orb] in Hgen. destruct (reserve_throws width height); [done|].
  destruct (run2d fuel (start_rect width height) []) as [c|]; [|done].
  cbn [mbind option_bind] in Hgen. destruct (negb _); [done|]. congruence.
Qed.

(** X2: for an image whose pixel count fits in an [int], consecutive points
    of the curve are different cells that touch, by a side or by a corner:
    the curve never jumps. *)
Theorem generate_mapping_connected (fuel : nat) (width height : Z) :
  1 <= width → 1 <= height → width * height <= 2147483647 →
  width + height <= Z.of_nat fuel →
  ∃ curve,
    generate_mapping fuel width height = Some ([], curve) ∧
    ∀ (i : nat) p q, curve !! i = Some p → curve !! S i = Some q →
      p ≠ q ∧
      Z.abs (pt_x q - pt_x p) <= 1 ∧ Z.abs (pt_y q - pt_y p) <= 1.
Proof.
  intros Hw Hh Hint32 Hfuel.
  destruct (generate_mapping_path fuel width height Hw Hh Hint32 Hfuel)
    as (curve & Hgen & Hrun & Hnd).
  exists curve. split; [done|]. intros i p q Hp Hq.
  destruct (start_rect_aligned width height Hw Hh) as (Hal & _ & Hsum & _).
  destruct (run2d_path fuel (start_rect width height) [] Hal)
    as (out & Hrun' & Hc & _); [lia|].
  rewrite Hrun in Hrun'. injection Hrun' as ->. cbn [app] in *.
  split.
  - intros <-. pose proof (NoDup_lookup _ _ _ _ Hnd Hp Hq). lia.
  - exact (connected_lookup neighbours out i p q Hc Hp Hq).
Qed.

Lemma generate_mapping_connected_witness :
  ∃ curve,
    generate_mapping 9 5 4 = Some ([], curve) ∧
    ∀ (i : nat) p q, curve !! i = Some p → curve !! S i = Some q →
      p ≠ q ∧
      Z.abs (pt_x q - pt_x p) <= 1 ∧ Z.abs (pt_y q - pt_y p) <= 1.
Proof. apply (generate_mapping_connected 9 5 4); lia. Defined.

(** X3: for an image whose pixel count fits in an [int]: unless the longer
    side of the image is odd and the shorter side is even and at least 4,
    consecutive points of the curve share a side: the curve has no diagonal
    step. *)
Theorem generate_mapping_side_steps (fuel : nat) (width height : Z) :
  1 <= width → 1 <= height → width * height <= 2147483647 →
  width + height <= Z.of_nat fuel →
  Z.even (Z.max width height) = true ∨ Z.odd (Z.min width height) = true ∨
  Z.min width height = 2 →
  ∃ curve,
    generate_mapping fuel width height = Some ([], curve) ∧
    ∀ (i : nat) p q, curve !! i = Some p → curve !! S i = Some q →
      Z.abs (pt_x q - pt_x p) + Z.abs (pt_y q - pt_y p) = 1.
Proof.
  intros Hw Hh Hint32 Hfuel Hsize.
  destruct (generate_mapping_path fuel width height Hw Hh Hint32 Hfuel)
    as (curve & Hgen & Hrun & Hnd).
  exists curve. split; [done|]. intros i p q Hp Hq.
  destruct (start_rect_aligned width height Hw Hh) as (Hal & _ & Hsum & _).
  destruct (run2d_path_straight fuel (start_rect width height) [] Hal)
    as (out & Hrun' & Hc); [|lia|].
  - unfold straight, straight_size, start_rect, primary_len, ortho_len.
    rewrite Z.even_spec, Z.odd_spec in Hsize.
    destruct Hsize as [[k Hk]|[[k Hk]|Hk]];
      destruct (Z.geb_spec width height); cbn [rax ray rbx rby]; zlia.
  - rewrite Hrun in Hrun'. injection Hrun' as ->. cbn [app] in *.
    exact (connected_lookup adjacent out i p q Hc Hp Hq).
Qed.

Lemma generate_mapping_side_steps_witness :
  ∃ curve,
    generate_mapping 11 6 5 = Some ([], curve) ∧
    ∀ (i : nat) p q, curve !! i = Some p → curve !! S i = Some q →
      Z.abs (pt_x q - pt_x p) + Z.abs (pt_y q - pt_y p) = 1.
Proof.
  apply (generate_mapping_side_steps 11 6 5); [lia|lia|lia|lia|].
  left. reflexivity.
Defined.

(** X4: for an image whose pixel count fits in an [int], the curve starts in
    the corner [(0, 0)] and ends on the same side of the image, at the far
    end of its longer side (one cell before the end when the longer side is
    odd and the shorter side is 2). *)
Theorem generate_mapping_endpoints (fuel : nat) (width height : Z) :
  1 <= width → 1 <= height → width * height <= 2147483647 →
  width + height <= Z.of_nat fuel →
  ∃ curve,
    generate_mapping fuel width height = Some ([], curve) ∧
    head curve = Some (mkPoint 0 0) ∧
    last curve = Some (curve_end width height).
Proof.
  intros Hw Hh Hint32 Hfuel.
  destruct (generate_mapping_path fuel width height Hw Hh Hint32 Hfuel)
    as (curve & Hgen & Hrun & Hnd).
  exists curve. split; [done|].
  destruct (start_rect_aligned width height Hw Hh) as (Hal & _ & Hsum & _).
  destruct (run2d_path fuel (start_rect width height) [] Hal)
    as (out & Hrun' & _ & Hhead & Hlast); [lia|].
  rewrite Hrun in Hrun'. injection Hrun' as ->. cbn [app] in *.
  rewrite Hhead, Hlast. split.
  - unfold entry_point, start_rect. by destruct (width >=? height).
  - f_equal. unfold exit_point, exit_cell, curve_end, start_rect, primary_len, ortho_len.
    rewrite !unit_step_sgn.
    destruct (Z.geb_spec width height); cbn [rx ry rax ray rbx rby].
    + rewrite Z.max_l, Z.min_r by lia. rewrite !Z.add_0_r, !Z.add_0_l.
      rewrite (Z.abs_eq width), (Z.abs_eq height) by lia.
      destruct (Z.eqb_spec width 1) as [->|Hne].
      { assert (height = 1) as -> by lia. reflexivity. }
      destruct (negb _ && _); f_equal; lia.
    + rewrite Z.max_r, Z.min_l by lia. rewrite !Z.add_0_r, !Z.add_0_l.
      rewrite (Z.abs_eq width), (Z.abs_eq height) by lia.
      destruct (Z.eqb_spec height 1) as [->|Hne]; [lia|].
      destruct (negb _ && _); f_equal; lia.
Qed.

Lemma generate_mapping_endpoints_witness :
  ∃ curve,
    generate_mapping 7 5 2 = Some ([], curve) ∧
    head curve = Some (mkPoint 0 0) ∧
    last curve = Some (mkPoint 3 0).
Proof. apply (generate_mapping_endpoints 7 5 2); lia. Defined.

(** *** The machine integers of the generator *)

Lemma called_inside width height r :
  1 <= width → 1 <= height →
  called (start_rect width height) r → inside width height r.
Proof.
  intros Hw Hh. induction 1 as [|r r' _ IH Hh1 Hw1 Hin].
  - by apply inside_start.
  - pose proof (inside_split width height r IH Hh1 Hw1) as Hall.
    rewrite Forall_forall in Hall. by apply Hall.
Qed.

(** X6: for an image whose sides are at most 715827882 pixels, no call of
    [generate2d] computes a value outside the range of [int]: all the
    arithmetic of the generator is free of overflow. *)
Theorem generate2d_no_overflow (width height : Z) (r : Rect) :
  1 <= width <= 715827882 → 1 <= height <= 715827882 →
  called (start_rect width height) r →
  aligned r ∧ Forall int_range (intermediates r).
Proof.
  intros Hw Hh Hcall.
  pose proof (called_inside width height r ltac:(lia) ltac:(lia) Hcall) as Hin.
  split; [by destruct Hin|].
  eapply Forall_impl; [by apply (intermediates_bounded width height)|].
  intros v Hv. unfold int_range. cbn beta in Hv. lia.
Qed.

Lemma generate2d_no_overflow_witness :
  aligned (mkRect 2 0 3 0 0 2) ∧ Forall int_range (intermediates (mkRect 2 0 3 0 0 2)).
Proof.
  apply (generate2d_no_overflow 5 2 (mkRect 2 0 3 0 0 2)); [lia|lia|].
  apply (called_sub _ (start_rect 5 2)); [apply called_top|discriminate|discriminate|].
  change (split2d (start_rect 5 2)) with [mkRect 0 0 2 0 0 2; mkRect 2 0 3 0 0 2].
  apply list_elem_of_further, list_elem_of_here.
Defined.

(** ** More about the permutation *)

(** *** Formats [copy_pixels] does not know *)

Lemma copy_pixel_unsupported src_img dst_img curve total offset is_encrypt
    channels depth i :
  ¬ supported channels depth →
  total = Z.of_nat (length curve) → total <= 2147483647 →
  0 <= offset → offset + (total - 1) <= 9223372036854775807 → 0 <= i < total →
  copy_pixel src_img dst_img curve total offset is_encrypt channels depth i
  = Some dst_img.
Proof.
  intros Hns Hlen Hint32 Hoff Hoff64 Hi. unfold copy_pixel.
  rewrite get_indices_shift by lia.
  pose proof (shift_range offset total i ltac:(lia)) as Hs.
  destruct (curve_at_lt curve i) as [p Hp]; [lia|].
  destruct (curve_at_lt curve (shift offset total i)) as [q Hq]; [lia|].
  assert (∀ r : option Mat,
    (if depth =? CV_8U
     then if channels =? 1 then r else if channels =? 3 then r
          else if channels =? 4 then r else Some dst_img
     else if depth =? CV_16U
     then if channels =? 1 then r else if channels =? 3 then r
          else if channels =? 4 then r else Some dst_img
     else Some dst_img) = Some dst_img) as Hdispatch.
  { intros r. unfold supported in Hns.
    destruct (Z.eqb_spec depth CV_8U), (Z.eqb_spec depth CV_16U),
      (Z.eqb_spec channels 1), (Z.eqb_spec channels 3), (Z.eqb_spec channels 4);
      try reflexivity; exfalso; apply Hns; auto. }
  destruct is_encrypt; rewrite Hp, Hq; cbn [mbind option_bind]; apply Hdispatch.
Qed.

(** X11: for a channel count or depth outside the supported ones the loop runs
    over the whole curve and stores nothing: the destination comes back
    unchanged.  This holds for a curve length [total] in the range of [int]
    and a non-negative offset whose sums with the loop indices fit in an
    [int64_t]. *)
Theorem copy_pixels_unsupported (src_img dst_img : Mat) (curve : list Point)
    (total offset : Z) (is_encrypt : bool) (channels depth : Z) :
  ¬ supported channels depth →
  total = Z.of_nat (length curve) → total <= 2147483647 →
  0 <= offset → offset + (total - 1) <= 9223372036854775807 →
  copy_pixels src_img dst_img curve total offset is_encrypt channels depth
  = Some dst_img.
Proof.
  intros Hns Hlen Hint32 Hoff Hoff64. unfold copy_pixels, INT_MAX.
  destruct (Z.ltb_spec 2147483647 total); [lia|].
  assert (Forall (fun i => 0 <= i < total) (seqZ 0 total)) as Hall.
  { apply Forall_forall. intros i Hi. apply elem_of_seqZ in Hi. lia. }
  induction Hall as [|i rest Hi _ IH]; [done|].
  cbn [copy_loop]. rewrite copy_pixel_unsupported by done. exact IH.
Qed.

Lemma copy_pixels_unsupported_witness :
  copy_pixels (mkMat 1 2 2 CV_8U [[1; 2]; [3; 4]]) (mkMat 1 2 2 CV_8U [[0; 0]; [0; 0]])
              [mkPoint 0 0; mkPoint 1 0] 2 1 true 2 CV_8U
  = Some (mkMat 1 2 2 CV_8U [[0; 0]; [0; 0]]).
Proof.
  apply (copy_pixels_unsupported (mkMat 1 2 2 CV_8U [[1; 2]; [3; 4]])
           (mkMat 1 2 2 CV_8U [[0; 0]; [0; 0]]) [mkPoint 0 0; mkPoint 1 0] 2 1 true 2 CV_8U).
  - unfold supported. cbn. lia.
  - reflexivity.
  - lia.
  - lia.
  - lia.
Defined.

(** *** The pixels along the curve are rotated *)

Lemma rotate_Permutation {A} (n : nat) (l : list A) : rotate n l ≡ₚ l.
Proof.
  unfold rotate. rewrite Permutation_app_comm. by rewrite take_drop.
Qed.

Lemma rotate_nat_add_shift (o i n : nat) :
  (0 < n)%nat →
  Z.of_nat (rotate_nat_add o i n) = shift (Z.of_nat o) (Z.of_nat n) (Z.of_nat i).
Proof.
  intros Hn. unfold rotate_nat_add, shift. rewrite Z2Nat.id.
  - f_equal. lia.
  - apply Z.mod_pos_bound. lia.
Qed.

Lemma rotate_rotate {A} (n m : nat) (l : list A) :
  rotate n (rotate m l) = rotate (m + n) l.
Proof.
  apply list_eq. intros i.
  destruct (decide (i < length l)%nat) as [Hi|Hi].
  - assert (0 < length l)%nat as Hpos by lia.
    rewrite lookup_rotate_r by (rewrite length_rotate; lia).
    rewrite length_rotate.
    rewrite lookup_rotate_r by (apply rotate_nat_add_lt; lia).
    rewrite (lookup_rotate_r l (m + n)) by lia.
    f_equal. apply Nat2Z.inj.
    rewrite !rotate_nat_add_shift by lia. unfold shift.
    rewrite Zplus_mod_idemp_l. f_equal. lia.
  - rewrite !lookup_ge_None_2 by (rewrite ?length_rotate; lia). done.
Qed.

Lemma rotate_inj {A} (n : nat) (l1 l2 : list A) :
  rotate n l1 = rotate n l2 → l1 = l2.
Proof.
  intros Heq. assert (length l1 = length l2) as Hlen.
  { rewrite <- (length_rotate l1 n), Heq. apply length_rotate. }
  apply list_eq. intros i.
  destruct (decide (i < length l1)%nat) as [Hi|Hi].
  - rewrite <- (lookup_rotate_l l1 n i), <- (lookup_rotate_l l2 n i) by lia.
    by rewrite Heq, Hlen.
  - rewrite !lookup_ge_None_2 by lia. done.
Qed.

Lemma along_length curve m : length (along curve m) = length curve.
Proof. unfold along. apply length_fmap. Qed.

Lemma along_lookup curve m idx p :
  curve_at curve idx = Some p →
  along curve m !! Z.to_nat idx = Some (mat_at m (pt_y p) (pt_x p)).
Proof.
  unfold curve_at, along. destruct (0 <=? idx); [|done]. intros Hp.
  by rewrite list_lookup_fmap, Hp.
Qed.

Section along_curve.
Variables (src_img : Mat) (curve : list Point).
Hypothesis Hsrc : wf_mat src_img.
Hypothesis Hdims : 1 <= cols src_img ∧ 1 <= rows src_img.
Hypothesis Hcurve : valid_curve (cols src_img) (rows src_img) curve.

Local Abbreviation total := (cols src_img * rows src_img).

(** An image is determined by its pixels along a curve of the image. *)
Lemma along_inj m1 m2 :
  wf_mat m1 → wf_mat m2 → same_shape src_img m1 → same_shape src_img m2 →
  along curve m1 = along curve m2 → m1 = m2.
Proof.
  intros Hw1 Hw2 Hs1 Hs2 Heq. apply mat_eq.
  { eapply same_shape_trans; [apply same_shape_sym, Hs1|exact Hs2]. }
  apply list_eq. intros q.
  destruct Hs1 as (Er1 & Ec1 & _), Hs2 as (Er2 & Ec2 & _).
  destruct (decide (Z.of_nat q < total)) as [Hq|Hq].
  - destruct (cell_of_curve src_img curve total Hsrc Hcurve eq_refl q Hq)
      as (idx & p & Hidx & Hp & <-).
    assert (in_image (cols src_img) (rows src_img) p) as Hin.
    { destruct Hcurve as (_ & _ & Hel). apply Hel.
      by apply curve_at_Some in Hp as [_ ?]. }
    pose proof (along_lookup curve m1 idx p Hp) as H1.
    pose proof (along_lookup curve m2 idx p Hp) as H2.
    rewrite Heq, H2 in H1. injection H1 as H1.
    rewrite !mat_at_cell in H1 by (rewrite <- ?Er1, <- ?Ec1, <- ?Er2, <- ?Ec2; done).
    unfold cell_index in *. rewrite <- Ec1, <- Ec2 in H1. done.
  - destruct Hw1 as (_ & _ & Hl1), Hw2 as (_ & _ & Hl2).
    rewrite !lookup_ge_None_2; [done| |]; nia.
Qed.

(** Reading along the curve lists every pixel of the image once. *)
Lemma along_Permutation m :
  wf_mat m → same_shape src_img m → along curve m ≡ₚ Some <$> data m.
Proof.
  intros Hw (Er & Ec & _). destruct Hcurve as (Hlen & Hnd & Hel).
  assert (along curve m = (fun q => data m !! q) <$> (cell_index m <$> curve)) as ->.
  { unfold along. rewrite <- list_fmap_compose. apply list_fmap_ext.
    intros k p Hp. cbn. apply mat_at_cell. rewrite <- Er, <- Ec.
    apply Hel. by eapply list_elem_of_lookup_2. }
  assert (cell_index m <$> curve ≡ₚ seq 0 (length (data m))) as ->.
  { apply NoDup_Permutation.
    - apply NoDup_fmap_2_strong; [|done]. intros p q Hp Hq Hpq.
      unfold cell_index in Hpq. rewrite <- Ec in Hpq.
      apply (cell_pos_inj src_img); [by apply Hel|by apply Hel|done].
    - apply NoDup_seq.
    - intros q. rewrite list_elem_of_fmap, elem_of_seq. split.
      + intros (p & -> & Hp). apply Hel in Hp.
        pose proof (mat_index_lt m (pt_y p) (pt_x p) (cell_index m p) Hw) as Hlt.
        rewrite mat_index_in in Hlt by (rewrite <- Er, <- Ec; done).
        specialize (Hlt eq_refl). lia.
      + intros [_ Hq].
        destruct (cell_of_curve src_img curve total Hsrc (conj Hlen (conj Hnd Hel))
                    eq_refl q) as (idx & p & _ & Hp & <-).
        { destruct Hw as (_ & _ & Hl). nia. }
        exists p. split.
        * unfold cell_index. by rewrite Ec.
        * by apply curve_at_Some in Hp as [_ ?]. }
  assert ((fun q => data m !! q) <$> seq 0 (length (data m)) = Some <$> data m)
    as ->; [|done].
  apply list_eq. intros i. rewrite !list_lookup_fmap.
  destruct (decide (i < length (data m))%nat) as [Hi|Hi].
  - rewrite lookup_seq_lt by done. cbn.
    apply lookup_lt_is_Some in Hi as [px Hpx]. by rewrite Hpx.
  - rewrite (lookup_ge_None_2 (seq _ _)) by (rewrite length_seq; lia).
    rewrite lookup_ge_None_2 by lia. done.
Qed.
End along_curve.

Lemma copy_pixels_rotation (src_img dst_img : Mat) (curve : list Point)
    (offset : Z) (is_encrypt : bool) :
  1 <= cols src_img → 1 <= rows src_img →
  cols src_img * rows src_img <= 2147483647 → wf_mat src_img →
  supported (channels src_img) (depth src_img) →
  valid_curve (cols src_img) (rows src_img) curve → 0 <= offset →
  offset + (cols src_img * rows src_img - 1) <= 9223372036854775807 →
  wf_mat dst_img → same_shape src_img dst_img →
  ∃ out,
    copy_pixels src_img dst_img curve (cols src_img * rows src_img) offset
                is_encrypt (channels src_img) (depth src_img) = Some out ∧
    wf_mat out ∧ same_shape src_img out ∧
    if is_encrypt
    then rotate (Z.to_nat offset) (along curve out) = along curve src_img
    else along curve out = rotate (Z.to_nat offset) (along curve src_img).
Proof.
  intros Hc Hr Hint32 Hsrc Hsup Hcurve Hoff Hoff64 Hdst Hsh.
  set (total := cols src_img * rows src_img) in *.
  destruct (copy_pixels_spec src_img curve total offset _ _ is_encrypt
              Hsup Hsrc Hcurve eq_refl Hoff Hint32 Hoff64 dst_img Hdst Hsh)
    as (out & Hrun & Hout & Hso & Hcopied).
  exists out. split; [exact Hrun|]. split; [done|]. split; [done|].
  assert (Z.of_nat (length curve) = total) as Hlen by (by destruct Hcurve).
  assert (0 < length curve)%nat as Hpos by (unfold total in Hlen; nia).
  (* the pixel at curve index [idx], in either image *)
  assert (∀ idx, 0 <= idx < total →
    ∃ p, curve_at curve idx = Some p ∧
         along curve src_img !! Z.to_nat idx = Some (data src_img !! cell_index src_img p) ∧
         along curve out !! Z.to_nat idx = Some (data out !! cell_index src_img p))
    as Hcell.
  { intros idx Hidx.
    destruct (curve_cell src_img curve total Hcurve eq_refl idx Hidx) as (p & Hp & Hin).
    exists p. split; [done|]. rewrite !(along_lookup _ _ _ _ Hp). split.
    - by rewrite mat_at_cell.
    - destruct Hso as (Er & Ec & _). rewrite mat_at_cell by (by rewrite <- Er, <- Ec).
      unfold cell_index. by rewrite Ec. }
  assert (∀ i : nat, (i < length curve)%nat →
    along curve out !! Z.to_nat (dest_index offset total is_encrypt (Z.of_nat i))
    = along curve src_img !! Z.to_nat (src_index offset total is_encrypt (Z.of_nat i)))
    as Hmove.
  { intros i Hi.
    destruct (Hcell (src_index offset total is_encrypt (Z.of_nat i)))
      as (ps & Hps & -> & _); [apply src_of_range; lia|].
    destruct (Hcell (dest_index offset total is_encrypt (Z.of_nat i)))
      as (pd & Hpd & _ & ->); [apply dest_of_range; lia|].
    f_equal. apply (Hcopied (Z.of_nat i)); [lia|done|done]. }
  assert (∀ i : nat, (i < length curve)%nat →
    rotate_nat_add (Z.to_nat offset) i (length curve)
    = Z.to_nat (shift offset total (Z.of_nat i))) as Hrot.
  { intros i Hi. apply Nat2Z.inj. rewrite rotate_nat_add_shift by lia.
    rewrite !Z2Nat.id, Hlen; [done|apply shift_range; lia|lia]. }
  destruct is_encrypt; apply list_eq; intros i.
  - destruct (decide (i < length curve)%nat) as [Hi|Hi].
    + rewrite lookup_rotate_r, along_length, Hrot by (rewrite ?along_length; lia).
      specialize (Hmove i Hi). unfold dest_index, src_index in Hmove.
      by rewrite Hmove, Nat2Z.id.
    + rewrite !lookup_ge_None_2 by (rewrite ?length_rotate, ?along_length; lia). done.
  - destruct (decide (i < length curve)%nat) as [Hi|Hi].
    + rewrite lookup_rotate_r, along_length, Hrot by (rewrite ?along_length; lia).
      specialize (Hmove i Hi). unfold dest_index, src_index in Hmove.
      by rewrite <- Hmove, Nat2Z.id.
    + rewrite !lookup_ge_None_2 by (rewrite ?length_rotate, ?along_length; lia). done.
Qed.

Lemma rotate_multiple {A} (n : nat) (l : list A) :
  (n mod length l = 0)%nat → rotate n l = l.
Proof. intros H. unfold rotate. rewrite H. cbn. apply app_nil_r. Qed.

Lemma back_rotation (offset total : Z) :
  0 <= offset → 1 <= total →
  ((Z.to_nat (total - offset mod total) + Z.to_nat offset) mod Z.to_nat total = 0)%nat.
Proof.
  intros Ho Ht.
  assert (Z.to_nat (total - offset mod total) + Z.to_nat offset
          = Z.to_nat (1 + offset / total) * Z.to_nat total)%nat as ->.
  { pose proof (Z.mod_pos_bound offset total ltac:(lia)).
    pose proof (Z.div_pos offset total ltac:(lia) ltac:(lia)).
    pose proof (Z.div_mod offset total ltac:(lia)).
    apply Nat2Z.inj. rewrite Nat2Z.inj_add, Nat2Z.inj_mul, !Z2Nat.id by lia. nia. }
  apply Nat.Div0.mod_mul.
Qed.

(** X7: for a pixel count [total] in the range of [int] and a non-negative
    offset whose sums with the loop indices fit in an [int64_t], one pass of
    [copy_pixels] rotates the sequence of pixels read along the curve: the
    output sequence is the input sequence rotated to the left by [offset]
    places when unscrambling, and by [total - offset mod total] places, that
    is to the right by [offset], when scrambling. *)
Theorem copy_pixels_rotates (src_img dst_img : Mat) (curve : list Point)
    (offset : Z) (is_encrypt : bool) :
  1 <= cols src_img → 1 <= rows src_img →
  cols src_img * rows src_img <= 2147483647 → wf_mat src_img →
  supported (channels src_img) (depth src_img) →
  valid_curve (cols src_img) (rows src_img) curve → 0 <= offset →
  offset + (cols src_img * rows src_img - 1) <= 9223372036854775807 →
  wf_mat dst_img → same_shape src_img dst_img →
  ∃ out,
    copy_pixels src_img dst_img curve (cols src_img * rows src_img) offset
                is_encrypt (channels src_img) (depth src_img) = Some out ∧
    wf_mat out ∧ same_shape src_img out ∧
    along curve out
    = rotate (Z.to_nat (if is_encrypt
                        then cols src_img * rows src_img
                             - offset mod (cols src_img * rows src_img)
                        else offset))
             (along curve src_img).
Proof.
  intros Hc Hr Hint32 Hsrc Hsup Hcurve Hoff Hoff64 Hdst Hsh.
  destruct (copy_pixels_rotation src_img dst_img curve offset is_encrypt)
    as (out & Hrun & Hout & Hso & Hrot); try done.
  exists out. split; [done|]. split; [done|]. split; [done|].
  destruct is_encrypt; [|done].
  apply (rotate_inj (Z.to_nat offset)). rewrite Hrot, rotate_rotate.
  symmetry. apply rotate_multiple. rewrite along_length.
  destruct Hcurve as (Hlen & _).
  replace (length curve) with (Z.to_nat (cols src_img * rows src_img)) by lia.
  apply back_rotation; [done|nia].
Qed.


Lemma omap_id_Some {A} (l : list A) : omap id (Some <$> l) = l.
Proof. induction l as [|x l IH]; cbn; [done|]. by rewrite IH. Qed.

Lemma Some_Permutation_inj {A} (l1 l2 : list A) :
  Some <$> l1 ≡ₚ Some <$> l2 → l1 ≡ₚ l2.
Proof.
  intros H. rewrite <- (omap_id_Some l1), <- (omap_id_Some l2). by rewrite H.
Qed.

Lemma copy_pixels_permutation (src_img dst_img : Mat) (curve : list Point)
    (offset : Z) (is_encrypt : bool) :
  1 <= cols src_img → 1 <= rows src_img →
  cols src_img * rows src_img <= 2147483647 → wf_mat src_img →
  supported (channels src_img) (depth src_img) →
  valid_curve (cols src_img) (rows src_img) curve → 0 <= offset →
  offset + (cols src_img * rows src_img - 1) <= 9223372036854775807 →
  wf_mat dst_img → same_shape src_img dst_img →
  ∃ out,
    copy_pixels src_img dst_img curve (cols src_img * rows src_img) offset
                is_encrypt (channels src_img) (depth src_img) = Some out ∧
    same_shape src_img out ∧ data out ≡ₚ data src_img.
Proof.
  intros Hc Hr Hint32 Hsrc Hsup Hcurve Hoff Hoff64 Hdst Hsh.
  destruct (copy_pixels_rotation src_img dst_img curve offset is_encrypt)
    as (out & Hrun & Hout & Hso & Hrot); try done.
  exists out. split; [done|]. split; [done|].
  apply Some_Permutation_inj.
  rewrite <- (along_Permutation src_img curve Hsrc (conj Hc Hr) Hcurve out Hout Hso).
  rewrite <- (along_Permutation src_img curve Hsrc (conj Hc Hr) Hcurve src_img Hsrc)
    by done.
  destruct is_encrypt.
  - rewrite <- Hrot. by rewrite rotate_Permutation.
  - rewrite Hrot. apply rotate_Permutation.
Qed.

Lemma channel_sum_Permutation m1 m2 c :
  data m1 ≡ₚ data m2 → channel_sum m1 c = channel_sum m2 c.
Proof.
  unfold channel_sum.
  induction 1 as [|px l1 l2 _ IH|px py l|l1 l2 l3 _ IH1 _ IH2]; cbn [foldr]; lia.
Qed.

Lemma sum_is_zero_Permutation m1 m2 :
  data m1 ≡ₚ data m2 → sum_is_zero m1 = sum_is_zero m2.
Proof.
  intros H. unfold sum_is_zero. by rewrite !(channel_sum_Permutation m1 m2 _ H).
Qed.

(** X8: for a pixel count in the range of [int] and a non-negative offset
    whose sums with the loop indices fit in an [int64_t], the output of one
    pass holds the pixels of the input, each as often as the input does:
    nothing is lost, duplicated or invented; so the sum of every channel
    over the image is the same before and after. *)
Theorem copy_pixels_preserves_pixels (src_img dst_img : Mat) (curve : list Point)
    (offset : Z) (is_encrypt : bool) :
  1 <= cols src_img → 1 <= rows src_img →
  cols src_img * rows src_img <= 2147483647 → wf_mat src_img →
  supported (channels src_img) (depth src_img) →
  valid_curve (cols src_img) (rows src_img) curve → 0 <= offset →
  offset + (cols src_img * rows src_img - 1) <= 9223372036854775807 →
  wf_mat dst_img → same_shape src_img dst_img →
  ∃ out,
    copy_pixels src_img dst_img curve (cols src_img * rows src_img) offset
                is_encrypt (channels src_img) (depth src_img) = Some out ∧
    same_shape src_img out ∧ data out ≡ₚ data src_img ∧
    ∀ c, channel_sum out c = channel_sum src_img c.
Proof.
  intros Hc Hr Hint32 Hsrc Hsup Hcurve Hoff Hoff64 Hdst Hsh.
  destruct (copy_pixels_permutation src_img dst_img curve offset is_encrypt)
    as (out & Hrun & Hso & Hperm); try done.
  exists out. split; [done|]. split; [done|]. split; [done|].
  intros c. by apply channel_sum_Permutation.
Qed.


(** X9: for a pixel count in the range of [int] and a non-negative offset
    whose sums with the loop indices fit in an [int64_t], every pixel of the
    destination is overwritten: the result of a pass does not depend on what
    the destination held before. *)
Theorem copy_pixels_overwrites_destination (src_img dst1 dst2 : Mat)
    (curve : list Point) (offset : Z) (is_encrypt : bool) :
  1 <= cols src_img → 1 <= rows src_img →
  cols src_img * rows src_img <= 2147483647 → wf_mat src_img →
  supported (channels src_img) (depth src_img) →
  valid_curve (cols src_img) (rows src_img) curve → 0 <= offset →
  offset + (cols src_img * rows src_img - 1) <= 9223372036854775807 →
  wf_mat dst1 → same_shape src_img dst1 →
  wf_mat dst2 → same_shape src_img dst2 →
  ∃ out,
    copy_pixels src_img dst1 curve (cols src_img * rows src_img) offset
                is_encrypt (channels src_img) (depth src_img) = Some out ∧
    copy_pixels src_img dst2 curve (cols src_img * rows src_img) offset
                is_encrypt (channels src_img) (depth src_img) = Some out.
Proof.
  intros Hc Hr Hint32 Hsrc Hsup Hcurve Hoff Hoff64 Hd1 Hs1 Hd2 Hs2.
  destruct (copy_pixels_rotation src_img dst1 curve offset is_encrypt)
    as (out1 & Hrun1 & Hout1 & Hso1 & Hrot1); try done.
  destruct (copy_pixels_rotation src_img dst2 curve offset is_encrypt)
    as (out2 & Hrun2 & Hout2 & Hso2 & Hrot2); try done.
  exists out1. split; [done|]. rewrite Hrun2. f_equal.
  apply (along_inj src_img curve Hsrc (conj Hc Hr) Hcurve); try done.
  destruct is_encrypt.
  - apply (rotate_inj (Z.to_nat offset)). by rewrite Hrot1, Hrot2.
  - by rewrite Hrot1, Hrot2.
Qed.

(** X10: for a pixel count in the range of [int] and non-negative offsets
    [o1], [o2] such that the sums of [o1 + o2] with the loop indices fit in
    an [int64_t], a pass with offset [o1] followed by a pass in the same
    direction with offset [o2] is one pass with offset [o1 + o2]. *)
Theorem copy_pixels_compose (src_img dst1 dst2 dst3 : Mat) (curve : list Point)
    (o1 o2 : Z) (is_encrypt : bool) :
  1 <= cols src_img → 1 <= rows src_img →
  cols src_img * rows src_img <= 2147483647 → wf_mat src_img →
  supported (channels src_img) (depth src_img) →
  valid_curve (cols src_img) (rows src_img) curve → 0 <= o1 → 0 <= o2 →
  o1 + o2 + (cols src_img * rows src_img - 1) <= 9223372036854775807 →
  wf_mat dst1 → same_shape src_img dst1 →
  wf_mat dst2 → same_shape src_img dst2 →
  wf_mat dst3 → same_shape src_img dst3 →
  ∃ mid out,
    copy_pixels src_img dst1 curve (cols src_img * rows src_img) o1
                is_encrypt (channels src_img) (depth src_img) = Some mid ∧
    copy_pixels mid dst2 curve (cols src_img * rows src_img) o2
                is_encrypt (channels src_img) (depth src_img) = Some out ∧
    copy_pixels src_img dst3 curve (cols src_img * rows src_img) (o1 + o2)
                is_encrypt (channels src_img) (depth src_img) = Some out.
Proof.
  intros Hc Hr Hint32 Hsrc Hsup Hcurve Ho1 Ho2 Hoff64 Hd1 Hs1 Hd2 Hs2 Hd3 Hs3.
  destruct (copy_pixels_rotation src_img dst1 curve o1 is_encrypt)
    as (mid & Hrun1 & Hmid & Hsm & Hrot1); try done; [lia|].
  pose proof Hsm as (Er & Ec & Ech & Ed).
  destruct (copy_pixels_rotation mid dst2 curve o2 is_encrypt)
    as (out & Hrun2 & Hout & Hmo & Hrot2);
    rewrite <- ?Er, <- ?Ec, <- ?Ech, <- ?Ed; try done; [lia| |].
  { eapply same_shape_trans; [apply same_shape_sym, Hsm|done]. }
  rewrite <- ?Er, <- ?Ec, <- ?Ech, <- ?Ed in Hrun2.
  destruct (copy_pixels_rotation src_img dst3 curve (o1 + o2) is_encrypt
              Hc Hr Hint32 Hsrc Hsup Hcurve ltac:(lia) Hoff64 Hd3 Hs3)
    as (out' & Hrun3 & Hout' & Hso' & Hrot3).
  exists mid, out. split; [done|]. split; [done|]. rewrite Hrun3. f_equal.
  pose proof (same_shape_trans _ _ _ Hsm Hmo) as Hso.
  apply (along_inj src_img curve Hsrc (conj Hc Hr) Hcurve); try done.
  rewrite Z2Nat.inj_add in Hrot3 by done.
  destruct is_encrypt.
  - apply (rotate_inj (Z.to_nat o2 + Z.to_nat o1)).
    rewrite <- !rotate_rotate, Hrot2, Hrot1.
    rewrite rotate_rotate, (Nat.add_comm (Z.to_nat o2)), Hrot3. done.
  - rewrite Hrot3, Hrot2, Hrot1, rotate_rotate. done.
Qed.

(** *** The offset moves every pixel *)

(** X12: for an image of at least two pixels, with a pixel count in the
    range of [int], the offset is neither zero nor a multiple of the number
    of pixels, so no iteration of [copy_pixels] reads and writes the same
    curve index: every pixel changes its place along the curve. *)
Theorem golden_offset_moves_every_pixel (total i : Z) (is_encrypt : bool) :
  2 <= total <= 2147483647 → 0 <= i < total →
  1 <= golden_offset total < total ∧
  fst (get_indices (golden_offset total) total i is_encrypt)
  ≠ snd (get_indices (golden_offset total) total i is_encrypt).
Proof.
  intros Ht Hi.
  assert (2 ^ 53 = 9007199254740992) as E53 by reflexivity.
  destruct (golden_offset_scaled total) as [_ Hlo]; [lia|].
  destruct (golden_offset_upper total) as [_ Hhi]; [lia|].
  specialize (Hhi ltac:(lia)).
  assert (1 <= golden_offset total) as Hk by lia.
  split; [lia|]. clear Hlo.
  assert (shift (golden_offset total) total i ≠ i) as Hne.
  { unfold shift.
    destruct (decide (i + golden_offset total < total)) as [Hlt|Hge].
    - rewrite Z.mod_small by lia. lia.
    - rewrite <- (Z.mod_unique_pos _ _ 1 (i + golden_offset total - total)); lia. }
  rewrite get_indices_shift by lia.
  destruct is_encrypt; cbn [fst snd]; congruence.
Qed.

Lemma golden_offset_moves_every_pixel_witness :
  1 <= golden_offset 9 < 9 ∧
  fst (get_indices (golden_offset 9) 9 4 true)
  ≠ snd (get_indices (golden_offset 9) 9 4 true).
Proof.
  apply (golden_offset_moves_every_pixel 9 4 true).
  - lia.
  - lia.
Defined.

(** *** The outcomes of [process_image] *)

(** X13: on a decoded image of a supported format with at least one pixel
    and a pixel count in the range of [int], [process_image] always comes
    to a result, one of four.  The image whose channel sums are all zero is
    refused with the all-zero error.  For every other image, an image of
    the same shape holding exactly the pixels of the input is computed;
    then the call returns with an error when the target file exists and
    cannot be opened (line 372), logs an error when [imwrite] fails
    (line 387), and has saved the computed image otherwise.  The errors
    about the curve (none, wrong size, out of bounds) and the length error
    never occur. *)
Theorem process_image_outcome (fuel : nat) (target : Target) (img : Mat)
    (is_encrypt : bool) :
  1 <= cols img → 1 <= rows img → cols img * rows img <= 2147483647 →
  cols img + rows img <= Z.of_nat fuel →
  wf_mat img → supported (channels img) (depth img) →
  ∃ out,
    wf_mat out ∧ same_shape img out ∧ data out ≡ₚ data img ∧
    process_image fuel target img is_encrypt
    = Some (if sum_is_zero img then Failed AllZeroOutput
            else if negb (writable target) then Failed NotWritable
            else if negb (imwrite_ok target) then Failed SaveFailed
            else Written out).
Proof.
  intros Hc Hr Hint32 Hfuel Hwf Hsup.
  destruct (generate_mapping_valid_curve fuel (cols img) (rows img) Hc Hr Hint32 Hfuel)
    as (curve & Hgen & Hcurve).
  assert (0 <= cols img * rows img <= 2147483647) as Hrange by nia.
  destruct (zeros_like_wf img) as [Hz Hsz]; [lia|lia|].
  destruct (golden_offset_fits (cols img * rows img)) as [Hoff Hoff64]; [nia|lia|].
  destruct (copy_pixels_rotation img (zeros_like img) curve _ is_encrypt
              Hc Hr Hint32 Hwf Hsup Hcurve Hoff Hoff64 Hz Hsz)
    as (out & Hrun & Hout & _).
  destruct (copy_pixels_permutation img (zeros_like img) curve _ is_encrypt
              Hc Hr Hint32 Hwf Hsup Hcurve Hoff Hoff64 Hz Hsz)
    as (out' & Hrun' & Hso & Hperm).
  rewrite Hrun in Hrun'. injection Hrun' as <-.
  exists out. split; [done|]. split; [done|]. split; [done|].
  assert (curve ≠ []) as Hne.
  { destruct Hcurve as (Hlen & _). intros ->. cbn in Hlen. nia. }
  assert (∀ p, p ∈ curve → in_image (cols img) (rows img) p) as Hin.
  { destruct Hcurve as (_ & _ & Hel). intros p. apply Hel. }
  assert (Z.of_nat (length curve) = cols img * rows img) as Hlen.
  { by destruct Hcurve as (? & _). }
  rewrite (process_image_supported _ _ _ _ curve Hsup Hrange Hgen).
  rewrite (permute_image_copy target img curve is_encrypt out Hrange Hne Hlen Hin Hrun).
  rewrite (sum_is_zero_Permutation out img Hperm). reflexivity.
Qed.

Lemma copy_pixels_rotates_witness :
  ∃ out,
    copy_pixels (mkMat 1 2 1 CV_16U [[7]; [9]]) (mkMat 1 2 1 CV_16U [[0]; [0]])
                [mkPoint 0 0; mkPoint 1 0] (2 * 1) 3 true 1 CV_16U = Some out ∧
    wf_mat out ∧ same_shape (mkMat 1 2 1 CV_16U [[7]; [9]]) out ∧
    along [mkPoint 0 0; mkPoint 1 0] out
    = rotate (Z.to_nat (2 * 1 - 3 mod (2 * 1)))
             (along [mkPoint 0 0; mkPoint 1 0] (mkMat 1 2 1 CV_16U [[7]; [9]])).
Proof.
  apply (copy_pixels_rotates (mkMat 1 2 1 CV_16U [[7]; [9]])
           (mkMat 1 2 1 CV_16U [[0]; [0]]) [mkPoint 0 0; mkPoint 1 0] 3 true).
  - cbn. lia.
  - cbn. lia.
  - cbn. lia.
  - unfold wf_mat. cbn. lia.
  - unfold supported. cbn. auto.
  - exact valid_curve_2x1.
  - lia.
  - cbn. lia.
  - unfold wf_mat. cbn. lia.
  - unfold same_shape. cbn. auto.
Defined.

Lemma copy_pixels_preserves_pixels_witness :
  ∃ out,
    copy_pixels (mkMat 1 2 3 CV_8U [[10; 20; 30]; [40; 50; 60]])
                (mkMat 1 2 3 CV_8U [[1; 1; 1]; [2; 2; 2]])
                [mkPoint 0 0; mkPoint 1 0] (2 * 1) 1 false 3 CV_8U = Some out ∧
    same_shape (mkMat 1 2 3 CV_8U [[10; 20; 30]; [40; 50; 60]]) out ∧
    data out ≡ₚ [[10; 20; 30]; [40; 50; 60]] ∧
    ∀ c, channel_sum out c
         = channel_sum (mkMat 1 2 3 CV_8U [[10; 20; 30]; [40; 50; 60]]) c.
Proof.
  apply (copy_pixels_preserves_pixels
           (mkMat 1 2 3 CV_8U [[10; 20; 30]; [40; 50; 60]])
           (mkMat 1 2 3 CV_8U [[1; 1; 1]; [2; 2; 2]])
           [mkPoint 0 0; mkPoint 1 0] 1 false).
  - cbn. lia.
  - cbn. lia.
  - cbn. lia.
  - unfold wf_mat. cbn. lia.
  - unfold supported. cbn. auto.
  - exact valid_curve_2x1.
  - lia.
  - cbn. lia.
  - unfold wf_mat. cbn. lia.
  - unfold same_shape. cbn. auto.
Defined.

Lemma copy_pixels_overwrites_destination_witness :
  ∃ out,
    copy_pixels (mkMat 1 2 1 CV_8U [[7]; [9]]) (mkMat 1 2 1 CV_8U [[0]; [0]])
                [mkPoint 0 0; mkPoint 1 0] (2 * 1) 1 true 1 CV_8U = Some out ∧
    copy_pixels (mkMat 1 2 1 CV_8U [[7]; [9]]) (mkMat 1 2 1 CV_8U [[5]; [6]])
                [mkPoint 0 0; mkPoint 1 0] (2 * 1) 1 true 1 CV_8U = Some out.
Proof.
  apply (copy_pixels_overwrites_destination (mkMat 1 2 1 CV_8U [[7]; [9]])
           (mkMat 1 2 1 CV_8U [[0]; [0]]) (mkMat 1 2 1 CV_8U [[5]; [6]])
           [mkPoint 0 0; mkPoint 1 0] 1 true).
  - cbn. lia.
  - cbn. lia.
  - cbn. lia.
  - unfold wf_mat. cbn. lia.
  - unfold supported. cbn. auto.
  - exact valid_curve_2x1.
  - lia.
  - cbn. lia.
  - unfold wf_mat. cbn. lia.
  - unfold same_shape. cbn. auto.
  - unfold wf_mat. cbn. lia.
  - unfold same_shape. cbn. auto.
Defined.

Lemma copy_pixels_compose_witness :
  ∃ mid out,
    copy_pixels (mkMat 1 2 1 CV_8U [[7]; [9]]) (mkMat 1 2 1 CV_8U [[0]; [0]])
                [mkPoint 0 0; mkPoint 1 0] (2 * 1) 1 true 1 CV_8U = Some mid ∧
    copy_pixels mid (mkMat 1 2 1 CV_8U [[0]; [0]])
                [mkPoint 0 0; mkPoint 1 0] (2 * 1) 2 true 1 CV_8U = Some out ∧
    copy_pixels (mkMat 1 2 1 CV_8U [[7]; [9]]) (mkMat 1 2 1 CV_8U [[0]; [0]])
                [mkPoint 0 0; mkPoint 1 0] (2 * 1) (1 + 2) true 1 CV_8U = Some out.
Proof.
  apply (copy_pixels_compose (mkMat 1 2 1 CV_8U [[7]; [9]])
           (mkMat 1 2 1 CV_8U [[0]; [0]]) (mkMat 1 2 1 CV_8U [[0]; [0]])
           (mkMat 1 2 1 CV_8U [[0]; [0]]) [mkPoint 0 0; mkPoint 1 0] 1 2 true).
  - cbn. lia.
  - cbn. lia.
  - cbn. lia.
  - unfold wf_mat. cbn. lia.
  - unfold supported. cbn. auto.
  - exact valid_curve_2x1.
  - lia.
  - lia.
  - cbn. lia.
  - unfold wf_mat. cbn. lia.
  - unfold same_shape. cbn. auto.
  - unfold wf_mat. cbn. lia.
  - unfold same_shape. cbn. auto.
  - unfold wf_mat. cbn. lia.
  - unfold same_shape. cbn. auto.
Defined.

Lemma process_image_outcome_witness :
  ∃ out,
    wf_mat out ∧ same_shape (mkMat 2 3 1 CV_8U [[1]; [2]; [3]; [4]; [5]; [6]]) out ∧
    data out ≡ₚ [[1]; [2]; [3]; [4]; [5]; [6]] ∧
    process_image 5 (mkTarget true true)
                  (mkMat 2 3 1 CV_8U [[1]; [2]; [3]; [4]; [5]; [6]]) true
    = Some (Written out).
Proof.
  apply (process_image_outcome 5 (mkTarget true true)
           (mkMat 2 3 1 CV_8U [[1]; [2]; [3]; [4]; [5]; [6]]) true).
  - cbn. lia.
  - cbn. lia.
  - cbn. lia.
  - cbn. lia.
  - unfold wf_mat. cbn. lia.
  - unfold supported. cbn. auto.
Defined.

Lemma process_image_roundtrip_witness :
  ∃ mid,
    (∀ target,
       process_image 5 target (mkMat 2 3 1 CV_8U [[1]; [2]; [3]; [4]; [5]; [6]]) true
       = Some (save_image target mid)) ∧
    (∀ target,
       process_image 5 target mid (negb true)
       = Some (save_image target (mkMat 2 3 1 CV_8U [[1]; [2]; [3]; [4]; [5]; [6]]))) ∧
    (∀ target, writable target = true → imwrite_ok target = true →
       process_image 5 target (mkMat 2 3 1 CV_8U [[1]; [2]; [3]; [4]; [5]; [6]]) true
       = Some (Written mid) ∧
       process_image 5 target mid (negb true)
       = Some (Written (mkMat 2 3 1 CV_8U [[1]; [2]; [3]; [4]; [5]; [6]]))).
Proof.
  apply (process_image_roundtrip 5 (mkMat 2 3 1 CV_8U [[1]; [2]; [3]; [4]; [5]; [6]]) true).
  - cbn. lia.
  - cbn. lia.
  - cbn. lia.
  - cbn. lia.
  - unfold wf_mat. cbn. lia.
  - unfold supported. cbn. auto.
  - unfold nonneg_pixels. cbn. repeat constructor; lia.
  - reflexivity.
Defined.
(** ** Progress output and image formats *)

Lemma progress_step_pos total : 0 <= total → 1 <= progress_step total.
Proof. intros Ht. unfold progress_step. destruct (Z.eqb_spec (Z.quot total 10) 0); zlia. Qed.

Lemma progress_output_split total :
  1 <= total →
  progress_output total
  = (seqZ 0 (total - 1) ≫= percent_at total) ++ percent_at total (total - 1) ++ [Finished].
Proof.
  intros Ht. unfold progress_output.
  assert (seqZ 0 total = seqZ 0 (total - 1) ++ [total - 1]) as ->.
  { replace total with ((total - 1) + 1) at 1 by lia.
    rewrite seqZ_app by lia. f_equal. }
  rewrite bind_app. f_equal.
  - apply Forall_bind_ext. apply Forall_forall. intros i Hi.
    apply elem_of_seqZ in Hi. unfold progress_at.
    destruct (Z.eqb_spec i (total - 1)); [lia|]. by rewrite app_nil_r.
  - cbn. unfold progress_at. rewrite Z.eqb_refl, app_nil_r. done.
Qed.

Lemma percent_at_range total i :
  0 <= i < total →
  Forall (fun l => ∃ p, l = Percent p ∧ 0 <= p <= 99) (percent_at total i).
Proof.
  intros Hi. unfold percent_at. destruct (_ =? 0); [|constructor].
  apply Forall_singleton. eexists. split; [done|].
  pose proof (Z.quot_pos (i * 100) total ltac:(lia) ltac:(lia)).
  pose proof (Z.quot_lt_upper_bound (i * 100) total 100 ltac:(lia) ltac:(lia) ltac:(lia)).
  lia.
Qed.

(** The number of percentages written before iteration [n]: one for every
    multiple of the step. *)
Lemma percent_count total (n : nat) :
  0 <= total →
  let c := Z.of_nat (length (seqZ 0 (Z.of_nat n) ≫= percent_at total)) in
  progress_step total * (c - 1) < Z.of_nat n ∨ (n = 0%nat ∧ c = 0).
Proof.
  intros Ht. pose proof (progress_step_pos total Ht) as Hs.
  cbn zeta.
  assert (let c := Z.of_nat (length (seqZ 0 (Z.of_nat n) ≫= percent_at total)) in
          progress_step total * (c - 1) < Z.of_nat n ∧
          Z.of_nat n <= progress_step total * c) as H; [|cbn zeta in H; lia].
  cbn zeta. induction n as [|n IH].
  - rewrite seqZ_nil by lia. change (Z.of_nat (length ([] ≫= percent_at total))) with 0. lia.
  - rewrite seqZ_S, bind_app, length_app, Nat2Z.inj_add, bind_singleton, Z.add_0_l.
    unfold percent_at at 2 4.
    set (c := Z.of_nat (length _)) in *.
    set (s := progress_step total) in *.
    destruct (Z.eqb_spec (Z.rem (Z.of_nat n) s) 0) as [Hr|Hr]; cbn [length].
    + apply Z.rem_divide in Hr as [q Hq]; [|lia].
      assert (q = c) as -> by nia. nia.
    + assert (Z.of_nat n ≠ s * c) as Hne.
      { intros E. apply Hr. rewrite E, Z.mul_comm. apply Z.rem_mul. lia. }
      nia.
Qed.

(** X15: for a pixel count in the range of [int], the progress output
    starts with 0%, ends with the closing line, and in between holds only
    percentages, all from 0 to 99. *)
Theorem progress_output_shape (total : Z) :
  1 <= total → total <= 2147483647 →
  ∃ middle,
    progress_output total = Percent 0 :: middle ++ [Finished] ∧
    Forall (fun l => ∃ p, l = Percent p ∧ 0 <= p <= 99) middle.
Proof.
  intros Ht _. rewrite progress_output_split by done.
  destruct (decide (total = 1)) as [->|Hne].
  { exists []. split; [reflexivity|constructor]. }
  rewrite seqZ_cons by lia. rewrite bind_cons.
  assert (percent_at total 0 = [Percent 0]) as ->.
  { unfold percent_at. rewrite Z.rem_0_l by (pose proof (progress_step_pos total); lia).
    reflexivity. }
  exists ((seqZ (Z.succ 0) (Z.pred (total - 1)) ≫= percent_at total)
          ++ percent_at total (total - 1)).
  split; [by rewrite <- !app_assoc|].
  apply Forall_app. split.
  - apply Forall_bind, Forall_forall. intros i Hi. apply elem_of_seqZ in Hi.
    apply percent_at_range. lia.
  - apply percent_at_range. lia.
Qed.

Lemma progress_output_shape_witness :
  ∃ middle,
    progress_output 25 = Percent 0 :: middle ++ [Finished] ∧
    Forall (fun l => ∃ p, l = Percent p ∧ 0 <= p <= 99) middle.
Proof. apply (progress_output_shape 25); lia. Defined.

(** X16: whatever the pixel count in the range of [int], at most 20 progress
    lines are written. *)
Theorem progress_output_bounded (total : Z) :
  1 <= total → total <= 2147483647 →
  (length (progress_output total) <= 20)%nat.
Proof.
  intros Ht _. rewrite progress_output_split by done.
  rewrite !length_app. cbn [length].
  assert (length (percent_at total (total - 1)) <= 1)%nat as Hlast.
  { unfold percent_at. destruct (_ =? 0); cbn; lia. }
  pose proof (percent_count total (Z.to_nat (total - 1)) ltac:(lia)) as Hc.
  cbn zeta in Hc. rewrite Z2Nat.id in Hc by lia.
  generalize dependent (length (seqZ 0 (total - 1) ≫= percent_at total)).
  intros c Hc.
  generalize dependent (length (percent_at total (total - 1))). intros c' Hlast.
  assert (total <= 10 * progress_step total + 9) as Hstep.
  { unfold progress_step. destruct (Z.eqb_spec (Z.quot total 10) 0); zlia. }
  pose proof (progress_step_pos total ltac:(lia)) as Hs.
  assert (Z.of_nat c <= 18); [|lia].
  destruct Hc as [Hc|[_ Hc]]; [|lia]. nia.
Qed.

Lemma progress_output_bounded_witness : (length (progress_output 19) <= 20)%nat.
Proof. apply (progress_output_bounded 19); lia. Defined.

(** X17: [main] hands a file to [process_image] exactly when [process_image]
    finds a format for its extension; the format found has that extension,
    and its parameters for [imwrite] are pairs of a flag and a value. *)
Theorem selected_files_have_format (ext : string) :
  (is_selected ext = true ↔ is_Some (find_format ext)) ∧
  ∀ fmt, find_format ext = Some fmt →
         extension fmt = ext ∧ Nat.Even (length (write_params fmt)).
Proof.
  unfold is_selected, find_format, supported_exts, SUPPORTED_FORMATS.
  cbn [existsb List.find extension].
  repeat match goal with
  | |- context [String.eqb ?s ext] => destruct (String.eqb_spec s ext) as [<-|?]
  end; cbn [orb].
  all: split;
    [split; first [done | intros _; eexists; reflexivity | intros [? [=]]]|].
  all: intros fmt Hfmt; try discriminate Hfmt; injection Hfmt as <-; cbn.
  all: split; [done|]; first [by exists 0%nat | by exists 1%nat].
Qed.

